(** * Virtual-router agent core: flow-statistics aging, task policy, VRF lifetime

    A shallow embedding of
      - [FlowStatsCollector] (flow aging, counter reconciliation, export),
      - [Agent::SetAgentTaskPolicy] (the scheduler exclusion table),
      - [VrfEntry] / [VrfTable] (delete timer, pending-delete gate, [DeleteActor],
        the next-hop map, lookup by name),
      - [Agent::GlobalVrouterConfig],
    followed by the properties established about them.

    Conventions.  C++ unsigned integers are values of [Z]; every operation that
    can leave the range of its type is followed by the explicit wrap-around
    ([wrap64], [wrap32]).  Pointers to [FlowEntry] objects are addresses into an
    explicit heap, so that a flow reached through the flow map and through the
    [reverse_flow] link of its partner is one shared object. *)

From Stdlib Require Import ZArith Bool Lia.
From stdpp Require Import base option list strings pretty gmap.

Local Open Scope Z_scope.

(** ** Fixed-width unsigned arithmetic *)

Definition wrap64 (z : Z) : Z := z mod 2 ^ 64.
Definition wrap32 (z : Z) : Z := z mod 2 ^ 32.

Definition is_u8 (z : Z) : Prop := 0 <= z < 2 ^ 8.
Definition is_u16 (z : Z) : Prop := 0 <= z < 2 ^ 16.
Definition is_u32 (z : Z) : Prop := 0 <= z < 2 ^ 32.
Definition is_u64 (z : Z) : Prop := 0 <= z < 2 ^ 64.

(** ** Flow data model *)

Module Flow.

(** Objects of type [FlowEntry] are referred to by address. *)
Definition addr := nat.

(** Stand-in for [boost::uuids::uuid] (a 128-bit value). *)
Definition uuid := Z.

(** [FlowKey]: the 5-tuple; [src.ipv4] and [dst.ipv4] are the two addresses. *)
Record FlowKey := mkFlowKey {
  src : Z;
  dst : Z;
  protocol : Z;
  src_port : Z;
  dst_port : Z
}.

(** [FlowEntry::data]. *)
Record FlowData := mkFlowData {
  bytes : Z;                       (* uint64_t *)
  packets : Z;                     (* uint64_t *)
  reverse_flow : option addr;      (* FlowEntryPtr, None = NULL *)
  ingress : bool;
  source_vn : string;
  dest_vn : string
}.

(** [FlowEntry].  The member [nat] of the source is spelled [nat_]. *)
Record FlowEntry := mkFlowEntry {
  key : FlowKey;
  data : FlowData;
  flow_handle : Z;
  last_modified_time : Z;          (* uint64_t *)
  setup_time : Z;
  teardown_time : Z;
  nat_ : bool;
  local_flow : bool;
  short_flow : bool;
  flow_uuid : uuid;
  egress_uuid : uuid;
  intf_in : Z
}.

Definition ShortFlow (e : FlowEntry) : bool := short_flow e.

(** The kernel's per-flow counters, [vr_flow_entry::fe_stats]. *)
Record vr_flow_stats := mk_vr_flow_stats {
  flow_bytes : Z;                  (* uint32_t *)
  flow_packets : Z;                (* uint32_t *)
  flow_bytes_oflow : Z;            (* uint16_t *)
  flow_packets_oflow : Z           (* uint8_t  *)
}.

Record vr_flow_entry := mk_vr_flow_entry {
  fe_stats : vr_flow_stats
}.

(** Modelled from the spec: the declaration of [vr_flow_entry] is not among the
    sources; the external-interface section gives the widths
    [{flow_bytes: u32, flow_packets: u32, flow_bytes_oflow: u16,
      flow_packets_oflow: u8}]. *)
Definition vr_flow_entry_wf (k : vr_flow_entry) : Prop :=
  is_u32 (flow_bytes (fe_stats k)) /\
  is_u32 (flow_packets (fe_stats k)) /\
  is_u16 (flow_bytes_oflow (fe_stats k)) /\
  is_u8 (flow_packets_oflow (fe_stats k)).

Definition FlowEntry_wf (e : FlowEntry) : Prop :=
  is_u64 (bytes (data e)) /\
  is_u64 (packets (data e)) /\
  is_u64 (last_modified_time e).

(** Field updates performed through a [FlowEntry *]. *)
Definition set_bytes (v : Z) (e : FlowEntry) : FlowEntry :=
  let d := data e in
  mkFlowEntry (key e)
    (mkFlowData v (packets d) (reverse_flow d) (ingress d) (source_vn d) (dest_vn d))
    (flow_handle e) (last_modified_time e) (setup_time e) (teardown_time e)
    (nat_ e) (local_flow e) (short_flow e) (flow_uuid e) (egress_uuid e) (intf_in e).

Definition set_packets (v : Z) (e : FlowEntry) : FlowEntry :=
  let d := data e in
  mkFlowEntry (key e)
    (mkFlowData (bytes d) v (reverse_flow d) (ingress d) (source_vn d) (dest_vn d))
    (flow_handle e) (last_modified_time e) (setup_time e) (teardown_time e)
    (nat_ e) (local_flow e) (short_flow e) (flow_uuid e) (egress_uuid e) (intf_in e).

Definition set_last_modified_time (v : Z) (e : FlowEntry) : FlowEntry :=
  mkFlowEntry (key e) (data e) (flow_handle e) v (setup_time e) (teardown_time e)
    (nat_ e) (local_flow e) (short_flow e) (flow_uuid e) (egress_uuid e) (intf_in e).

(** ** Counter composition and wrap-around tracking *)

(** [FlowStatsCollector::GetFlowStats]: the shift is [sizeof(uint32_t) * 8]. *)
Definition GetFlowStats (oflow_data : Z) (data : Z) : Z :=
  let flow_stats := wrap64 (Z.shiftl oflow_data (4 * 8)) in
  Z.lor flow_stats data.

(** [FlowStatsCollector::GetUpdatedFlowBytes]. *)
Definition GetUpdatedFlowBytes (fe : FlowEntry) (k_flow_bytes : Z) : Z :=
  let oflow_bytes := Z.land 0xffff000000000000 (bytes (data fe)) in
  let old_bytes := Z.land 0x0000ffffffffffff (bytes (data fe)) in
  let oflow_bytes :=
    if old_bytes >? k_flow_bytes
    then wrap64 (oflow_bytes + 0x0001000000000000)
    else oflow_bytes in
  Z.lor oflow_bytes k_flow_bytes.

(** [FlowStatsCollector::GetUpdatedFlowPackets]. *)
Definition GetUpdatedFlowPackets (fe : FlowEntry) (k_flow_pkts : Z) : Z :=
  let oflow_pkts := Z.land 0xffffff0000000000 (packets (data fe)) in
  let old_pkts := Z.land 0x000000ffffffffff (packets (data fe)) in
  let oflow_pkts :=
    if old_pkts >? k_flow_pkts
    then wrap64 (oflow_pkts + 0x0000010000000000)
    else oflow_pkts in
  Z.lor oflow_pkts k_flow_pkts.

(** ** The export record *)

(** [FlowDataIpv4]: every field is optional; [None] is "not set". *)
Module FlowDataIpv4.

Record t := mk {
  flowuuid : option string;
  direction_ing : option Z;
  sourcevn : option string;
  sourceip : option Z;
  destvn : option string;
  destip : option Z;
  protocol : option Z;
  sport : option Z;
  dport : option Z;
  vm : option string;
  setup_time : option Z;
  teardown_time : option Z;
  bytes : option Z;
  packets : option Z;
  diff_bytes : option Z;
  diff_packets : option Z;
  reverse_uuid : option string
}.

Definition init : t :=
  mk None None None None None None None None None None None None None None None None None.

Definition set_flowuuid (v : string) (s : t) : t :=
  mk (Some v) (direction_ing s) (sourcevn s) (sourceip s) (destvn s) (destip s)
     (protocol s) (sport s) (dport s) (vm s) (setup_time s) (teardown_time s)
     (bytes s) (packets s) (diff_bytes s) (diff_packets s) (reverse_uuid s).
Definition set_direction_ing (v : Z) (s : t) : t :=
  mk (flowuuid s) (Some v) (sourcevn s) (sourceip s) (destvn s) (destip s)
     (protocol s) (sport s) (dport s) (vm s) (setup_time s) (teardown_time s)
     (bytes s) (packets s) (diff_bytes s) (diff_packets s) (reverse_uuid s).
Definition set_sourcevn (v : string) (s : t) : t :=
  mk (flowuuid s) (direction_ing s) (Some v) (sourceip s) (destvn s) (destip s)
     (protocol s) (sport s) (dport s) (vm s) (setup_time s) (teardown_time s)
     (bytes s) (packets s) (diff_bytes s) (diff_packets s) (reverse_uuid s).
Definition set_sourceip (v : Z) (s : t) : t :=
  mk (flowuuid s) (direction_ing s) (sourcevn s) (Some v) (destvn s) (destip s)
     (protocol s) (sport s) (dport s) (vm s) (setup_time s) (teardown_time s)
     (bytes s) (packets s) (diff_bytes s) (diff_packets s) (reverse_uuid s).
Definition set_destvn (v : string) (s : t) : t :=
  mk (flowuuid s) (direction_ing s) (sourcevn s) (sourceip s) (Some v) (destip s)
     (protocol s) (sport s) (dport s) (vm s) (setup_time s) (teardown_time s)
     (bytes s) (packets s) (diff_bytes s) (diff_packets s) (reverse_uuid s).
Definition set_destip (v : Z) (s : t) : t :=
  mk (flowuuid s) (direction_ing s) (sourcevn s) (sourceip s) (destvn s) (Some v)
     (protocol s) (sport s) (dport s) (vm s) (setup_time s) (teardown_time s)
     (bytes s) (packets s) (diff_bytes s) (diff_packets s) (reverse_uuid s).
Definition set_protocol (v : Z) (s : t) : t :=
  mk (flowuuid s) (direction_ing s) (sourcevn s) (sourceip s) (destvn s) (destip s)
     (Some v) (sport s) (dport s) (vm s) (setup_time s) (teardown_time s)
     (bytes s) (packets s) (diff_bytes s) (diff_packets s) (reverse_uuid s).
Definition set_sport (v : Z) (s : t) : t :=
  mk (flowuuid s) (direction_ing s) (sourcevn s) (sourceip s) (destvn s) (destip s)
     (protocol s) (Some v) (dport s) (vm s) (setup_time s) (teardown_time s)
     (bytes s) (packets s) (diff_bytes s) (diff_packets s) (reverse_uuid s).
Definition set_dport (v : Z) (s : t) : t :=
  mk (flowuuid s) (direction_ing s) (sourcevn s) (sourceip s) (destvn s) (destip s)
     (protocol s) (sport s) (Some v) (vm s) (setup_time s) (teardown_time s)
     (bytes s) (packets s) (diff_bytes s) (diff_packets s) (reverse_uuid s).
Definition set_vm (v : string) (s : t) : t :=
  mk (flowuuid s) (direction_ing s) (sourcevn s) (sourceip s) (destvn s) (destip s)
     (protocol s) (sport s) (dport s) (Some v) (setup_time s) (teardown_time s)
     (bytes s) (packets s) (diff_bytes s) (diff_packets s) (reverse_uuid s).
Definition set_setup_time (v : Z) (s : t) : t :=
  mk (flowuuid s) (direction_ing s) (sourcevn s) (sourceip s) (destvn s) (destip s)
     (protocol s) (sport s) (dport s) (vm s) (Some v) (teardown_time s)
     (bytes s) (packets s) (diff_bytes s) (diff_packets s) (reverse_uuid s).
Definition set_teardown_time (v : Z) (s : t) : t :=
  mk (flowuuid s) (direction_ing s) (sourcevn s) (sourceip s) (destvn s) (destip s)
     (protocol s) (sport s) (dport s) (vm s) (setup_time s) (Some v)
     (bytes s) (packets s) (diff_bytes s) (diff_packets s) (reverse_uuid s).
Definition set_bytes (v : Z) (s : t) : t :=
  mk (flowuuid s) (direction_ing s) (sourcevn s) (sourceip s) (destvn s) (destip s)
     (protocol s) (sport s) (dport s) (vm s) (setup_time s) (teardown_time s)
     (Some v) (packets s) (diff_bytes s) (diff_packets s) (reverse_uuid s).
Definition set_packets (v : Z) (s : t) : t :=
  mk (flowuuid s) (direction_ing s) (sourcevn s) (sourceip s) (destvn s) (destip s)
     (protocol s) (sport s) (dport s) (vm s) (setup_time s) (teardown_time s)
     (bytes s) (Some v) (diff_bytes s) (diff_packets s) (reverse_uuid s).
Definition set_diff_bytes (v : Z) (s : t) : t :=
  mk (flowuuid s) (direction_ing s) (sourcevn s) (sourceip s) (destvn s) (destip s)
     (protocol s) (sport s) (dport s) (vm s) (setup_time s) (teardown_time s)
     (bytes s) (packets s) (Some v) (diff_packets s) (reverse_uuid s).
Definition set_diff_packets (v : Z) (s : t) : t :=
  mk (flowuuid s) (direction_ing s) (sourcevn s) (sourceip s) (destvn s) (destip s)
     (protocol s) (sport s) (dport s) (vm s) (setup_time s) (teardown_time s)
     (bytes s) (packets s) (diff_bytes s) (Some v) (reverse_uuid s).
Definition set_reverse_uuid (v : string) (s : t) : t :=
  mk (flowuuid s) (direction_ing s) (sourcevn s) (sourceip s) (destvn s) (destip s)
     (protocol s) (sport s) (dport s) (vm s) (setup_time s) (teardown_time s)
     (bytes s) (packets s) (diff_bytes s) (diff_packets s) (Some v).

(** The getter of an unset integer field yields [0]. *)
Definition get_direction_ing (s : t) : Z := default 0 (direction_ing s).

End FlowDataIpv4.

(** ** External collaborators *)

(** Modelled from the spec: [Interface], [VmPortInterface] and [VmEntry]
    (oper/interface.h) are not among the sources; the export record carries the
    "bound VM name (resolved via interface lookup)", so an interface is its
    type and, for a VM port, the VM it is bound to. *)
Inductive InterfaceType := VMPORT | ETH | VIRTUAL_HOST | HOST.

Record VmEntry := mkVmEntry { GetCfgName : string }.

Record Interface := mkInterface {
  GetType : InterfaceType;
  GetVmEntry : option VmEntry
}.

(** What one pass reads from its surroundings: the clock, the kernel flow table
    (read-only for the collector), the interface table, the rendering of UUIDs,
    and the constant [Interface::kInvalidIndex]. *)
Record Env := mkEnv {
  UTCTimestampUsec : Z;
  GetKernelFlowEntry : Z -> option vr_flow_entry;
  FindInterface : Z -> option Interface;
  to_string : uuid -> string;
  kInvalidIndex : Z
}.

(** The heap of [FlowEntry] objects: a live pointer always designates one. *)
Definition Heap := addr -> FlowEntry.

Definition heap_update (a : addr) (e : FlowEntry) (h : Heap) : Heap :=
  fun a' => if Nat.eqb a' a then e else h a'.

(** ** Export *)

(** [FlowStatsCollector::SourceIpOverride]. *)
Definition SourceIpOverride (h : Heap) (flow : FlowEntry) (s_flow : FlowDataIpv4.t)
  : FlowDataIpv4.t :=
  let rev_flow := reverse_flow (data flow) in
  if nat_ flow && negb (FlowDataIpv4.get_direction_ing s_flow =? 0)
  then
    match rev_flow with
    | Some r =>
        let nat_key := key (h r) in
        if negb (src (key flow) =? dst nat_key)
        then FlowDataIpv4.set_sourceip (dst nat_key) s_flow
        else s_flow
    | None => s_flow
    end
  else s_flow.

(** [FlowStatsCollector::FlowExport]; the result lists the records handed to
    [FLOW_DATA_IPV4_OBJECT_SEND], in order. *)
Definition FlowExport (env : Env) (h : Heap) (flow : FlowEntry)
    (diff_bytes diff_pkts : Z) : list FlowDataIpv4.t :=
  let s_flow := FlowDataIpv4.init in
  let s_flow := FlowDataIpv4.set_flowuuid (to_string env (flow_uuid flow)) s_flow in
  let s_flow := FlowDataIpv4.set_bytes (bytes (data flow)) s_flow in
  let s_flow := FlowDataIpv4.set_packets (packets (data flow)) s_flow in
  let s_flow := FlowDataIpv4.set_diff_bytes diff_bytes s_flow in
  let s_flow := FlowDataIpv4.set_diff_packets diff_pkts s_flow in
  let s_flow := FlowDataIpv4.set_sourceip (src (key flow)) s_flow in
  let s_flow := FlowDataIpv4.set_destip (dst (key flow)) s_flow in
  let s_flow := FlowDataIpv4.set_protocol (protocol (key flow)) s_flow in
  let s_flow := FlowDataIpv4.set_sport (src_port (key flow)) s_flow in
  let s_flow := FlowDataIpv4.set_dport (dst_port (key flow)) s_flow in
  let s_flow := FlowDataIpv4.set_sourcevn (source_vn (data flow)) s_flow in
  let s_flow := FlowDataIpv4.set_destvn (dest_vn (data flow)) s_flow in
  let s_flow :=
    if negb (intf_in flow =? kInvalidIndex env) then
      match FindInterface env (intf_in flow) with
      | Some intf =>
          match GetType intf, GetVmEntry intf with
          | VMPORT, Some vm => FlowDataIpv4.set_vm (GetCfgName vm) s_flow
          | _, _ => s_flow
          end
      | None => s_flow
      end
    else s_flow in
  let s_flow :=
    match reverse_flow (data flow) with
    | Some r => FlowDataIpv4.set_reverse_uuid (to_string env (flow_uuid (h r))) s_flow
    | None => s_flow
    end in
  let s_flow := FlowDataIpv4.set_setup_time (setup_time flow) s_flow in
  let s_flow :=
    if negb (teardown_time flow =? 0)
    then FlowDataIpv4.set_teardown_time (teardown_time flow) s_flow
    else s_flow in
  if local_flow flow then
    let s_flow := FlowDataIpv4.set_direction_ing 1 s_flow in
    let s_flow := SourceIpOverride h flow s_flow in
    let sent1 := s_flow in
    let s_flow := FlowDataIpv4.set_direction_ing 0 s_flow in
    let s_flow := FlowDataIpv4.set_flowuuid (to_string env (egress_uuid flow)) s_flow in
    [sent1; s_flow]
  else
    let s_flow :=
      if ingress (data flow) then
        let s_flow := FlowDataIpv4.set_direction_ing 1 s_flow in
        SourceIpOverride h flow s_flow
      else FlowDataIpv4.set_direction_ing 0 s_flow in
    [s_flow].

(** ** The collector and the flow table *)

(** [FlowStatsCollector] (with the members it inherits from [StatsCollector]). *)
Record FlowStatsCollector := mkFlowStatsCollector {
  run_counter_ : Z;
  flow_iteration_key_ : FlowKey;
  flow_count_per_pass_ : Z;        (* uint32_t *)
  flow_age_time_intvl_ : Z;        (* microseconds *)
  flow_multiplier_ : Z;            (* uint32_t *)
  flow_default_interval_ : Z;      (* uint32_t *)
  expiry_time_ : Z
}.

(** The accessor [GetFlowAgeTime] (uve/flow_stats.h). *)
Definition GetFlowAgeTime (c : FlowStatsCollector) : Z := flow_age_time_intvl_ c.

Definition set_run_counter_ (v : Z) (c : FlowStatsCollector) : FlowStatsCollector :=
  mkFlowStatsCollector v (flow_iteration_key_ c) (flow_count_per_pass_ c)
    (flow_age_time_intvl_ c) (flow_multiplier_ c) (flow_default_interval_ c)
    (expiry_time_ c).
Definition set_flow_iteration_key_ (v : FlowKey) (c : FlowStatsCollector)
  : FlowStatsCollector :=
  mkFlowStatsCollector (run_counter_ c) v (flow_count_per_pass_ c)
    (flow_age_time_intvl_ c) (flow_multiplier_ c) (flow_default_interval_ c)
    (expiry_time_ c).
Definition set_flow_count_per_pass_ (v : Z) (c : FlowStatsCollector)
  : FlowStatsCollector :=
  mkFlowStatsCollector (run_counter_ c) (flow_iteration_key_ c) v
    (flow_age_time_intvl_ c) (flow_multiplier_ c) (flow_default_interval_ c)
    (expiry_time_ c).
Definition SetExpiryTime (v : Z) (c : FlowStatsCollector) : FlowStatsCollector :=
  mkFlowStatsCollector (run_counter_ c) (flow_iteration_key_ c)
    (flow_count_per_pass_ c) (flow_age_time_intvl_ c) (flow_multiplier_ c)
    (flow_default_interval_ c) v.

(** [FlowStatsCollector::ShouldBeAged]. *)
Definition ShouldBeAged (c : FlowStatsCollector) (entry : FlowEntry)
    (k_flow : option vr_flow_entry) (curr_time : Z) : bool :=
  if match k_flow with
     | Some k =>
         (bytes (data entry) <? flow_bytes (fe_stats k))
         && (packets (data entry) <? flow_packets (fe_stats k))
     | None => false
     end
  then false
  else
    let diff_time := wrap64 (curr_time - last_modified_time entry) in
    if diff_time <? GetFlowAgeTime c then false else true.

(** Equality and order of keys. *)
Definition FlowKey_eqb (a b : FlowKey) : bool :=
  (src a =? src b) && (dst a =? dst b) && (protocol a =? protocol b)
  && (src_port a =? src_port b) && (dst_port a =? dst_port b).

(** Modelled from the spec: the comparator of [FlowEntryMap] is declared in
    pkt_flow.h, which is not among the sources; the data model asks for a total
    order on the key [(src_ip, dst_ip, proto, src_port, dst_port)], taken here
    to be the lexicographic one. *)
Definition FlowKey_ltb (a b : FlowKey) : bool :=
  if negb (src a =? src b) then src a <? src b
  else if negb (dst a =? dst b) then dst a <? dst b
  else if negb (protocol a =? protocol b) then protocol a <? protocol b
  else if negb (src_port a =? src_port b) then src_port a <? src_port b
  else dst_port a <? dst_port b.

(** Modelled from the spec: [FlowKey::Reset] (pkt_flow.h) clears the key. *)
Definition FlowKey_Reset : FlowKey := mkFlowKey 0 0 0 0 0.

(** [FlowTable::FlowEntryMap] is [std::map<FlowKey, FlowEntry *>]: the nodes in
    ascending key order.  An iterator is the key of the node it designates,
    [None] for [end()]; erasing other nodes leaves it valid. *)
Definition FlowEntryMap := list (FlowKey * addr).
Definition iterator := option FlowKey.

Definition map_find (k : FlowKey) (m : FlowEntryMap) : option addr :=
  snd <$> List.find (fun p => FlowKey_eqb (fst p) k) m.

Definition map_begin (m : FlowEntryMap) : iterator := fst <$> head m.

Definition upper_bound (k : FlowKey) (m : FlowEntryMap) : iterator :=
  fst <$> List.find (fun p => FlowKey_ltb k (fst p)) m.

(** [it++] on a valid iterator. *)
Definition map_next (k : FlowKey) (m : FlowEntryMap) : iterator := upper_bound k m.

Definition map_erase (k : FlowKey) (m : FlowEntryMap) : FlowEntryMap :=
  List.filter (fun p => negb (FlowKey_eqb (fst p) k)) m.

Definition map_erase_entry (a : addr) (m : FlowEntryMap) : FlowEntryMap :=
  List.filter (fun p => negb (Nat.eqb (snd p) a)) m.

Fixpoint map_sorted (m : FlowEntryMap) : Prop :=
  match m with
  | [] => True
  | p :: m' =>
      match m' with
      | [] => True
      | q :: _ => FlowKey_ltb (fst p) (fst q) = true
      end /\ map_sorted m'
  end.

Record FlowTable := mkFlowTable {
  heap : Heap;
  flow_entry_map_ : FlowEntryMap
}.

Definition Size (t : FlowTable) : Z := Z.of_nat (length (flow_entry_map_ t)).

(** Modelled from the spec: [FlowTable::DeleteRevFlow] lives in pkt/flowtable.cc,
    which is not among the sources.  Following "delete both (as one action)",
    [DeleteRevFlow key rev] removes the flow stored under [key] from the flow
    map and, when [rev] is set, removes its reverse flow as well; with [rev]
    clear only the flow itself goes.  The objects stay in the heap for as long
    as a partner still points at them.  This is the effect on the flow table
    only: the records the flow table exports for a flow it deletes are sent by
    code that is not among the sources, and are not modelled. *)
Definition DeleteRevFlow (key : FlowKey) (rev_flow : bool) (t : FlowTable) : FlowTable :=
  match map_find key (flow_entry_map_ t) with
  | None => t
  | Some a =>
      let m := map_erase key (flow_entry_map_ t) in
      match rev_flow, reverse_flow (data (heap t a)) with
      | true, Some r => mkFlowTable (heap t) (map_erase_entry r m)
      | _, _ => mkFlowTable (heap t) m
      end
  end.

(** Modelled from the spec: [InterVnStatsCollector::UpdateVnStats]
    (uve/inter_vn_stats.cc) is not among the sources; the aggregator is updated
    "with [(src_vn, dst_vn, diff_bytes, diff_pkts)]", and one such update is
    recorded per call. *)
Record VnStatsUpdate := mkVnStatsUpdate {
  upd_src_vn : string;
  upd_dst_vn : string;
  upd_diff_bytes : Z;
  upd_diff_pkts : Z
}.

(** Everything a pass reads and writes. *)
Record World := mkWorld {
  flow_obj : FlowTable;
  collector : FlowStatsCollector;
  sent : list FlowDataIpv4.t;        (* records of the FlowExport calls of Run *)
  vn_stats : list VnStatsUpdate      (* calls of UpdateVnStats *)
}.

Definition set_flow_obj (t : FlowTable) (w : World) : World :=
  mkWorld t (collector w) (sent w) (vn_stats w).
Definition set_collector (c : FlowStatsCollector) (w : World) : World :=
  mkWorld (flow_obj w) c (sent w) (vn_stats w).

(** ** [FlowStatsCollector::Run] *)

(** The kernel counters as [Run] composes them before reconciling. *)
Definition kernel_bytes (k : vr_flow_entry) : Z :=
  GetFlowStats (flow_bytes_oflow (fe_stats k)) (flow_bytes (fe_stats k)).
Definition kernel_pkts (k : vr_flow_entry) : Z :=
  GetFlowStats (flow_packets_oflow (fe_stats k)) (flow_packets (fe_stats k)).

(** The stats block of the loop body, entered when the flow was not deleted and
    its kernel record [k_flow] is present. *)
Definition Run_reconcile (env : Env) (curr_time : Z) (a : addr)
    (k_flow : vr_flow_entry) (w : World) : World :=
  let entry := heap (flow_obj w) a in
  if negb (bytes (data entry) =? flow_bytes (fe_stats k_flow)) then
    let flow_bytes := kernel_bytes k_flow in
    let flow_packets := kernel_pkts k_flow in
    let flow_bytes := GetUpdatedFlowBytes entry flow_bytes in
    let flow_packets := GetUpdatedFlowPackets entry flow_packets in
    let diff_bytes := wrap64 (flow_bytes - bytes (data entry)) in
    let diff_pkts := wrap64 (flow_packets - packets (data entry)) in
    let upd := mkVnStatsUpdate (source_vn (data entry)) (dest_vn (data entry))
                 diff_bytes diff_pkts in
    let entry' :=
      set_last_modified_time curr_time
        (set_packets flow_packets (set_bytes flow_bytes entry)) in
    let h' := heap_update a entry' (heap (flow_obj w)) in
    mkWorld (mkFlowTable h' (flow_entry_map_ (flow_obj w)))
            (collector w)
            (sent w ++ FlowExport env h' entry' diff_bytes diff_pkts)
            (vn_stats w ++ [upd])
  else w.

(** The aging decision at the head of the loop body: the value of [deleted]
    and of [reverse_flow] (which the source leaves unassigned, and does not
    read, when the flow itself is not aged). *)
Definition Run_aged (env : Env) (curr_time : Z) (w : World) (entry : FlowEntry)
    (k_flow : option vr_flow_entry) : bool * option addr :=
  if ShouldBeAged (collector w) entry k_flow curr_time then
    let reverse_flow := reverse_flow (data entry) in
    match reverse_flow with
    | Some r =>
        let k_flow_rev := GetKernelFlowEntry env (flow_handle (heap (flow_obj w) r)) in
        (ShouldBeAged (collector w) (heap (flow_obj w) r) k_flow_rev curr_time,
         reverse_flow)
    | None => (true, reverse_flow)
    end
  else (false, None).

(** One turn of the [while] loop for the entry at address [a]; [it] has already
    been advanced.  The last component tells whether the loop was left by
    [break]. *)
Definition Run_visit (env : Env) (curr_time : Z) (a : addr) (it : iterator)
    (count : Z) (w : World) : World * iterator * Z * bool :=
  let entry := heap (flow_obj w) a in
  let w := set_collector (set_flow_iteration_key_ (key entry) (collector w)) w in
  let k_flow := GetKernelFlowEntry env (flow_handle entry) in
  let '(deleted, reverse_flow) := Run_aged env curr_time w entry k_flow in
  if deleted then
    let m := flow_entry_map_ (flow_obj w) in
    let it :=
      match it with
      | Some k' =>
          match map_find k' m, reverse_flow with
          | Some a', Some r => if Nat.eqb a' r then map_next k' m else it
          | _, _ => it
          end
      | None => it
      end in
    let w := set_flow_obj
               (DeleteRevFlow (key entry)
                  (if reverse_flow is Some _ then true else false)
                  (flow_obj w)) w in
    match reverse_flow with
    | Some _ =>
        let count := wrap32 (count + 1) in
        if count =? flow_count_per_pass_ (collector w) then (w, it, count, true)
        else
          let count := wrap32 (count + 1) in
          (w, it, count, count =? flow_count_per_pass_ (collector w))
    | None =>
        let count := wrap32 (count + 1) in
        (w, it, count, count =? flow_count_per_pass_ (collector w))
    end
  else
    let w :=
      match k_flow with
      | Some k => Run_reconcile env curr_time a k w
      | None => w
      end in
    let entry := heap (flow_obj w) a in
    let w :=
      if ShortFlow entry
      then set_flow_obj (DeleteRevFlow (key entry) false (flow_obj w)) w
      else w in
    let count := wrap32 (count + 1) in
    (w, it, count, count =? flow_count_per_pass_ (collector w)).

(** The [while] loop.  [None] stands for the two ways the model can fail to
    produce a state: the iterator designates an erased node (undefined in
    C++), or [fuel] is exhausted. *)
Fixpoint Run_loop (fuel : nat) (env : Env) (curr_time : Z) (it : iterator)
    (count : Z) (w : World) : option (World * iterator * Z) :=
  match it with
  | None => Some (w, it, count)
  | Some k =>
      match fuel with
      | O => None
      | S fuel' =>
          let m := flow_entry_map_ (flow_obj w) in
          match map_find k m with
          | None => None
          | Some a =>
              let it := map_next k m in
              let '(w', it', count', brk) := Run_visit env curr_time a it count w in
              if brk then Some (w', it', count')
              else Run_loop fuel' env curr_time it' count' w'
          end
      end
  end.

(** The tail of [Run]: iteration-key reset and adaptive pacing. *)
Definition Run_finish (it : iterator) (count : Z) (w : World) : World :=
  let c := collector w in
  let key_updation_reqd :=
    if count =? flow_count_per_pass_ c
    then (if it is Some _ then false else true)
    else true in
  let c := if key_updation_reqd then set_flow_iteration_key_ FlowKey_Reset c else c in
  let total_flows := wrap32 (Size (flow_obj w)) in
  let age_time_millisec := wrap32 (GetFlowAgeTime c / 1000) in
  let flow_timer_interval :=
    if total_flows >? 0
    then Z.min (wrap32 (age_time_millisec * flow_multiplier_ c) / total_flows) 1000
    else flow_default_interval_ c in
  let c :=
    if age_time_millisec >? 0
    then set_flow_count_per_pass_
           (Z.max (wrap32 (flow_timer_interval * total_flows) / age_time_millisec) 100) c
    else set_flow_count_per_pass_ 100 c in
  set_collector (SetExpiryTime flow_timer_interval c) w.

(** [FlowStatsCollector::Run]: one aging pass. *)
Definition Run (env : Env) (w : World) : option World :=
  let w := set_collector (set_run_counter_ (run_counter_ (collector w) + 1)
                            (collector w)) w in
  if Size (flow_obj w) =? 0 then Some w
  else
    let curr_time := UTCTimestampUsec env in
    let m := flow_entry_map_ (flow_obj w) in
    let it := upper_bound (flow_iteration_key_ (collector w)) m in
    let it := if it is Some _ then it else map_begin m in
    match Run_loop (S (length m)) env curr_time it 0 w with
    | Some (w', it', count) => Some (Run_finish it' count w')
    | None => None
    end.

(** The flows of the table: those reachable through the flow map. *)
Definition in_table (a : addr) (t : FlowTable) : Prop :=
  exists k, (k, a) ∈ flow_entry_map_ t.

(** What the rest of the agent maintains about the flow table: one node per
    key, and each node stored under the key of the flow it holds. *)
Definition FlowTable_wf (t : FlowTable) : Prop :=
  NoDup (fst <$> flow_entry_map_ t) /\
  forall k a, (k, a) ∈ flow_entry_map_ t -> key (heap t a) = k.

End Flow.

(** ** Task policy *)

Module TaskPolicy.

Local Open Scope nat_scope.

(** [TaskExclusion(task_id)]: excludes every instance of the task class. *)
Record TaskExclusion := mkTaskExclusion { match_id : nat }.

Abbreviation TaskPolicy := (list TaskExclusion).

(** Modelled from the spec: [TaskScheduler] (base/task.cc) is not among the
    sources.  A task class is "identifier string -> small integer id" with an
    associated exclusion set: [GetTaskId] returns the id registered for a name,
    allotting the next free id to a name it has not seen, and [SetPolicy]
    records the exclusion policy of a class. *)
Record TaskScheduler := mkTaskScheduler {
  id_map_ : gmap string nat;
  id_max_ : nat;
  policy_ : gmap nat TaskPolicy
}.

Definition GetTaskId (name : string) (s : TaskScheduler) : nat * TaskScheduler :=
  match id_map_ s !! name with
  | Some id => (id, s)
  | None =>
      (id_max_ s,
       mkTaskScheduler (<[name := id_max_ s]> (id_map_ s)) (S (id_max_ s)) (policy_ s))
  end.

Definition SetPolicy (task_id : nat) (policy : TaskPolicy) (s : TaskScheduler)
  : TaskScheduler :=
  mkTaskScheduler (id_map_ s) (id_max_ s) (<[task_id := policy]> (policy_ s)).

(** The [for] loop of [SetTaskPolicyOne]: one [GetTaskId] and one [push_back]
    per excluded name. *)
Fixpoint build_policy (exclude_list : list string) (policy : TaskPolicy)
    (s : TaskScheduler) : TaskPolicy * TaskScheduler :=
  match exclude_list with
  | [] => (policy, s)
  | name :: rest =>
      let '(task_id, s) := GetTaskId name s in
      build_policy rest (policy ++ [mkTaskExclusion task_id]) s
  end.

(** [SetTaskPolicyOne]. *)
Definition SetTaskPolicyOne (task : string) (exclude_list : list string)
    (s : TaskScheduler) : TaskScheduler :=
  let '(policy, s) := build_policy exclude_list [] s in
  let '(task_id, s) := GetTaskId task s in
  SetPolicy task_id policy s.

Definition db_exclude_list : list string :=
  ["Agent::FlowHandler"; "Agent::Services"; "Agent::StatsCollector";
   "sandesh::RecvQueue"; "io::ReaderTask"; "Agent::Uve"; "Agent::KSync"]%string.

Definition flow_exclude_list : list string :=
  ["Agent::StatsCollector"; "io::ReaderTask"]%string.

Definition sandesh_exclude_list : list string :=
  ["db::DBTable"; "Agent::FlowHandler"; "Agent::Services";
   "Agent::StatsCollector"; "io::ReaderTask"]%string.

Definition xmpp_config_exclude_list : list string :=
  ["Agent::FlowHandler"; "Agent::Services"; "Agent::StatsCollector";
   "sandesh::RecvQueue"; "io::ReaderTask"; "xmpp::StateMachine"; "db::DBTable"]%string.

Definition xmpp_state_machine_exclude_list : list string :=
  ["io::ReaderTask"; "db::DBTable"]%string.

Definition ksync_exclude_list : list string :=
  ["Agent::FlowHandler"; "Agent::StatsCollector"; "db::DBTable"]%string.

(** [Agent::SetAgentTaskPolicy]. *)
Definition SetAgentTaskPolicy (s : TaskScheduler) : TaskScheduler :=
  let s := SetTaskPolicyOne "db::DBTable" db_exclude_list s in
  let s := SetTaskPolicyOne "Agent::FlowHandler" flow_exclude_list s in
  let s := SetTaskPolicyOne "sandesh::RecvQueue" sandesh_exclude_list s in
  let s := SetTaskPolicyOne "bgp::Config" xmpp_config_exclude_list s in
  let s := SetTaskPolicyOne "xmpp::StateMachine" xmpp_state_machine_exclude_list s in
  SetTaskPolicyOne "Agent::KSync" ksync_exclude_list s.

(** A scheduler as it can arise: ids are below [id_max_] and no two names share
    one. *)
Definition TaskScheduler_wf (s : TaskScheduler) : Prop :=
  (forall name id, id_map_ s !! name = Some id -> id < id_max_ s) /\
  (forall n1 n2 id, id_map_ s !! n1 = Some id -> id_map_ s !! n2 = Some id -> n1 = n2).

Definition scheduler_init : TaskScheduler := mkTaskScheduler ∅ 0 ∅.

(** The policy table as the spec words it, with the class names in full. *)
Definition spec_policy_table : list (string * list string) :=
  [("db::DBTable",
      ["Agent::FlowHandler"; "Agent::Services"; "Agent::StatsCollector";
       "sandesh::RecvQueue"; "io::ReaderTask"; "Agent::Uve"; "Agent::KSync"]);
   ("Agent::FlowHandler", ["Agent::StatsCollector"; "io::ReaderTask"]);
   ("sandesh::RecvQueue",
      ["db::DBTable"; "Agent::FlowHandler"; "Agent::Services";
       "Agent::StatsCollector"; "io::ReaderTask"]);
   ("bgp::Config",
      ["Agent::FlowHandler"; "Agent::Services"; "Agent::StatsCollector";
       "sandesh::RecvQueue"; "io::ReaderTask"; "xmpp::StateMachine"; "db::DBTable"]);
   ("xmpp::StateMachine", ["io::ReaderTask"; "db::DBTable"]);
   ("Agent::KSync", ["Agent::FlowHandler"; "Agent::StatsCollector"; "db::DBTable"])]%string.

(** Class [task] has a policy installed that lists exactly the classes named
    [excl], in that order. *)
Definition installed (s : TaskScheduler) (task : string) (excl : list string) : Prop :=
  exists id ids,
    id_map_ s !! task = Some id /\
    Forall2 (fun name i => id_map_ s !! name = Some i) excl ids /\
    policy_ s !! id = Some (mkTaskExclusion <$> ids).

End TaskPolicy.

(** ** VRF entries: delete timer, pending-delete gate, lifetime actor *)

Module Vrf.

Inductive RouteTableType := INET4_UNICAST | INET4_MULTICAST | LAYER2.

(** A route table of a VRF, as far as the VRF code looks at it. *)
Record AgentRouteTable := mkAgentRouteTable { rt_Size : Z }.

(** Modelled from the spec: [Timer] (base/timer.cc) is not among the sources.
    A timer is bounded: once started it is due after [timeout]; when it comes
    due while still running its handler is called; [Cancel] stops it. *)
Record Timer := mkTimer {
  timer_name : string;
  timer_running : option Z          (* [Some timeout] from Start until Cancel or expiry *)
}.

Definition CreateTimer (name : string) : Timer := mkTimer name None.
Definition Timer_Start (time : Z) (t : Timer) : Timer := mkTimer (timer_name t) (Some time).
Definition Timer_Cancel (t : Timer) : Timer := mkTimer (timer_name t) None.

(** The [LifetimeActor] part of [VrfEntry::DeleteActor]. *)
Record DeleteActor := mkDeleteActor {
  delete_pending : bool             (* set by LifetimeActor::Delete *)
}.

(** [VrfEntry], with the [DBEntry] state it inherits ([IsDeleted], the
    reference count). *)
Record VrfEntry := mkVrfEntry {
  name_ : string;
  id_ : Z;
  deleter_ : DeleteActor;
  rt_table_db_ : RouteTableType -> AgentRouteTable;
  delete_timeout_timer_ : option Timer;      (* NULL until StartDeleteTimer *)
  IsDeleted : bool;
  GetRefCount : Z
}.

Definition GetName (vrf : VrfEntry) : string := name_ vrf.

Definition set_deleter_ (d : DeleteActor) (vrf : VrfEntry) : VrfEntry :=
  mkVrfEntry (name_ vrf) (id_ vrf) d (rt_table_db_ vrf) (delete_timeout_timer_ vrf)
    (IsDeleted vrf) (GetRefCount vrf).
Definition set_delete_timeout_timer_ (t : option Timer) (vrf : VrfEntry) : VrfEntry :=
  mkVrfEntry (name_ vrf) (id_ vrf) (deleter_ vrf) (rt_table_db_ vrf) t
    (IsDeleted vrf) (GetRefCount vrf).
Definition set_IsDeleted (b : bool) (vrf : VrfEntry) : VrfEntry :=
  mkVrfEntry (name_ vrf) (id_ vrf) (deleter_ vrf) (rt_table_db_ vrf)
    (delete_timeout_timer_ vrf) b (GetRefCount vrf).

Inductive AgentLogEvent := ADD | DELETE | CHANGE | DELETE_TRIGGER | OTHER_EVENT.

Record VrfObjectLogInfo := mkVrfObjectLogInfo {
  log_event : string;
  log_name : string;
  log_index : Z
}.

(** What the process shows to the outside: trace lines, object logs, and
    whether it has aborted. *)
Record Process := mkProcess {
  oper_trace : list (string * string);
  object_log : list VrfObjectLogInfo;
  aborted : bool
}.

Definition OPER_TRACE (msg name : string) (p : Process) : Process :=
  mkProcess (oper_trace p ++ [(msg, name)]) (object_log p) (aborted p).
Definition abort (p : Process) : Process :=
  mkProcess (oper_trace p) (object_log p) true.

(** [VrfEntry::DeleteActor::MayDelete]; [table_] is the entry the actor
    belongs to. *)
Definition MayDelete (table_ : VrfEntry) : bool :=
  (* No route entry present, then this VRF can be deleted *)
  true.

(** [VrfEntry::SendObjectLog]. *)
Definition SendObjectLog (event : AgentLogEvent) (vrf : VrfEntry) (p : Process) : Process :=
  let str :=
    match event with
    | ADD => "Addition "
    | DELETE => "Deletion "
    | CHANGE => "Modification "
    | DELETE_TRIGGER => "Deletion Triggered "
    | OTHER_EVENT => ""
    end%string in
  mkProcess (oper_trace p)
    (object_log p ++ [mkVrfObjectLogInfo str (name_ vrf) (id_ vrf)])
    (aborted p).

(** [DeleteActor::Shutdown] and [DeleteActor::Destroy]. *)
Definition Shutdown (vrf : VrfEntry) (p : Process) : Process := p.
Definition Destroy (table_ : VrfEntry) (p : Process) : Process :=
  SendObjectLog DELETE table_ p.

(** The text [DeleteTimeout] assembles. *)
Definition DeleteTimeout_str (vrf : VrfEntry) : string :=
  ("Unicast routes: " +:+ pretty (rt_Size (rt_table_db_ vrf INET4_UNICAST))
   +:+ " Mutlicast routes: " +:+ pretty (rt_Size (rt_table_db_ vrf INET4_MULTICAST))
   +:+ " Layer2 routes: " +:+ pretty (rt_Size (rt_table_db_ vrf LAYER2))
   +:+ " Reference: " +:+ pretty (GetRefCount vrf))%string.

(** [VrfEntry::DeleteTimeout]: [assert(0)] ends the process. *)
Definition DeleteTimeout (vrf : VrfEntry) (p : Process) : Process :=
  let p := OPER_TRACE ("VRF delete failed, " +:+ DeleteTimeout_str vrf) (name_ vrf) p in
  abort p.

Section WithConstants.

(** The constant [VrfEntry::kDeleteTimeout] is declared in vrf.h. *)
Variable kDeleteTimeout : Z.

(** [VrfEntry::StartDeleteTimer]. *)
Definition StartDeleteTimer (vrf : VrfEntry) : VrfEntry :=
  set_delete_timeout_timer_
    (Some (Timer_Start kDeleteTimeout (CreateTimer "VrfDeleteTimer"))) vrf.

(** [VrfEntry::CancelDeleteTimer]; calling it with no timer created is a null
    dereference, which ends the process. *)
Definition CancelDeleteTimer (vrf : VrfEntry) (p : Process) : VrfEntry * Process :=
  match delete_timeout_timer_ vrf with
  | Some t => (set_delete_timeout_timer_ (Some (Timer_Cancel t)) vrf, p)
  | None => (vrf, abort p)
  end.

(** Modelled from the spec: [LifetimeActor::Delete] (base/lifetime.cc) "marks it
    pending". *)
Definition LifetimeActor_Delete (d : DeleteActor) : DeleteActor := mkDeleteActor true.

(** [VrfTable::Delete]. *)
Definition VrfTable_Delete (vrf : VrfEntry) (p : Process) : VrfEntry * Process :=
  let vrf := set_deleter_ (LifetimeActor_Delete (deleter_ vrf)) vrf in
  let vrf := StartDeleteTimer vrf in
  (vrf, SendObjectLog DELETE_TRIGGER vrf p).

(** The tables [VrfTable] keeps beside its entries. *)
Record VrfTable := mkVrfTable {
  entries : gmap string VrfEntry;          (* the partition: live and pending-delete entries *)
  name_tree_ : gset string;
  dbtree_ : RouteTableType -> gset string;
  db_tables : RouteTableType -> gset string  (* route tables registered with the DB *)
}.

Definition erase_at (tt : RouteTableType) (name : string)
    (f : RouteTableType -> gset string) : RouteTableType -> gset string :=
  fun tt' =>
    match tt, tt' with
    | INET4_UNICAST, INET4_UNICAST
    | INET4_MULTICAST, INET4_MULTICAST
    | LAYER2, LAYER2 => f tt' ∖ {[name]}
    | _, _ => f tt'
    end.

(** [VrfTable::OnZeroRefcount]. *)
Definition OnZeroRefcount (vrf : VrfEntry) (t : VrfTable) (p : Process)
  : VrfEntry * VrfTable * Process :=
  if IsDeleted vrf then
    let step tt t :=
      mkVrfTable (entries t) (name_tree_ t)
        (erase_at tt (GetName vrf) (dbtree_ t))
        (erase_at tt (GetName vrf) (db_tables t)) in
    let t := step LAYER2 (step INET4_MULTICAST (step INET4_UNICAST t)) in
    let t := mkVrfTable (entries t) (name_tree_ t ∖ {[GetName vrf]})
               (dbtree_ t) (db_tables t) in
    let '(vrf, p) := CancelDeleteTimer vrf p in
    (vrf, t, p)
  else (vrf, t, p).

(** What can happen to an entry after [Delete]: its timer comes due, or its
    last reference goes away. *)
Inductive event := TimerDue | ZeroRefcount.

(** The timer calls its handler only while running; [DeleteTimeout] returns
    [false], so the timer is not started again. *)
Definition handle (ev : event) (st : VrfEntry * VrfTable * Process)
  : VrfEntry * VrfTable * Process :=
  let '(vrf, t, p) := st in
  if aborted p then st
  else
    match ev with
    | TimerDue =>
        match delete_timeout_timer_ vrf with
        | Some tm =>
            match timer_running tm with
            | Some _ =>
                (set_delete_timeout_timer_ (Some (Timer_Cancel tm)) vrf, t,
                 DeleteTimeout vrf p)
            | None => st
            end
        | None => st
        end
    | ZeroRefcount => OnZeroRefcount vrf t p
    end.

Definition handle_all (evs : list event) (st : VrfEntry * VrfTable * Process)
  : VrfEntry * VrfTable * Process :=
  fold_left (fun st ev => handle ev st) evs st.

(** Modelled from the spec: for an actor that is pending the lifetime manager
    "retries [MayDelete()]; on success it runs [Shutdown()] then [Destroy()]",
    and "[Destroy()] is called exactly once per actor and strictly after all
    outstanding references drop to zero AND [MayDelete()] is true".  [None]:
    no retirement at this attempt. *)
Definition LifetimeManager_retire (vrf : VrfEntry) (p : Process) : option Process :=
  if delete_pending (deleter_ vrf) && (GetRefCount vrf =? 0) && MayDelete vrf
  then Some (Destroy vrf (Shutdown vrf p))
  else None.

(** Requests to the table. *)
Inductive DBRequestOper := DB_ENTRY_ADD_CHANGE | DB_ENTRY_DELETE.

Record DBRequest := mkDBRequest {
  oper : DBRequestOper;
  key : string                         (* VrfKey::name_ *)
}.

Record State := mkState {
  table : VrfTable;
  proc : Process
}.

(** The base-class [AgentDBTable::Input] is not among the sources; the
    override below is stated for whatever it does. *)
Variable AgentDBTable_Input : DBRequest -> State -> State.

(** [VrfTable::Input]; [partition->Find] also finds pending-delete entries. *)
Definition Input (req : DBRequest) (s : State) : State :=
  let entry := entries (table s) !! key req in
  match entry with
  | Some e =>
      if IsDeleted e
      then mkState (table s)
             (OPER_TRACE "VRF pending delete, Ignoring DB operation for "
                (GetName e) (proc s))
      else AgentDBTable_Input req s
  | None => AgentDBTable_Input req s
  end.

(** [VrfTable::CanNotify]; [Find(&key, true)] includes deleted entries. *)
Definition CanNotify (node_name : string) (s : State) : bool * State :=
  match entries (table s) !! node_name with
  | Some e =>
      if IsDeleted e
      then (false,
            mkState (table s)
              (OPER_TRACE "VRF pending delete, Ignoring config for " node_name (proc s)))
      else (true, s)
  | None => (true, s)
  end.

End WithConstants.

End Vrf.

(** ** The next-hop map of a VRF *)

Module NHMap.

Section WithComponentNHData.

(** [ComponentNHData] and its [operator==] are declared in oper/nexthop.h; the
    map is stated for whatever they are. *)
Variable ComponentNHData : Type.
Variable nh_eqb : ComponentNHData -> ComponentNHData -> bool.

(** [VrfEntry::VrfNHMap]; an [Ip4Address] is its [to_ulong] value. *)
Record VrfNHMap := mkVrfNHMap {
  nh_map_ : gmap Z (list ComponentNHData);
  label_map_ : gmap Z Z
}.

(** [std::map::operator[]]: a key that is not there is entered with a
    value-initialised element. *)
Definition map_index {V : Type} (dflt : V) (k : Z) (m : gmap Z V) : V * gmap Z V :=
  match m !! k with
  | Some v => (v, m)
  | None => (dflt, <[k := dflt]> m)
  end.

(** The search loop of [AddNH] and [FindNH]: whether some element of the list
    compares equal to [nh_data]. *)
Fixpoint find_nh (nh_data : ComponentNHData) (component_list : list ComponentNHData)
  : bool :=
  match component_list with
  | [] => false
  | x :: rest => if nh_eqb x nh_data then true else find_nh nh_data rest
  end.

(** The loop of [DeleteNH]: the first element equal to [nh_data] is erased. *)
Fixpoint erase_nh (nh_data : ComponentNHData) (l : list ComponentNHData)
  : list ComponentNHData :=
  match l with
  | [] => []
  | x :: rest => if nh_eqb x nh_data then rest else x :: erase_nh nh_data rest
  end.

(** [VrfNHMap::AddNH].  [component_list] is a copy of the list in the map, so
    the assignment [*it = nh_data] on a match does not reach the map. *)
Definition AddNH (ip : Z) (nh_data : ComponentNHData) (s : VrfNHMap) : VrfNHMap :=
  let '(component_list, m) := map_index [] ip (nh_map_ s) in
  if find_nh nh_data component_list then mkVrfNHMap m (label_map_ s)
  else
    let '(l, m) := map_index [] ip m in
    mkVrfNHMap (<[ip := l ++ [nh_data]]> m) (label_map_ s).

(** [VrfNHMap::DeleteNH]. *)
Definition DeleteNH (ip : Z) (nh_data : ComponentNHData) (s : VrfNHMap) : VrfNHMap :=
  let '(l, m) := map_index [] ip (nh_map_ s) in
  mkVrfNHMap (<[ip := erase_nh nh_data l]> m) (label_map_ s).

(** [VrfNHMap::GetNHCount]. *)
Definition GetNHCount (ip : Z) (s : VrfNHMap) : Z * VrfNHMap :=
  let '(l, m) := map_index [] ip (nh_map_ s) in
  (wrap32 (Z.of_nat (length l)), mkVrfNHMap m (label_map_ s)).

(** [VrfNHMap::FindNH]. *)
Definition FindNH (ip : Z) (nh_data : ComponentNHData) (s : VrfNHMap)
  : bool * VrfNHMap :=
  let '(component_list, m) := map_index [] ip (nh_map_ s) in
  (find_nh nh_data component_list, mkVrfNHMap m (label_map_ s)).

(** [VrfNHMap::GetNHList]; the list the returned pointer designates. *)
Definition GetNHList (ip : Z) (s : VrfNHMap) : list ComponentNHData * VrfNHMap :=
  let '(l, m) := map_index [] ip (nh_map_ s) in
  (l, mkVrfNHMap m (label_map_ s)).

(** [VrfNHMap::UpdateLabel] and [VrfNHMap::GetLabel]. *)
Definition UpdateLabel (addr label : Z) (s : VrfNHMap) : VrfNHMap :=
  mkVrfNHMap (nh_map_ s) (<[addr := label]> (label_map_ s)).

Definition GetLabel (addr : Z) (s : VrfNHMap) : Z * VrfNHMap :=
  let '(label, m) := map_index 0 addr (label_map_ s) in
  (label, mkVrfNHMap (nh_map_ s) m).

End WithComponentNHData.

Arguments mkVrfNHMap {_} _ _.
Arguments find_nh {_} _ _ _.
Arguments erase_nh {_} _ _ _.
Arguments AddNH {_} _ _ _ _.
Arguments DeleteNH {_} _ _ _ _.
Arguments FindNH {_} _ _ _ _.
Arguments nh_map_ {_} _.
Arguments label_map_ {_} _.
Arguments GetNHCount {_} _ _.
Arguments GetNHList {_} _ _.
Arguments UpdateLabel {_} _ _ _.
Arguments GetLabel {_} _ _.

End NHMap.

(** ** Looking a VRF up by name *)

Module VrfLookup.
Import Vrf.

(** [VrfTable::FindVrfFromName]: whether the name tree has an entry of that
    name, that is, whether the result is not [NULL]. *)
Definition FindVrfFromName (name : string) (t : VrfTable) : bool :=
  bool_decide (name ∈ name_tree_ t).

(** [VrfTable::GetRouteTable]: the same for the tree of one route-table
    type. *)
Definition GetRouteTable (vrf_name : string) (table_type : RouteTableType)
    (t : VrfTable) : bool :=
  bool_decide (vrf_name ∈ dbtree_ t table_type).

End VrfLookup.

(** ** The global vrouter configuration *)

Module AgentConfig.

Inductive VxLanNetworkIdentifierMode := AUTOMATIC | CONFIGURED.

Definition VxLanNetworkIdentifierMode_eqb (a b : VxLanNetworkIdentifierMode) : bool :=
  match a, b with
  | AUTOMATIC, AUTOMATIC | CONFIGURED, CONFIGURED => true
  | _, _ => false
  end.

(** [autogen::LinklocalServiceEntryType] and [autogen::GlobalVrouterConfig], as
    far as [Agent::GlobalVrouterConfig] reads them. *)
Record LinklocalServiceEntryType := mkLinklocalServiceEntryType {
  linklocal_service_name : string;
  ip_fabric_service_ip : list string;
  ip_fabric_service_port : Z
}.

Record GlobalVrouterConfigObject := mkGlobalVrouterConfigObject {
  encapsulation_priorities : list string;
  vxlan_network_identifier_mode : string;
  linklocal_services : list LinklocalServiceEntryType
}.

Record IFMapNode := mkIFMapNode {
  IsDeleted : bool;
  GetObject : GlobalVrouterConfigObject
}.

(** The part of the agent [GlobalVrouterConfig] writes, and the calls it makes
    on the VN and interface tables. *)
Record Agent := mkAgent {
  vxlan_network_identifier_mode_ : VxLanNetworkIdentifierMode;
  ipfabric_metadata_server_address : string;
  ipfabric_metadata_server_port : Z;
  vn_table_updates : nat;          (* calls of GetVnTable()->UpdateVxLanNetworkIdentifierMode *)
  interface_table_updates : nat    (* the same on the interface table *)
}.

Definition SetIpFabricMetadataServerAddress (a : string) (ag : Agent) : Agent :=
  mkAgent (vxlan_network_identifier_mode_ ag) a (ipfabric_metadata_server_port ag)
    (vn_table_updates ag) (interface_table_updates ag).
Definition SetIpFabricMetadataServerPort (p : Z) (ag : Agent) : Agent :=
  mkAgent (vxlan_network_identifier_mode_ ag) (ipfabric_metadata_server_address ag) p
    (vn_table_updates ag) (interface_table_updates ag).

(** [boost::to_lower_copy] in the C locale. *)
Definition to_lower_char (c : Ascii.ascii) : Ascii.ascii :=
  let n := Ascii.nat_of_ascii c in
  if (65 <=? n)%nat && (n <=? 90)%nat then Ascii.ascii_of_nat (n + 32) else c.

Fixpoint to_lower_copy (s : string) : string :=
  match s with
  | EmptyString => EmptyString
  | String c rest => String (to_lower_char c) (to_lower_copy rest)
  end.

(** The loop over the link-local services.  The [if] has no braces: it guards
    the address only, and the port is set for every entry.  [None]: an entry
    named metadata has no address, and [*begin()] is undefined. *)
Fixpoint linklocal_loop (l : list LinklocalServiceEntryType) (ag : Agent)
  : option Agent :=
  match l with
  | [] => Some ag
  | it :: rest =>
      let ag :=
        if String.eqb (to_lower_copy (linklocal_service_name it)) "metadata"
        then match ip_fabric_service_ip it with
             | ip :: _ => Some (SetIpFabricMetadataServerAddress ip ag)
             | [] => None
             end
        else Some ag in
      match ag with
      | Some ag =>
          linklocal_loop rest (SetIpFabricMetadataServerPort (ip_fabric_service_port it) ag)
      | None => None
      end
  end.

Section WithTunnelType.

(** [TunnelType::EncapPrioritySync] (oper/tunnel_nh.h) works on state of its
    own. *)
Variable TunnelTypeState : Type.
Variable EncapPrioritySync : list string -> TunnelTypeState -> TunnelTypeState.

(** [Agent::GlobalVrouterConfig]. *)
Definition GlobalVrouterConfig (node : IFMapNode) (st : Agent * TunnelTypeState)
  : option (Agent * TunnelTypeState) :=
  let '(ag, tun) := st in
  if negb (IsDeleted node) then
    let cfg := GetObject node in
    let tun := EncapPrioritySync (encapsulation_priorities cfg) tun in
    let cfg_vxlan_network_identifier_mode :=
      if String.eqb (vxlan_network_identifier_mode cfg) "configured"
      then CONFIGURED else AUTOMATIC in
    let ag :=
      if negb (VxLanNetworkIdentifierMode_eqb cfg_vxlan_network_identifier_mode
                 (vxlan_network_identifier_mode_ ag))
      then mkAgent cfg_vxlan_network_identifier_mode
             (ipfabric_metadata_server_address ag) (ipfabric_metadata_server_port ag)
             (S (vn_table_updates ag)) (S (interface_table_updates ag))
      else ag in
    match linklocal_loop (linklocal_services cfg) ag with
    | Some ag => Some (ag, tun)
    | None => None
    end
  else Some st.

End WithTunnelType.

Arguments GlobalVrouterConfig {_} _ _ _.

End AgentConfig.

(** ** Statements the properties below refer to *)

Module Statements.
Import Flow.

(** *** The spec's wording *)

(** The should-age test as the spec words it: a kernel record whose bytes or
    packets lie below the stored counters rules aging out; otherwise the flow
    is eligible exactly when [now - last_modified_time >= age_time]. *)
Definition ShouldBeAged_spec (c : FlowStatsCollector) (entry : FlowEntry)
    (k_flow : option vr_flow_entry) (now : Z) : bool :=
  match k_flow with
  | Some k =>
      if (flow_bytes (fe_stats k) <? bytes (data entry))
         || (flow_packets (fe_stats k) <? packets (data entry))
      then false
      else GetFlowAgeTime c <=? now - last_modified_time entry
  | None => GetFlowAgeTime c <=? now - last_modified_time entry
  end.

(** The packet composition as the spec words it. *)
Definition kernel_pkts_spec (k : vr_flow_entry) : Z :=
  Z.lor (Z.shiftl (flow_packets_oflow (fe_stats k)) 40) (flow_packets (fe_stats k)).

(** The source address an ingress-direction record carries. *)
Definition exported_sourceip (h : Heap) (flow : FlowEntry) : Z :=
  match reverse_flow (data flow) with
  | Some r =>
      if nat_ flow && negb (src (key flow) =? dst (key (h r)))
      then dst (key (h r))
      else src (key flow)
  | None => src (key flow)
  end.

(** *** The aging loop, turn by turn *)

(** A flow is deleted when the flow map no longer holds it. *)
Definition deleted (a : addr) (w : World) : Prop := ~ in_table a (flow_obj w).

(** The iterator after the check [it->second == reverse_flow]. *)
Definition skip_partner (m : FlowEntryMap) (r : addr) (it : iterator) : iterator :=
  match it with
  | Some k' =>
      match map_find k' m with
      | Some a' => if Nat.eqb a' r then map_next k' m else it
      | None => it
      end
  | None => it
  end.

(** The three ways a turn of the loop can go. *)
Inductive visit_case (env : Env) (curr_time : Z) (a : addr) (it : iterator)
    (w : World) : FlowTable -> iterator -> Prop :=
| visit_aged_pair r :
    let entry := heap (flow_obj w) a in
    ShouldBeAged (collector w) entry
      (GetKernelFlowEntry env (flow_handle entry)) curr_time = true ->
    reverse_flow (data entry) = Some r ->
    ShouldBeAged (collector w) (heap (flow_obj w) r)
      (GetKernelFlowEntry env (flow_handle (heap (flow_obj w) r))) curr_time = true ->
    visit_case env curr_time a it w
      (DeleteRevFlow (key entry) true (flow_obj w))
      (skip_partner (flow_entry_map_ (flow_obj w)) r it)
| visit_aged_single :
    let entry := heap (flow_obj w) a in
    ShouldBeAged (collector w) entry
      (GetKernelFlowEntry env (flow_handle entry)) curr_time = true ->
    reverse_flow (data entry) = None ->
    visit_case env curr_time a it w
      (DeleteRevFlow (key entry) false (flow_obj w)) it
| visit_kept w1 :
    let entry := heap (flow_obj w) a in
    let w0 := set_collector (set_flow_iteration_key_ (key entry) (collector w)) w in
    (Run_aged env curr_time w0 entry (GetKernelFlowEntry env (flow_handle entry))).1
      = false ->
    w1 = match GetKernelFlowEntry env (flow_handle entry) with
         | Some k => Run_reconcile env curr_time a k w0
         | None => w0
         end ->
    visit_case env curr_time a it w
      (if ShortFlow (heap (flow_obj w1) a)
       then DeleteRevFlow (key (heap (flow_obj w1) a)) false (flow_obj w1)
       else flow_obj w1) it.

(** The links of every flow are the same in both heaps. *)
Definition same_links (h h' : Heap) : Prop :=
  forall a,
    key (h' a) = key (h a)
    /\ reverse_flow (data (h' a)) = reverse_flow (data (h a))
    /\ short_flow (h' a) = short_flow (h a).

(** What one turn of the loop, visiting the flow at [a] with the iterator
    already advanced to [it], does to the table and the iterator: links are
    kept, and the map loses nothing, or the node of [a] (a flow without reverse
    flow, or a short flow), or the nodes of [a] and of its reverse flow, in
    which case the iterator steps over the reverse flow if it stands there. *)
Definition turn_after (a : addr) (it : iterator) (t t' : FlowTable)
    (it' : iterator) : Prop :=
  same_links (heap t) (heap t')
  /\ ((flow_entry_map_ t' = flow_entry_map_ t /\ it' = it)
      \/ (flow_entry_map_ t' = map_erase (key (heap t a)) (flow_entry_map_ t)
          /\ (reverse_flow (data (heap t a)) = None \/ short_flow (heap t a) = true)
          /\ it' = it)
      \/ (exists r,
            reverse_flow (data (heap t a)) = Some r
            /\ flow_entry_map_ t'
               = map_erase_entry r (map_erase (key (heap t a)) (flow_entry_map_ t))
            /\ it' = skip_partner (flow_entry_map_ t) r it)).

(** An iterator is valid when it is [end()] or designates a node of the map. *)
Definition valid_it (it : iterator) (m : FlowEntryMap) : Prop :=
  match it with
  | None => True
  | Some k => exists a, (k, a) ∈ m
  end.

(** The nodes at or after an iterator: the measure of the aging loop. *)
Definition remaining (it : iterator) (m : FlowEntryMap) : nat :=
  match it with
  | None => 0%nat
  | Some k => length (List.filter (fun p => negb (FlowKey_ltb (fst p) k)) m)
  end.

(** [f] and [g] are each other's reverse flow, neither is a short flow, and no
    other flow of the table names one of them as its reverse flow. *)
Definition paired (f g : addr) (t : FlowTable) : Prop :=
  reverse_flow (data (heap t f)) = Some g
  /\ reverse_flow (data (heap t g)) = Some f
  /\ short_flow (heap t f) = false
  /\ short_flow (heap t g) = false
  /\ (forall c, in_table c t -> reverse_flow (data (heap t c)) = Some f -> c = g)
  /\ (forall c, in_table c t -> reverse_flow (data (heap t c)) = Some g -> c = f).

(** What the loop keeps true of a flow [f] and its reverse flow [g]. *)
Definition pair_inv (f g : addr) (t : FlowTable) : Prop :=
  FlowTable_wf t /\ paired f g t /\ (in_table f t <-> in_table g t).

(** *** The scheduler *)

(** Every class name registered in [s] keeps its id in [s']. *)
Definition extends (s s' : TaskPolicy.TaskScheduler) : Prop :=
  forall name id, TaskPolicy.id_map_ s !! name = Some id ->
                  TaskPolicy.id_map_ s' !! name = Some id.

(** *** Sample data *)

Definition key0 : FlowKey := mkFlowKey 0 0 0 0 0.

Definition keyA : FlowKey := mkFlowKey 1 2 6 1000 80.

Definition keyB : FlowKey := mkFlowKey 2 1 6 80 1000.

Definition flow_of (k : FlowKey) (b p : Z) (rev : option addr) (lmt : Z)
    (short : bool) : FlowEntry :=
  mkFlowEntry k (mkFlowData b p rev false "vn1" "vn2") 0 lmt 0 0
    false false short 0 0 0.

Definition env_of (now : Z) (kflow : Z -> option vr_flow_entry) : Env :=
  mkEnv now kflow (fun _ => None) (fun _ => ""%string) 4294967295.

Definition collector_of (age per_pass : Z) : FlowStatsCollector :=
  mkFlowStatsCollector 0 key0 per_pass age 1 1000 0.

Definition world_of (h : Heap) (m : FlowEntryMap) (c : FlowStatsCollector) : World :=
  mkWorld (mkFlowTable h m) c [] [].

Definition c1_kflow : vr_flow_entry := mk_vr_flow_entry (mk_vr_flow_stats 5 0 0 1).

Definition c1_world : World :=
  world_of (fun _ => flow_of keyA 0 0 None 0 false) [(keyA, 0%nat)] (collector_of 100 100).

Definition c2_entry : FlowEntry := flow_of keyA 10 10 None 0 false.

Definition c2_kflow_behind : vr_flow_entry := mk_vr_flow_entry (mk_vr_flow_stats 5 5 0 0).

Definition c2_kflow_ahead : vr_flow_entry := mk_vr_flow_entry (mk_vr_flow_stats 20 20 0 0).

Definition c3_entry : FlowEntry := flow_of keyA 0x0000ffffffffff00 7 None 0 false.

Definition c4_kflow : vr_flow_entry := mk_vr_flow_entry (mk_vr_flow_stats 16 1 0 0).

Definition c4_env : Env := env_of 7 (fun _ => Some c4_kflow).

Definition c4_world (stored : Z) : World :=
  world_of (fun _ => flow_of keyA stored 0 None 7 false) [(keyA, 0%nat)]
    (collector_of 100 100).

(** Two flows, each the reverse of the other, with no kernel record; the first
    may be marked short. *)
Definition c5_heap (short : bool) (lmt : Z) : Heap :=
  fun a =>
    match a with
    | O => flow_of keyA 0 0 (Some 1%nat) lmt short
    | _ => flow_of keyB 0 0 (Some 0%nat) lmt false
    end.

Definition c5_world (short : bool) (lmt : Z) : World :=
  world_of (c5_heap short lmt) [(keyA, 0%nat); (keyB, 1%nat)] (collector_of 100 100).

Definition c5_env : Env := env_of 1000 (fun _ => None).

(** Three flows: F (address 0, fresh) and G (address 1, idle) are each other's
    reverse flow, and H (address 2, idle) also names G as its reverse flow. *)
Definition c5_heap3 : Heap :=
  fun a =>
    match a with
    | O => flow_of keyA 0 0 (Some 1%nat) 1000 false
    | S O => flow_of keyB 0 0 (Some 0%nat) 0 false
    | _ => flow_of (mkFlowKey 0 5 6 1 1) 0 0 (Some 1%nat) 0 false
    end.

Definition c5_world3 : World :=
  world_of c5_heap3 [(mkFlowKey 0 5 6 1 1, 2%nat); (keyA, 0%nat); (keyB, 1%nat)]
    (collector_of 100 100).

Definition c8_vrf : Vrf.VrfEntry :=
  Vrf.mkVrfEntry "vrf-a" 1 (Vrf.mkDeleteActor false)
    (fun tt => match tt with
               | Vrf.INET4_UNICAST => Vrf.mkAgentRouteTable 3
               | Vrf.INET4_MULTICAST => Vrf.mkAgentRouteTable 1
               | Vrf.LAYER2 => Vrf.mkAgentRouteTable 0
               end)
    None false 2.

Definition c8_table : Vrf.VrfTable :=
  Vrf.mkVrfTable ∅ {["vrf-a"%string]} (fun _ => {["vrf-a"%string]}) (fun _ => {["vrf-a"%string]}).

Definition c8_proc : Vrf.Process := Vrf.mkProcess [] [] false.

Definition c9_state : Vrf.State :=
  Vrf.mkState
    (Vrf.mkVrfTable {["vrf-a"%string := Vrf.set_IsDeleted true c8_vrf]}
       {["vrf-a"%string]} (fun _ => {["vrf-a"%string]}) (fun _ => {["vrf-a"%string]}))
    c8_proc.

Definition c9_base (req : Vrf.DBRequest) (s : Vrf.State) : Vrf.State :=
  Vrf.mkState (Vrf.mkVrfTable ∅ ∅ (fun _ => ∅) (fun _ => ∅)) (Vrf.proc s).

(** *** The global vrouter configuration *)

(** The entry is the metadata service, whatever the case of its name. *)
Definition is_metadata (e : AgentConfig.LinklocalServiceEntryType) : bool :=
  String.eqb (AgentConfig.to_lower_copy (AgentConfig.linklocal_service_name e)) "metadata".

(** Every metadata entry of the list has an address. *)
Definition metadata_addressed (l : list AgentConfig.LinklocalServiceEntryType) : Prop :=
  Forall (fun e => is_metadata e = true -> AgentConfig.ip_fabric_service_ip e <> []) l.

(** The first address of every metadata entry, in the order of the list. *)
Definition metadata_addresses (l : list AgentConfig.LinklocalServiceEntryType)
  : list string :=
  omap (fun e => if is_metadata e then head (AgentConfig.ip_fabric_service_ip e) else None) l.

Definition sample_services : list AgentConfig.LinklocalServiceEntryType :=
  [AgentConfig.mkLinklocalServiceEntryType "Metadata" ["10.1.1.1"%string] 8775;
   AgentConfig.mkLinklocalServiceEntryType "ntp" [] 123].

Definition sample_node : AgentConfig.IFMapNode :=
  AgentConfig.mkIFMapNode false
    (AgentConfig.mkGlobalVrouterConfigObject [] "configured" sample_services).

Definition sample_agent : AgentConfig.Agent :=
  AgentConfig.mkAgent AgentConfig.AUTOMATIC "" 0 0 0.

(** *** The lifetime actor *)


(** *** The next-hop map *)

(** Every query gives the same answer on both maps. *)
Definition same_answers {ComponentNHData : Type}
    (nh_eqb : ComponentNHData -> ComponentNHData -> bool)
    (s s' : NHMap.VrfNHMap ComponentNHData) : Prop :=
  forall (i : Z) (n : ComponentNHData),
    (NHMap.GetNHList i s').1 = (NHMap.GetNHList i s).1
    /\ (NHMap.FindNH nh_eqb i n s').1 = (NHMap.FindNH nh_eqb i n s).1
    /\ (NHMap.GetNHCount i s').1 = (NHMap.GetNHCount i s).1
    /\ (NHMap.GetLabel i s').1 = (NHMap.GetLabel i s).1.

End Statements.

(** * Properties *)

Import Flow Statements.

(** ** Bit-level facts *)

Lemma land_shiftl_low (a b n : Z) :
  0 <= n -> 0 <= b < 2 ^ n -> Z.land (a * 2 ^ n) b = 0.
Proof.
  intros Hn Hb.
  rewrite <- Z.shiftl_mul_pow2 by lia.
  apply Z.bits_inj'; intros i Hi.
  rewrite Z.land_spec, Z.bits_0.
  destruct (Z.lt_ge_cases i n) as [Hlt | Hge].
  - rewrite Z.shiftl_spec_low by lia. reflexivity.
  - destruct (Z.eq_dec b 0) as [-> | Hnz].
    + rewrite Z.bits_0. apply andb_false_r.
    + rewrite (Z.bits_above_log2 b i), andb_false_r; [ reflexivity | lia | ].
      apply Z.lt_le_trans with n; [ | lia ].
      apply Z.log2_lt_pow2; lia.
Qed.

Lemma lor_disjoint_add (a b n : Z) :
  0 <= n -> 0 <= b < 2 ^ n -> Z.lor (a * 2 ^ n) b = a * 2 ^ n + b.
Proof.
  intros Hn Hb.
  pose proof (land_shiftl_low a b n Hn Hb) as H0.
  rewrite <- Z.lxor_lor by exact H0.
  symmetry. apply Z.add_nocarry_lxor. exact H0.
Qed.

Lemma testbit_above (b n i : Z) :
  0 <= b < 2 ^ n -> n <= i -> Z.testbit b i = false.
Proof.
  intros Hb Hi.
  destruct (Z.eq_dec b 0) as [-> | Hnz]; [ apply Z.bits_0 | ].
  apply Z.bits_above_log2; [ lia | ].
  apply Z.lt_le_trans with n; [ | lia ].
  apply Z.log2_lt_pow2; lia.
Qed.

Lemma land_high_mask (lo w b : Z) :
  0 <= lo -> 0 <= w -> 0 <= b < 2 ^ (lo + w) ->
  Z.land (Z.shiftl (Z.ones w) lo) b = b / 2 ^ lo * 2 ^ lo.
Proof.
  intros Hlo Hw Hb.
  rewrite <- Z.shiftr_div_pow2, <- Z.shiftl_mul_pow2 by lia.
  apply Z.bits_inj'; intros i Hi.
  rewrite Z.land_spec.
  destruct (Z.lt_ge_cases i lo) as [Hlt | Hge].
  - rewrite !Z.shiftl_spec_low by lia. reflexivity.
  - rewrite !Z.shiftl_spec_high by lia.
    rewrite Z.shiftr_spec by lia.
    replace (i - lo + lo) with i by lia.
    destruct (Z.lt_ge_cases i (lo + w)) as [Hlt' | Hge'].
    + rewrite Z.ones_spec_low by lia. reflexivity.
    + rewrite (testbit_above b (lo + w) i) by lia. apply andb_false_r.
Qed.

Lemma land_low_mask (n b : Z) :
  0 <= n -> Z.land (Z.ones n) b = b mod 2 ^ n.
Proof. intros Hn. rewrite Z.land_comm. apply Z.land_ones. exact Hn. Qed.

Lemma GetUpdatedFlowBytes_arith (fe : FlowEntry) (k : Z) :
  is_u64 (bytes (data fe)) ->
  GetUpdatedFlowBytes fe k =
    Z.lor (if bytes (data fe) mod 2 ^ 48 >? k
           then (bytes (data fe) / 2 ^ 48 * 2 ^ 48 + 2 ^ 48) mod 2 ^ 64
           else bytes (data fe) / 2 ^ 48 * 2 ^ 48) k.
Proof.
  intros Hb. unfold GetUpdatedFlowBytes, wrap64.
  change 0xffff000000000000 with (Z.shiftl (Z.ones 16) 48).
  change 0x0000ffffffffffff with (Z.ones 48).
  change 0x0001000000000000 with (2 ^ 48).
  rewrite land_high_mask by (unfold is_u64 in Hb; simpl; lia).
  rewrite land_low_mask by lia.
  reflexivity.
Qed.

Lemma GetUpdatedFlowPackets_arith (fe : FlowEntry) (k : Z) :
  is_u64 (packets (data fe)) ->
  GetUpdatedFlowPackets fe k =
    Z.lor (if packets (data fe) mod 2 ^ 40 >? k
           then (packets (data fe) / 2 ^ 40 * 2 ^ 40 + 2 ^ 40) mod 2 ^ 64
           else packets (data fe) / 2 ^ 40 * 2 ^ 40) k.
Proof.
  intros Hb. unfold GetUpdatedFlowPackets, wrap64.
  change 0xffffff0000000000 with (Z.shiftl (Z.ones 24) 40).
  change 0x000000ffffffffff with (Z.ones 40).
  change 0x0000010000000000 with (2 ^ 40).
  rewrite land_high_mask by (unfold is_u64 in Hb; simpl; lia).
  rewrite land_low_mask by lia.
  reflexivity.
Qed.

Lemma GetUpdatedFlowBytes_value (fe : FlowEntry) (k : Z) :
  is_u64 (bytes (data fe)) -> 0 <= k < 2 ^ 48 ->
  GetUpdatedFlowBytes fe k =
    ((bytes (data fe) / 2 ^ 48
      + (if bytes (data fe) mod 2 ^ 48 >? k then 1 else 0)) mod 2 ^ 16) * 2 ^ 48 + k.
Proof.
  intros Hb Hk. rewrite GetUpdatedFlowBytes_arith by exact Hb.
  unfold is_u64 in Hb.
  set (s := bytes (data fe)) in *.
  assert (HH : 0 <= s / 2 ^ 48 < 2 ^ 16).
  { split; [ apply Z.div_pos; lia | apply Z.div_lt_upper_bound; lia ]. }
  destruct (s mod 2 ^ 48 >? k).
  - replace (s / 2 ^ 48 * 2 ^ 48 + 2 ^ 48) with ((s / 2 ^ 48 + 1) * 2 ^ 48) by ring.
    change (2 ^ 64) with (2 ^ 16 * 2 ^ 48).
    rewrite Z.mul_mod_distr_r by lia.
    apply lor_disjoint_add; lia.
  - rewrite Z.add_0_r, (Z.mod_small (s / 2 ^ 48)) by lia.
    apply lor_disjoint_add; lia.
Qed.

Lemma GetUpdatedFlowPackets_value (fe : FlowEntry) (k : Z) :
  is_u64 (packets (data fe)) -> 0 <= k < 2 ^ 40 ->
  GetUpdatedFlowPackets fe k =
    ((packets (data fe) / 2 ^ 40
      + (if packets (data fe) mod 2 ^ 40 >? k then 1 else 0)) mod 2 ^ 24) * 2 ^ 40 + k.
Proof.
  intros Hb Hk. rewrite GetUpdatedFlowPackets_arith by exact Hb.
  unfold is_u64 in Hb.
  set (s := packets (data fe)) in *.
  assert (HH : 0 <= s / 2 ^ 40 < 2 ^ 24).
  { split; [ apply Z.div_pos; lia | apply Z.div_lt_upper_bound; lia ]. }
  destruct (s mod 2 ^ 40 >? k).
  - replace (s / 2 ^ 40 * 2 ^ 40 + 2 ^ 40) with ((s / 2 ^ 40 + 1) * 2 ^ 40) by ring.
    change (2 ^ 64) with (2 ^ 24 * 2 ^ 40).
    rewrite Z.mul_mod_distr_r by lia.
    apply lor_disjoint_add; lia.
  - rewrite Z.add_0_r, (Z.mod_small (s / 2 ^ 40)) by lia.
    apply lor_disjoint_add; lia.
Qed.

Lemma GetUpdatedFlowBytes_mono (fe : FlowEntry) (k : Z) :
  0 <= bytes (data fe) < 2 ^ 64 - 2 ^ 48 -> 0 <= k < 2 ^ 48 ->
  bytes (data fe) <= GetUpdatedFlowBytes fe k < 2 ^ 64.
Proof.
  intros Hb Hk.
  rewrite GetUpdatedFlowBytes_value by (unfold is_u64; lia).
  set (s := bytes (data fe)) in *.
  pose proof (Z.div_mod s (2 ^ 48) ltac:(lia)) as Hdm.
  pose proof (Z.mod_pos_bound s (2 ^ 48) ltac:(lia)) as Hm.
  assert (HH : 0 <= s / 2 ^ 48 < 2 ^ 16 - 1).
  { split; [ apply Z.div_pos; lia | apply Z.div_lt_upper_bound; lia ]. }
  destruct (Z.gtb_spec (s mod 2 ^ 48) k) as [Hgt | Hle];
    rewrite Z.mod_small by lia; lia.
Qed.

Lemma GetUpdatedFlowPackets_mono (fe : FlowEntry) (k : Z) :
  0 <= packets (data fe) < 2 ^ 64 - 2 ^ 40 -> 0 <= k < 2 ^ 40 ->
  packets (data fe) <= GetUpdatedFlowPackets fe k < 2 ^ 64.
Proof.
  intros Hb Hk.
  rewrite GetUpdatedFlowPackets_value by (unfold is_u64; lia).
  set (s := packets (data fe)) in *.
  pose proof (Z.div_mod s (2 ^ 40) ltac:(lia)) as Hdm.
  pose proof (Z.mod_pos_bound s (2 ^ 40) ltac:(lia)) as Hm.
  assert (HH : 0 <= s / 2 ^ 40 < 2 ^ 24 - 1).
  { split; [ apply Z.div_pos; lia | apply Z.div_lt_upper_bound; lia ]. }
  destruct (Z.gtb_spec (s mod 2 ^ 40) k) as [Hgt | Hle];
    rewrite Z.mod_small by lia; lia.
Qed.

Lemma GetFlowStats_value (o d : Z) :
  is_u16 o -> is_u32 d -> GetFlowStats o d = o * 2 ^ 32 + d.
Proof.
  unfold is_u16, is_u32, GetFlowStats, wrap64. intros Ho Hd.
  change (4 * 8) with 32.
  rewrite Z.shiftl_mul_pow2 by lia.
  rewrite Z.mod_small by lia.
  apply lor_disjoint_add; lia.
Qed.

(** ** Composition of the kernel counters (C1) *)

Lemma GetFlowStats_lor (o d : Z) :
  is_u16 o -> GetFlowStats o d = Z.lor (Z.shiftl o 32) d.
Proof.
  unfold is_u16, GetFlowStats, wrap64. intros Ho.
  change (4 * 8) with 32.
  rewrite Z.mod_small; [ reflexivity | ].
  rewrite Z.shiftl_mul_pow2 by lia. lia.
Qed.

Lemma u8_is_u16 (z : Z) : is_u8 z -> is_u16 z.
Proof. unfold is_u8, is_u16. lia. Qed.

Lemma heap_update_eq (a : addr) (e : FlowEntry) (h : Heap) : heap_update a e h a = e.
Proof. unfold heap_update. rewrite Nat.eqb_refl. reflexivity. Qed.

Lemma heap_update_ne (a a' : addr) (e : FlowEntry) (h : Heap) :
  a' <> a -> heap_update a e h a' = h a'.
Proof.
  intros Hne. unfold heap_update.
  destruct (Nat.eqb_spec a' a); [ contradiction | reflexivity ].
Qed.

(** What [Run_reconcile] leaves in the heap. *)
Lemma Run_reconcile_heap (env : Env) (curr_time : Z) (a : addr)
    (k : vr_flow_entry) (w : World) :
  let entry := heap (flow_obj w) a in
  heap (flow_obj (Run_reconcile env curr_time a k w)) =
    if negb (bytes (data entry) =? flow_bytes (fe_stats k))
    then heap_update a
           (set_last_modified_time curr_time
              (set_packets (GetUpdatedFlowPackets entry (kernel_pkts k))
                 (set_bytes (GetUpdatedFlowBytes entry (kernel_bytes k)) entry)))
           (heap (flow_obj w))
    else heap (flow_obj w).
Proof.
  unfold Run_reconcile. simpl.
  destruct (negb (bytes (data (heap (flow_obj w) a)) =? flow_bytes (fe_stats k)));
    reflexivity.
Qed.

Lemma Run_reconcile_map (env : Env) (curr_time : Z) (a : addr)
    (k : vr_flow_entry) (w : World) :
  flow_entry_map_ (flow_obj (Run_reconcile env curr_time a k w)) =
    flow_entry_map_ (flow_obj w).
Proof.
  unfold Run_reconcile.
  destruct (negb (bytes (data (heap (flow_obj w) a)) =? flow_bytes (fe_stats k)));
    reflexivity.
Qed.

Lemma Run_reconcile_collector (env : Env) (curr_time : Z) (a : addr)
    (k : vr_flow_entry) (w : World) :
  collector (Run_reconcile env curr_time a k w) = collector w.
Proof.
  unfold Run_reconcile.
  destruct (negb (bytes (data (heap (flow_obj w) a)) =? flow_bytes (fe_stats k)));
    reflexivity.
Qed.

(** The composed kernel counters stay within 48 and 40 bits. *)
Lemma kernel_counters_range (k : vr_flow_entry) :
  vr_flow_entry_wf k ->
  0 <= kernel_bytes k < 2 ^ 48 /\ 0 <= kernel_pkts k < 2 ^ 40.
Proof.
  intros (Hb & Hp & Hbo & Hpo).
  unfold kernel_bytes, kernel_pkts.
  rewrite (GetFlowStats_value _ _ Hbo Hb).
  rewrite (GetFlowStats_value _ _ (u8_is_u16 _ Hpo) Hp).
  unfold is_u8, is_u16, is_u32 in *. lia.
Qed.

(** C1 (amended).  When the aging pass reconciles the stats of a visited flow
    whose kernel record is present, both kernel counters are composed with the
    overflow part shifted left by 32 bits (the width of the low counter):
    [kernel_bytes = (flow_bytes_oflow << 32) | flow_bytes], a 48-bit value, and
    [kernel_pkts = (flow_packets_oflow << 32) | flow_packets], a 40-bit value;
    these are the values handed to [GetUpdatedFlowBytes] and
    [GetUpdatedFlowPackets], whose results are stored in the entry. *)
Theorem C1_kernel_counters_shift_32 (env : Env) (curr_time : Z) (a : addr)
    (k : vr_flow_entry) (w : World) :
  vr_flow_entry_wf k ->
  let entry := heap (flow_obj w) a in
  let entry' := heap (flow_obj (Run_reconcile env curr_time a k w)) a in
  kernel_bytes k
    = Z.lor (Z.shiftl (flow_bytes_oflow (fe_stats k)) 32) (flow_bytes (fe_stats k))
  /\ kernel_pkts k
    = Z.lor (Z.shiftl (flow_packets_oflow (fe_stats k)) 32) (flow_packets (fe_stats k))
  /\ kernel_bytes k = flow_bytes_oflow (fe_stats k) * 2 ^ 32 + flow_bytes (fe_stats k)
  /\ kernel_pkts k = flow_packets_oflow (fe_stats k) * 2 ^ 32 + flow_packets (fe_stats k)
  /\ 0 <= kernel_bytes k < 2 ^ 48
  /\ 0 <= kernel_pkts k < 2 ^ 40
  /\ (bytes (data entry) <> flow_bytes (fe_stats k) ->
      bytes (data entry') = GetUpdatedFlowBytes entry (kernel_bytes k)
      /\ packets (data entry') = GetUpdatedFlowPackets entry (kernel_pkts k)).
Proof.
  intros (Hb & Hp & Hbo & Hpo) entry entry'.
  assert (Hpo16 := u8_is_u16 _ Hpo).
  assert (Eb := GetFlowStats_value _ _ Hbo Hb).
  assert (Ep := GetFlowStats_value _ _ Hpo16 Hp).
  unfold kernel_bytes, kernel_pkts.
  split; [ apply GetFlowStats_lor, Hbo | ].
  split; [ apply GetFlowStats_lor, Hpo16 | ].
  split; [ exact Eb | ].
  split; [ exact Ep | ].
  destruct (kernel_counters_range k (conj Hb (conj Hp (conj Hbo Hpo)))) as [Rb Rp].
  split; [ exact Rb | ].
  split; [ exact Rp | ].
  intros Hne. subst entry'. rewrite Run_reconcile_heap.
  destruct (Z.eqb_spec (bytes (data (heap (flow_obj w) a))) (flow_bytes (fe_stats k)));
    [ contradiction | ].
  simpl. rewrite heap_update_eq. split; reflexivity.
Qed.

Lemma C1_kernel_counters_shift_32_witness :
  vr_flow_entry_wf c1_kflow /\
  kernel_pkts c1_kflow = 1 * 2 ^ 32 + 0 /\
  packets (data (heap (flow_obj (Run_reconcile (env_of 7 (fun _ => None)) 7 0%nat
                                    c1_kflow c1_world)) 0%nat))
    = GetUpdatedFlowPackets (heap (flow_obj c1_world) 0%nat) (kernel_pkts c1_kflow).
Proof.
  assert (Hwf : vr_flow_entry_wf c1_kflow).
  { unfold vr_flow_entry_wf, is_u8, is_u16, is_u32; simpl; lia. }
  pose proof (C1_kernel_counters_shift_32 (env_of 7 (fun _ => None)) 7 0%nat
                c1_kflow c1_world Hwf) as (_ & _ & _ & Hp & _ & _ & Hrec).
  split; [ exact Hwf | split; [ exact Hp | ] ].
  apply Hrec. simpl. lia.
Defined.

(** C1, as stated, fails: with [flow_packets_oflow = 1] and [flow_packets = 0]
    the pass composes [2^32], not [(1 << 40) | 0 = 2^40], and that is the value
    it stores for a flow that had no packets before. *)
Lemma C1_counterexample :
  vr_flow_entry_wf c1_kflow /\
  kernel_pkts c1_kflow = 2 ^ 32 /\
  kernel_pkts_spec c1_kflow = 2 ^ 40 /\
  kernel_pkts c1_kflow <> kernel_pkts_spec c1_kflow /\
  packets (data (heap (flow_obj (Run_reconcile (env_of 7 (fun _ => None)) 7 0%nat
                                    c1_kflow c1_world)) 0%nat)) = 2 ^ 32.
Proof.
  split; [ unfold vr_flow_entry_wf, is_u8, is_u16, is_u32; simpl; lia | ].
  repeat split; try reflexivity. vm_compute. discriminate.
Qed.

(** ** The should-age test (C2) *)

(** C2 (amended).  [ShouldBeAged] rules aging out when the kernel record exists
    and the stored counters are both behind it (stored bytes below the kernel's
    [flow_bytes] and stored packets below the kernel's [flow_packets], that is,
    the kernel has seen traffic the agent has not yet accounted); in every
    other case the flow is aging-eligible exactly when
    [now - last_modified_time], taken as an unsigned 64-bit difference, is at
    least [age_time]. *)
Theorem C2_ShouldBeAged_iff (c : FlowStatsCollector) (entry : FlowEntry)
    (k_flow : option vr_flow_entry) (now : Z) :
  ShouldBeAged c entry k_flow now = true <->
    ~ (exists k, k_flow = Some k
                 /\ bytes (data entry) < flow_bytes (fe_stats k)
                 /\ packets (data entry) < flow_packets (fe_stats k))
    /\ GetFlowAgeTime c <= wrap64 (now - last_modified_time entry).
Proof.
  unfold ShouldBeAged.
  destruct k_flow as [k | ].
  - destruct (Z.ltb_spec (bytes (data entry)) (flow_bytes (fe_stats k))) as [Hb | Hb];
      destruct (Z.ltb_spec (packets (data entry)) (flow_packets (fe_stats k))) as [Hp | Hp];
      simpl;
      try (destruct (Z.ltb_spec (wrap64 (now - last_modified_time entry))
                       (GetFlowAgeTime c)) as [Ht | Ht]);
      split; try discriminate; try (intros [Hn Hge]); try (intros _; split);
      try lia; try reflexivity;
      try (intros (k' & [= <-] & Hb' & Hp'); lia);
      exfalso; apply Hn; exists k; repeat split; assumption.
  - simpl.
    destruct (Z.ltb_spec (wrap64 (now - last_modified_time entry)) (GetFlowAgeTime c))
      as [Ht | Ht]; split; try discriminate; try (intros [Hn Hge]);
      try (intros _; split); try lia; try reflexivity.
    intros (k' & [=] & _).
Qed.

(** C2, as stated, fails in both directions.  A flow idle for longer than
    [age_time] whose kernel counters lie below the stored ones is aged by the
    code, where the claim rules aging out; and one whose kernel counters are
    ahead of the stored ones is kept by the code, where the claim has it
    aging-eligible. *)
Lemma C2_counterexample :
  ShouldBeAged (collector_of 50 100) c2_entry (Some c2_kflow_behind) 100 = true
  /\ ShouldBeAged_spec (collector_of 50 100) c2_entry (Some c2_kflow_behind) 100 = false
  /\ ShouldBeAged (collector_of 50 100) c2_entry (Some c2_kflow_ahead) 100 = false
  /\ ShouldBeAged_spec (collector_of 50 100) c2_entry (Some c2_kflow_ahead) 100 = true.
Proof. repeat split; reflexivity. Qed.

(** ** Wrap-around tracking (C3) *)

(** C3.  [GetUpdatedFlowBytes] keeps the high 16 bits of the stored counter
    and [GetUpdatedFlowPackets] the high 24 bits; when the stored low bits (low
    48, low 40) exceed the composed kernel value, the held high bits are
    incremented by one carry unit ([2^48], [2^40]; the addition is the 64-bit
    one) before the kernel value is OR-ed in.  For a kernel value within its
    48-bit (40-bit) range the result is the held high part, plus the carry,
    followed by the kernel value; stored [0x0000_ffff_ffff_ff00] with kernel
    value [0x10] gives [0x0001_0000_0000_0010]. *)
Theorem C3_updated_counters (fe : FlowEntry) (k : Z) :
  is_u64 (bytes (data fe)) -> is_u64 (packets (data fe)) ->
  let b := bytes (data fe) in
  let p := packets (data fe) in
  GetUpdatedFlowBytes fe k
    = Z.lor (if b mod 2 ^ 48 >? k
             then (b / 2 ^ 48 * 2 ^ 48 + 2 ^ 48) mod 2 ^ 64
             else b / 2 ^ 48 * 2 ^ 48) k
  /\ GetUpdatedFlowPackets fe k
    = Z.lor (if p mod 2 ^ 40 >? k
             then (p / 2 ^ 40 * 2 ^ 40 + 2 ^ 40) mod 2 ^ 64
             else p / 2 ^ 40 * 2 ^ 40) k
  /\ (0 <= k < 2 ^ 48 ->
      GetUpdatedFlowBytes fe k
        = ((b / 2 ^ 48 + (if b mod 2 ^ 48 >? k then 1 else 0)) mod 2 ^ 16) * 2 ^ 48 + k)
  /\ (0 <= k < 2 ^ 40 ->
      GetUpdatedFlowPackets fe k
        = ((p / 2 ^ 40 + (if p mod 2 ^ 40 >? k then 1 else 0)) mod 2 ^ 24) * 2 ^ 40 + k)
  /\ (b = 0x0000ffffffffff00 -> k = 0x10 ->
      GetUpdatedFlowBytes fe k = 0x0001000000000010).
Proof.
  intros Hb Hp b p.
  split; [ apply GetUpdatedFlowBytes_arith, Hb | ].
  split; [ apply GetUpdatedFlowPackets_arith, Hp | ].
  split; [ apply GetUpdatedFlowBytes_value, Hb | ].
  split; [ apply GetUpdatedFlowPackets_value, Hp | ].
  intros Eb ->. unfold GetUpdatedFlowBytes. fold b. rewrite Eb. reflexivity.
Qed.

Lemma C3_updated_counters_witness :
  is_u64 (bytes (data c3_entry)) /\ is_u64 (packets (data c3_entry)) /\
  GetUpdatedFlowBytes c3_entry 0x10 = 0x0001000000000010.
Proof.
  assert (Hb : is_u64 (bytes (data c3_entry))) by (unfold is_u64; simpl; lia).
  assert (Hp : is_u64 (packets (data c3_entry))) by (unfold is_u64; simpl; lia).
  split; [ exact Hb | split; [ exact Hp | ] ].
  apply (C3_updated_counters c3_entry 0x10 Hb Hp); reflexivity.
Defined.

(** ** One turn of the aging loop *)

Lemma DeleteRevFlow_heap (k : FlowKey) (rev : bool) (t : FlowTable) :
  heap (DeleteRevFlow k rev t) = heap t.
Proof.
  unfold DeleteRevFlow.
  destruct (map_find k (flow_entry_map_ t)); [ | reflexivity ].
  destruct rev; [ | reflexivity ].
  destruct (reverse_flow (data (heap t a))); reflexivity.
Qed.

Lemma ShouldBeAged_iteration_key (k : FlowKey) (c : FlowStatsCollector) :
  ShouldBeAged (set_flow_iteration_key_ k c) = ShouldBeAged c.
Proof. reflexivity. Qed.

Lemma Run_visit_cases (env : Env) (curr_time : Z) (a : addr) (it : iterator)
    (count : Z) (w : World) :
  visit_case env curr_time a it w
    (flow_obj (Run_visit env curr_time a it count w).1.1.1)
    (Run_visit env curr_time a it count w).1.1.2
  /\ flow_age_time_intvl_ (collector (Run_visit env curr_time a it count w).1.1.1)
     = flow_age_time_intvl_ (collector w)
  /\ flow_count_per_pass_ (collector (Run_visit env curr_time a it count w).1.1.1)
     = flow_count_per_pass_ (collector w).
Proof.
  unfold Run_visit.
  set (entry := heap (flow_obj w) a).
  set (w0 := set_collector (set_flow_iteration_key_ (key entry) (collector w)) w).
  set (k_flow := GetKernelFlowEntry env (flow_handle entry)).
  destruct (Run_aged env curr_time w0 entry k_flow) as [deleted reverse_flow] eqn:Haged.
  destruct deleted.
  - unfold Run_aged in Haged.
    change (collector w0) with (set_flow_iteration_key_ (key entry) (collector w)) in Haged.
    change (flow_obj w0) with (flow_obj w) in Haged.
    rewrite !ShouldBeAged_iteration_key in Haged.
    destruct (ShouldBeAged (collector w) entry k_flow curr_time) eqn:Hage;
      [ | discriminate ].
    destruct (Flow.reverse_flow (data entry)) as [r | ] eqn:Hrev.
    + injection Haged as Hage' <-.
      assert (Hcase : visit_case env curr_time a it w
                (DeleteRevFlow (key entry) true (flow_obj w))
                (skip_partner (flow_entry_map_ (flow_obj w)) r it)).
      { apply visit_aged_pair; assumption. }
      assert (Hit : match it with
                    | Some k' =>
                        match map_find k' (flow_entry_map_ (flow_obj w0)), Some r with
                        | Some a', Some r0 =>
                            if Nat.eqb a' r0
                            then map_next k' (flow_entry_map_ (flow_obj w0)) else it
                        | _, _ => it
                        end
                    | None => it
                    end = skip_partner (flow_entry_map_ (flow_obj w)) r it).
      { unfold skip_partner. destruct it as [k' | ]; [ | reflexivity ].
        change (flow_obj w0) with (flow_obj w).
        destruct (map_find k' (flow_entry_map_ (flow_obj w))); reflexivity. }
      rewrite Hit.
      destruct (wrap32 (count + 1) =? _); simpl; auto.
    + injection Haged as <-.
      assert (Hcase : visit_case env curr_time a it w
                (DeleteRevFlow (key entry) false (flow_obj w)) it).
      { apply visit_aged_single; assumption. }
      assert (Hit : match it with
                    | Some k' =>
                        match map_find k' (flow_entry_map_ (flow_obj w0)), @None addr with
                        | Some a', Some r0 =>
                            if Nat.eqb a' r0
                            then map_next k' (flow_entry_map_ (flow_obj w0)) else it
                        | _, _ => it
                        end
                    | None => it
                    end = it).
      { destruct it as [k' | ]; [ | reflexivity ].
        destruct (map_find k' (flow_entry_map_ (flow_obj w0))); reflexivity. }
      rewrite Hit. simpl. auto.
  - set (w1 := match k_flow with
               | Some k => Run_reconcile env curr_time a k w0
               | None => w0
               end).
    assert (Hcase : visit_case env curr_time a it w
              (if ShortFlow (heap (flow_obj w1) a)
               then DeleteRevFlow (key (heap (flow_obj w1) a)) false (flow_obj w1)
               else flow_obj w1) it).
    { apply visit_kept; [ | reflexivity ].
      fold entry. fold w0. fold k_flow. rewrite Haged. reflexivity. }
    assert (Hc1 : collector w1 = collector w0).
    { subst w1. destruct k_flow; [ apply Run_reconcile_collector | reflexivity ]. }
    destruct (ShortFlow (heap (flow_obj w1) a)); simpl; rewrite ?Hc1; auto.
Qed.

(** ** Counter monotonicity (C4) *)

Lemma Run_reconcile_mono (env : Env) (curr_time : Z) (a : addr)
    (k : vr_flow_entry) (w : World) :
  vr_flow_entry_wf k ->
  0 <= bytes (data (heap (flow_obj w) a)) < 2 ^ 64 - 2 ^ 48 ->
  0 <= packets (data (heap (flow_obj w) a)) < 2 ^ 64 - 2 ^ 40 ->
  forall a',
    bytes (data (heap (flow_obj w) a'))
      <= bytes (data (heap (flow_obj (Run_reconcile env curr_time a k w)) a'))
    /\ packets (data (heap (flow_obj w) a'))
      <= packets (data (heap (flow_obj (Run_reconcile env curr_time a k w)) a')).
Proof.
  intros Hk Hb Hp a'.
  destruct (kernel_counters_range k Hk) as [Hkb Hkp].
  rewrite Run_reconcile_heap.
  destruct (negb (bytes (data (heap (flow_obj w) a)) =? flow_bytes (fe_stats k)));
    [ | lia ].
  destruct (Nat.eq_dec a' a) as [-> | Hne].
  - rewrite heap_update_eq. simpl.
    pose proof (GetUpdatedFlowBytes_mono (heap (flow_obj w) a) (kernel_bytes k) Hb Hkb).
    pose proof (GetUpdatedFlowPackets_mono (heap (flow_obj w) a) (kernel_pkts k) Hp Hkp).
    lia.
  - rewrite heap_update_ne by exact Hne. lia.
Qed.

(** C4 (amended).  Visiting a flow in the aging pass leaves the stored [bytes]
    and [packets] of every flow entry greater than or equal to their previous
    values, for all composed kernel inputs within their 48-/40-bit ranges,
    provided the held high bits of the visited entry are not all ones (stored
    bytes below [2^64 - 2^48], stored packets below [2^64 - 2^40]). *)
Theorem C4_counters_nondecreasing (env : Env) (curr_time : Z) (a : addr)
    (it : iterator) (count : Z) (w : World) :
  (forall k, GetKernelFlowEntry env (flow_handle (heap (flow_obj w) a)) = Some k ->
             vr_flow_entry_wf k) ->
  0 <= bytes (data (heap (flow_obj w) a)) < 2 ^ 64 - 2 ^ 48 ->
  0 <= packets (data (heap (flow_obj w) a)) < 2 ^ 64 - 2 ^ 40 ->
  forall a',
    bytes (data (heap (flow_obj w) a'))
      <= bytes (data (heap (flow_obj (Run_visit env curr_time a it count w).1.1.1) a'))
    /\ packets (data (heap (flow_obj w) a'))
      <= packets (data (heap (flow_obj (Run_visit env curr_time a it count w).1.1.1) a')).
Proof.
  intros Hk Hb Hp a'.
  destruct (Run_visit_cases env curr_time a it count w) as (Hcase & _ & _).
  destruct Hcase as [ r entry H1 H2 H3 | entry H1 H2 | w1 entry w0 H1 Hw1 ].
  - rewrite DeleteRevFlow_heap. lia.
  - rewrite DeleteRevFlow_heap. lia.
  - assert (Hheap : heap (if ShortFlow (heap (flow_obj w1) a)
                          then DeleteRevFlow (key (heap (flow_obj w1) a)) false (flow_obj w1)
                          else flow_obj w1) = heap (flow_obj w1)).
    { destruct (ShortFlow (heap (flow_obj w1) a));
        [ apply DeleteRevFlow_heap | reflexivity ]. }
    rewrite Hheap, Hw1.
    destruct (GetKernelFlowEntry env (flow_handle entry)) as [k | ] eqn:Hkf.
    + apply (Run_reconcile_mono env curr_time a k w0); [ apply Hk, Hkf | exact Hb | exact Hp ].
    + simpl. lia.
Qed.

Lemma C4_counters_nondecreasing_witness :
  vr_flow_entry_wf c4_kflow /\
  bytes (data (heap (flow_obj (c4_world 0x0000ffffffffff00)) 0%nat))
    <= bytes (data (heap (flow_obj (Run_visit c4_env 7 0%nat None 0
                                      (c4_world 0x0000ffffffffff00)).1.1.1) 0%nat)).
Proof.
  assert (Hwf : vr_flow_entry_wf c4_kflow).
  { unfold vr_flow_entry_wf, is_u8, is_u16, is_u32; simpl; lia. }
  split; [ exact Hwf | ].
  apply (C4_counters_nondecreasing c4_env 7 0%nat None 0 (c4_world 0x0000ffffffffff00)).
  - intros k [= <-]. exact Hwf.
  - simpl. lia.
  - simpl. lia.
Defined.

(** C4, as stated, fails for a stored counter whose held high bits are all
    ones: stored bytes [0xffff_0000_0000_0011] with composed kernel value
    [0x10] are reconciled to [0x10]. *)
Lemma C4_counterexample :
  vr_flow_entry_wf c4_kflow /\
  kernel_bytes c4_kflow = 0x10 /\
  bytes (data (heap (flow_obj (c4_world 0xffff000000000011)) 0%nat)) = 0xffff000000000011 /\
  bytes (data (heap (flow_obj (Run_visit c4_env 7 0%nat None 0
                                 (c4_world 0xffff000000000011)).1.1.1) 0%nat)) = 0x10 /\
  ~ (bytes (data (heap (flow_obj (c4_world 0xffff000000000011)) 0%nat))
     <= bytes (data (heap (flow_obj (Run_visit c4_env 7 0%nat None 0
                                       (c4_world 0xffff000000000011)).1.1.1) 0%nat))).
Proof.
  split; [ unfold vr_flow_entry_wf, is_u8, is_u16, is_u32; simpl; lia | ].
  split; [ reflexivity | ].
  split; [ reflexivity | ].
  split; [ vm_compute; reflexivity | ].
  vm_compute. intros H. apply H. reflexivity.
Qed.

(** ** Keys and the flow map *)

Lemma FlowKey_eqb_eq (a b : FlowKey) : FlowKey_eqb a b = true <-> a = b.
Proof.
  destruct a as [a1 a2 a3 a4 a5], b as [b1 b2 b3 b4 b5].
  unfold FlowKey_eqb; simpl. rewrite !andb_true_iff, !Z.eqb_eq.
  split.
  - intros ((((-> & ->) & ->) & ->) & ->). reflexivity.
  - intros [= -> -> -> -> ->]. repeat split.
Qed.

Lemma FlowKey_eqb_refl (a : FlowKey) : FlowKey_eqb a a = true.
Proof. apply FlowKey_eqb_eq. reflexivity. Qed.

Lemma FlowKey_eqb_neq (a b : FlowKey) : FlowKey_eqb a b = false <-> a <> b.
Proof.
  rewrite <- FlowKey_eqb_eq. destruct (FlowKey_eqb a b); split; congruence.
Qed.

Lemma FlowKey_ltb_irrefl (a : FlowKey) : FlowKey_ltb a a = false.
Proof.
  unfold FlowKey_ltb. rewrite !Z.eqb_refl. simpl. apply Z.ltb_irrefl.
Qed.

Lemma FlowKey_ltb_spec (a b : FlowKey) :
  FlowKey_ltb a b = true <->
    (src a < src b \/ (src a = src b /\
    (dst a < dst b \/ (dst a = dst b /\
    (protocol a < protocol b \/ (protocol a = protocol b /\
    (src_port a < src_port b \/ (src_port a = src_port b /\
     dst_port a < dst_port b)))))))).
Proof.
  unfold FlowKey_ltb.
  repeat (match goal with
          | |- context [Z.eqb ?x ?y] => destruct (Z.eqb_spec x y)
          end; simpl);
    rewrite Z.ltb_lt; lia.
Qed.

Lemma FlowKey_ltb_trans (a b c : FlowKey) :
  FlowKey_ltb a b = true -> FlowKey_ltb b c = true -> FlowKey_ltb a c = true.
Proof. rewrite !FlowKey_ltb_spec. lia. Qed.

Lemma FlowKey_ltb_neq (a b : FlowKey) : FlowKey_ltb a b = true -> a <> b.
Proof. intros H ->. rewrite FlowKey_ltb_irrefl in H. discriminate. Qed.

Lemma map_find_elem (k : FlowKey) (m : FlowEntryMap) (a : addr) :
  map_find k m = Some a -> (k, a) ∈ m.
Proof.
  unfold map_find. induction m as [ | [k' a'] m IH]; simpl; [ discriminate | ].
  destruct (FlowKey_eqb k' k) eqn:E; simpl.
  - intros [= <-]. apply FlowKey_eqb_eq in E as ->. apply list_elem_of_here.
  - intros H. apply list_elem_of_further, IH, H.
Qed.

Lemma elem_map_find_is_Some (k : FlowKey) (a : addr) (m : FlowEntryMap) :
  (k, a) ∈ m -> exists a', map_find k m = Some a'.
Proof.
  unfold map_find. induction m as [ | [k' a'] m IH]; intros Hin.
  - inversion Hin.
  - simpl. destruct (FlowKey_eqb k' k) eqn:E; simpl; [ eauto | ].
    apply elem_of_cons in Hin as [[= <- <-] | Hin]; [ | apply IH, Hin ].
    rewrite FlowKey_eqb_refl in E. discriminate.
Qed.

Lemma elem_map_find (k : FlowKey) (a : addr) (m : FlowEntryMap) :
  NoDup (m.*1) -> (k, a) ∈ m -> map_find k m = Some a.
Proof.
  unfold map_find. induction m as [ | [k' a'] m IH]; intros Hnd Hin.
  - inversion Hin.
  - simpl in *. apply NoDup_cons in Hnd as [Hnotin Hnd].
    apply elem_of_cons in Hin as [[= <- <-] | Hin].
    + rewrite FlowKey_eqb_refl. reflexivity.
    + destruct (FlowKey_eqb k' k) eqn:E; simpl; [ | apply IH; assumption ].
      apply FlowKey_eqb_eq in E as ->. exfalso. apply Hnotin.
      apply list_elem_of_fmap. exists (k, a). split; [ reflexivity | exact Hin ].
Qed.

Lemma upper_bound_elem (k : FlowKey) (m : FlowEntryMap) (k' : FlowKey) :
  upper_bound k m = Some k' ->
  FlowKey_ltb k k' = true /\ exists a', (k', a') ∈ m.
Proof.
  unfold upper_bound. induction m as [ | [k1 a1] m IH]; simpl; [ discriminate | ].
  destruct (FlowKey_ltb k k1) eqn:E; simpl.
  - intros [= <-]. split; [ exact E | ]. exists a1. apply list_elem_of_here.
  - intros H. destruct (IH H) as (Hlt & a' & Hin).
    split; [ exact Hlt | ]. exists a'. apply list_elem_of_further, Hin.
Qed.

Lemma elem_List_filter (f : FlowKey * addr -> bool) (p : FlowKey * addr)
    (m : FlowEntryMap) :
  p ∈ List.filter f m <-> p ∈ m /\ f p = true.
Proof. rewrite !list_elem_of_In. apply List.filter_In. Qed.

Lemma elem_map_erase (p : FlowKey * addr) (k : FlowKey) (m : FlowEntryMap) :
  p ∈ map_erase k m <-> p ∈ m /\ p.1 <> k.
Proof.
  unfold map_erase. rewrite elem_List_filter, negb_true_iff, FlowKey_eqb_neq.
  reflexivity.
Qed.

Lemma elem_map_erase_entry (p : FlowKey * addr) (r : addr) (m : FlowEntryMap) :
  p ∈ map_erase_entry r m <-> p ∈ m /\ p.2 <> r.
Proof.
  unfold map_erase_entry. rewrite elem_List_filter, negb_true_iff, Nat.eqb_neq.
  reflexivity.
Qed.

Lemma NoDup_keys_filter (f : FlowKey * addr -> bool) (m : FlowEntryMap) :
  NoDup (m.*1) -> NoDup ((List.filter f m).*1).
Proof.
  induction m as [ | p m IH]; simpl; intros Hnd; [ constructor | ].
  apply NoDup_cons in Hnd as [Hnotin Hnd].
  destruct (f p); simpl; [ | apply IH, Hnd ].
  apply NoDup_cons. split; [ | apply IH, Hnd ].
  intros Hin. apply Hnotin.
  apply list_elem_of_fmap in Hin as (q & -> & Hq).
  apply elem_List_filter in Hq as [Hq _].
  apply list_elem_of_fmap. exists q. split; [ reflexivity | exact Hq ].
Qed.

(** ** Iterators on a sorted map *)

Lemma map_sorted_tail (p : FlowKey * addr) (m : FlowEntryMap) :
  map_sorted (p :: m) -> map_sorted m.
Proof. simpl. tauto. Qed.

Lemma map_sorted_head_lt (p : FlowKey * addr) (m : FlowEntryMap) :
  map_sorted (p :: m) -> forall q, q ∈ m -> FlowKey_ltb p.1 q.1 = true.
Proof.
  revert p. induction m as [ | r m IH]; intros p Hs q Hq; [ inversion Hq | ].
  destruct Hs as [Hpr Hs].
  apply elem_of_cons in Hq as [-> | Hq]; [ exact Hpr | ].
  eapply FlowKey_ltb_trans; [ exact Hpr | apply IH; assumption ].
Qed.

(** On a sorted map the model of [it++] yields the node that follows in the
    map, or [end()] after the last one. *)
Lemma map_next_sorted (l1 l2 : FlowEntryMap) (k : FlowKey) (a : addr) :
  map_sorted (l1 ++ (k, a) :: l2) ->
  map_next k (l1 ++ (k, a) :: l2) = map_begin l2.
Proof.
  unfold map_next, upper_bound, map_begin.
  induction l1 as [ | p l1 IH]; intros Hs; simpl in *.
  - rewrite FlowKey_ltb_irrefl. destruct l2 as [ | q l2]; [ reflexivity | ].
    simpl. destruct Hs as [-> _]. reflexivity.
  - assert (Hlt : FlowKey_ltb p.1 k = true).
    { apply (map_sorted_head_lt p (l1 ++ (k, a) :: l2) Hs (k, a)).
      apply elem_of_app. right. apply list_elem_of_here. }
    destruct (FlowKey_ltb k p.1) eqn:E.
    + pose proof (FlowKey_ltb_trans _ _ _ E Hlt) as Hc.
      rewrite FlowKey_ltb_irrefl in Hc. discriminate.
    + apply IH. apply (map_sorted_tail p). exact Hs.
Qed.

(** A sorted map has one node per key. *)
Lemma map_sorted_NoDup (m : FlowEntryMap) : map_sorted m -> NoDup (m.*1).
Proof.
  induction m as [ | p m IH]; intros Hs; simpl; [ constructor | ].
  apply NoDup_cons. split; [ | apply IH, (map_sorted_tail p), Hs ].
  intros Hin. apply list_elem_of_fmap in Hin as (q & Hq1 & Hq).
  pose proof (map_sorted_head_lt p m Hs q Hq) as Hlt.
  rewrite <- Hq1, FlowKey_ltb_irrefl in Hlt. discriminate.
Qed.

Lemma map_sorted_filter (f : FlowKey * addr -> bool) (m : FlowEntryMap) :
  map_sorted m -> map_sorted (List.filter f m).
Proof.
  induction m as [ | p m IH]; intros Hs; [ exact I | ].
  pose proof (map_sorted_head_lt p m Hs) as Hall.
  specialize (IH (map_sorted_tail p m Hs)).
  simpl. destruct (f p); [ | exact IH ].
  simpl. split; [ | exact IH ].
  destruct (List.filter f m) as [ | q m'] eqn:Ef; [ exact I | ].
  apply Hall. apply (elem_List_filter f q m). rewrite Ef. apply list_elem_of_here.
Qed.

(** Erasing keeps the map sorted. *)
Lemma DeleteRevFlow_sorted (k : FlowKey) (rev : bool) (t : FlowTable) :
  map_sorted (flow_entry_map_ t) -> map_sorted (flow_entry_map_ (DeleteRevFlow k rev t)).
Proof.
  intros Hs. unfold DeleteRevFlow.
  destruct (map_find k (flow_entry_map_ t)); [ | exact Hs ].
  destruct rev; [ destruct (reverse_flow (data (heap t a))) | ]; simpl;
    repeat apply map_sorted_filter; exact Hs.
Qed.

Example c5_world_sorted (short : bool) (lmt : Z) :
  map_sorted (flow_entry_map_ (flow_obj (c5_world short lmt))).
Proof. simpl. repeat split. Qed.

(** ** The measure of the loop *)

Lemma filter_length_le (f g : FlowKey * addr -> bool) (m : FlowEntryMap) :
  (forall p, p ∈ m -> f p = true -> g p = true) ->
  (length (List.filter f m) <= length (List.filter g m))%nat.
Proof.
  induction m as [ | p m IH]; simpl; intros Himp; [ lia | ].
  assert (IH' : (length (List.filter f m) <= length (List.filter g m))%nat).
  { apply IH. intros q Hq. apply Himp, list_elem_of_further, Hq. }
  destruct (f p) eqn:Ef.
  - rewrite (Himp p (list_elem_of_here _ _) Ef). simpl. lia.
  - destruct (g p); simpl; lia.
Qed.

Lemma filter_length_lt (f g : FlowKey * addr -> bool) (m : FlowEntryMap)
    (x : FlowKey * addr) :
  (forall p, p ∈ m -> f p = true -> g p = true) ->
  x ∈ m -> f x = false -> g x = true ->
  (length (List.filter f m) < length (List.filter g m))%nat.
Proof.
  induction m as [ | p m IH]; simpl; intros Himp Hx Hfx Hgx; [ inversion Hx | ].
  assert (Hle : (length (List.filter f m) <= length (List.filter g m))%nat).
  { apply filter_length_le. intros q Hq. apply Himp, list_elem_of_further, Hq. }
  apply elem_of_cons in Hx as [<- | Hx].
  - rewrite Hfx, Hgx. simpl. lia.
  - assert (IH' : (length (List.filter f m) < length (List.filter g m))%nat).
    { apply IH; try assumption. intros q Hq. apply Himp, list_elem_of_further, Hq. }
    destruct (f p) eqn:Ef.
    + rewrite (Himp p (list_elem_of_here _ _) Ef). simpl. lia.
    + destruct (g p); simpl; lia.
Qed.

Lemma filter_filter_length_le (f g : FlowKey * addr -> bool) (m : FlowEntryMap) :
  (length (List.filter f (List.filter g m)) <= length (List.filter f m))%nat.
Proof.
  induction m as [ | p m IH]; simpl; [ lia | ].
  destruct (g p); simpl; destruct (f p); simpl; lia.
Qed.

Lemma remaining_filter (it : iterator) (g : FlowKey * addr -> bool) (m : FlowEntryMap) :
  (remaining it (List.filter g m) <= remaining it m)%nat.
Proof.
  destruct it as [k | ]; simpl; [ apply filter_filter_length_le | lia ].
Qed.

Lemma remaining_next (k : FlowKey) (a : addr) (m : FlowEntryMap) :
  (k, a) ∈ m -> (remaining (upper_bound k m) m < remaining (Some k) m)%nat.
Proof.
  intros Hin.
  destruct (upper_bound k m) as [k' | ] eqn:Hub; simpl.
  - apply upper_bound_elem in Hub as [Hlt _].
    apply (filter_length_lt _ _ m (k, a)); simpl.
    + intros p _ Hp. apply negb_true_iff in Hp. apply negb_true_iff.
      destruct (FlowKey_ltb p.1 k) eqn:E; [ | reflexivity ].
      rewrite (FlowKey_ltb_trans _ _ _ E Hlt) in Hp. discriminate.
    + exact Hin.
    + rewrite Hlt. reflexivity.
    + rewrite FlowKey_ltb_irrefl. reflexivity.
  - clear Hub. induction m as [ | p m IH]; [ inversion Hin | ].
    simpl. apply elem_of_cons in Hin as [<- | Hin].
    + simpl. rewrite FlowKey_ltb_irrefl. simpl. lia.
    + specialize (IH Hin). destruct (negb (FlowKey_ltb p.1 k)); simpl; lia.
Qed.

(** ** The table after one turn of the loop *)

Lemma same_links_refl (h : Heap) : same_links h h.
Proof. intros a. repeat split. Qed.


Lemma Run_reconcile_same_links (env : Env) (curr_time : Z) (a : addr)
    (k : vr_flow_entry) (w : World) :
  same_links (heap (flow_obj w)) (heap (flow_obj (Run_reconcile env curr_time a k w))).
Proof.
  rewrite Run_reconcile_heap.
  destruct (negb (bytes (data (heap (flow_obj w) a)) =? flow_bytes (fe_stats k)));
    [ | apply same_links_refl ].
  intros a'. destruct (Nat.eq_dec a' a) as [-> | Hne].
  - rewrite heap_update_eq. repeat split.
  - rewrite heap_update_ne by exact Hne. repeat split.
Qed.

Lemma DeleteRevFlow_map (k : FlowKey) (rev : bool) (t : FlowTable) (a : addr) :
  map_find k (flow_entry_map_ t) = Some a ->
  flow_entry_map_ (DeleteRevFlow k rev t)
    = match rev, reverse_flow (data (heap t a)) with
      | true, Some r => map_erase_entry r (map_erase k (flow_entry_map_ t))
      | _, _ => map_erase k (flow_entry_map_ t)
      end.
Proof.
  intros Hfind. unfold DeleteRevFlow. rewrite Hfind.
  destruct rev; [ | reflexivity ].
  destruct (reverse_flow (data (heap t a))); reflexivity.
Qed.

Lemma wf_map_find (t : FlowTable) (k : FlowKey) (a : addr) :
  FlowTable_wf t -> (k, a) ∈ flow_entry_map_ t ->
  key (heap t a) = k /\ map_find (key (heap t a)) (flow_entry_map_ t) = Some a.
Proof.
  intros [Hnd Hkey] Hin. rewrite (Hkey k a Hin).
  split; [ reflexivity | apply elem_map_find; assumption ].
Qed.

(** The table and the iterator after [Run_visit]. *)
Lemma Run_visit_turn (env : Env) (curr_time : Z) (k : FlowKey) (a : addr)
    (it : iterator) (count : Z) (w : World) :
  FlowTable_wf (flow_obj w) ->
  (k, a) ∈ flow_entry_map_ (flow_obj w) ->
  turn_after a it (flow_obj w)
    (flow_obj (Run_visit env curr_time a it count w).1.1.1)
    (Run_visit env curr_time a it count w).1.1.2.
Proof.
  intros Hwf Hin.
  destruct (wf_map_find _ _ _ Hwf Hin) as [Hk Hfind].
  destruct (Run_visit_cases env curr_time a it count w) as (Hcase & _ & _).
  destruct Hcase as [ r entry H1 H2 H3 | entry H1 H2 | w1 entry w0 H1 Hw1 ].
  - split; [ rewrite DeleteRevFlow_heap; apply same_links_refl | ].
    right. right. exists r. split; [ exact H2 | ]. split; [ | reflexivity ].
    rewrite (DeleteRevFlow_map _ _ _ a Hfind). fold entry. rewrite H2. reflexivity.
  - split; [ rewrite DeleteRevFlow_heap; apply same_links_refl | ].
    right. left. split; [ | split; [ left; exact H2 | reflexivity ] ].
    rewrite (DeleteRevFlow_map _ _ _ a Hfind). reflexivity.
  - assert (Hlinks : same_links (heap (flow_obj w)) (heap (flow_obj w1))).
    { rewrite Hw1. destruct (GetKernelFlowEntry env (flow_handle entry));
        [ apply (Run_reconcile_same_links env curr_time a v w0) | apply same_links_refl ]. }
    assert (Hmap : flow_entry_map_ (flow_obj w1) = flow_entry_map_ (flow_obj w)).
    { rewrite Hw1. destruct (GetKernelFlowEntry env (flow_handle entry));
        [ apply (Run_reconcile_map env curr_time a v w0) | reflexivity ]. }
    destruct (Hlinks a) as (Hkey1 & _ & Hshort1).
    unfold ShortFlow. destruct (short_flow (heap (flow_obj w1) a)) eqn:Hshort.
    + split; [ rewrite DeleteRevFlow_heap; exact Hlinks | ].
      right. left. split; [ | split; [ right; congruence | reflexivity ] ].
      rewrite (DeleteRevFlow_map _ _ _ a); rewrite Hkey1, Hmap; [ reflexivity | exact Hfind ].
    + split; [ exact Hlinks | left; split; [ exact Hmap | reflexivity ] ].
Qed.

(** ** What a turn preserves *)

Lemma in_table_erase (t : FlowTable) (k : FlowKey) (a x : addr) :
  FlowTable_wf t -> (k, a) ∈ flow_entry_map_ t ->
  (exists k', (k', x) ∈ map_erase k (flow_entry_map_ t)) <-> in_table x t /\ x <> a.
Proof.
  intros [Hnd Hkey] Hin. unfold in_table. split.
  - intros (k' & Hx). apply elem_map_erase in Hx as [Hx Hne]. simpl in Hne.
    split; [ exists k'; exact Hx | ].
    intros ->. apply Hne. rewrite <- (Hkey k' a Hx). apply Hkey, Hin.
  - intros [(k' & Hx) Hne]. exists k'. apply elem_map_erase. split; [ exact Hx | ].
    simpl. intros ->. apply Hne.
    pose proof (elem_map_find _ _ _ Hnd Hx) as E1.
    pose proof (elem_map_find _ _ _ Hnd Hin) as E2. congruence.
Qed.

Lemma in_table_erase_entry (m : FlowEntryMap) (r x : addr) :
  (exists k', (k', x) ∈ map_erase_entry r m) <-> (exists k', (k', x) ∈ m) /\ x <> r.
Proof.
  split.
  - intros (k' & Hx). apply elem_map_erase_entry in Hx as [Hx Hne].
    split; [ exists k'; exact Hx | exact Hne ].
  - intros [(k' & Hx) Hne]. exists k'. apply elem_map_erase_entry. split; assumption.
Qed.

(** Which flows are still in the table after a turn. *)
Lemma turn_after_in_table (a : addr) (it : iterator) (t t' : FlowTable)
    (it' : iterator) (k : FlowKey) :
  FlowTable_wf t -> (k, a) ∈ flow_entry_map_ t -> turn_after a it t t' it' ->
  (forall x, in_table x t' <-> in_table x t)
  \/ ((reverse_flow (data (heap t a)) = None \/ short_flow (heap t a) = true)
      /\ forall x, in_table x t' <-> in_table x t /\ x <> a)
  \/ (exists r, reverse_flow (data (heap t a)) = Some r
                /\ forall x, in_table x t' <-> in_table x t /\ x <> a /\ x <> r).
Proof.
  intros Hwf Hin [_ [[Hm _] | [(Hm & Hwhy & _) | (r & Hr & Hm & _)]]].
  - left. intros x. unfold in_table. rewrite Hm. reflexivity.
  - right. left. split; [ exact Hwhy | ]. intros x.
    destruct (wf_map_find _ _ _ Hwf Hin) as [Hk _].
    unfold in_table at 1. rewrite Hm, Hk. apply in_table_erase; assumption.
  - right. right. exists r. split; [ exact Hr | ]. intros x.
    destruct (wf_map_find _ _ _ Hwf Hin) as [Hk _].
    unfold in_table at 1. rewrite Hm, Hk, in_table_erase_entry.
    rewrite (in_table_erase t k a x Hwf Hin). tauto.
Qed.

Lemma turn_after_subset (a : addr) (it : iterator) (t t' : FlowTable)
    (it' : iterator) :
  turn_after a it t t' it' ->
  forall p, p ∈ flow_entry_map_ t' -> p ∈ flow_entry_map_ t.
Proof.
  intros [_ [[Hm _] | [(Hm & _) | (r & _ & Hm & _)]]] p; rewrite Hm.
  - auto.
  - intros H. apply elem_map_erase in H. tauto.
  - intros H. apply elem_map_erase_entry in H as [H _].
    apply elem_map_erase in H. tauto.
Qed.

Lemma turn_after_wf (a : addr) (it : iterator) (t t' : FlowTable) (it' : iterator) :
  FlowTable_wf t -> turn_after a it t t' it' -> FlowTable_wf t'.
Proof.
  intros [Hnd Hkey] Hturn. split.
  - destruct Hturn as [_ [[Hm _] | [(Hm & _) | (r & _ & Hm & _)]]]; rewrite Hm.
    + exact Hnd.
    + apply NoDup_keys_filter, Hnd.
    + apply NoDup_keys_filter, NoDup_keys_filter, Hnd.
  - intros k' x Hx. destruct Hturn as [Hlinks Hrest].
    destruct (Hlinks x) as (-> & _). apply Hkey.
    apply (turn_after_subset a it t t' it' (conj Hlinks Hrest)), Hx.
Qed.

Lemma turn_after_paired (a : addr) (it : iterator) (t t' : FlowTable)
    (it' : iterator) (f g : addr) :
  turn_after a it t t' it' -> paired f g t -> paired f g t'.
Proof.
  intros Hturn (Hf & Hg & Hsf & Hsg & Hof & Hog).
  pose proof (turn_after_subset _ _ _ _ _ Hturn) as Hsub.
  destruct Hturn as [Hlinks _].
  destruct (Hlinks f) as (_ & Hrf & Hshf), (Hlinks g) as (_ & Hrg & Hshg).
  unfold paired. rewrite Hrf, Hrg, Hshf, Hshg.
  repeat (split; [ assumption | ]).
  split.
  - intros c (kc & Hc) Hrev. destruct (Hlinks c) as (_ & Hrc & _).
    apply Hof; [ exists kc; apply Hsub, Hc | congruence ].
  - intros c (kc & Hc) Hrev. destruct (Hlinks c) as (_ & Hrc & _).
    apply Hog; [ exists kc; apply Hsub, Hc | congruence ].
Qed.

(** A flow and its reverse flow leave the table in the same turn, if at all. *)
Lemma turn_after_together (a : addr) (it : iterator) (t t' : FlowTable)
    (it' : iterator) (k : FlowKey) (f g : addr) :
  FlowTable_wf t -> (k, a) ∈ flow_entry_map_ t -> turn_after a it t t' it' ->
  paired f g t ->
  (in_table f t <-> in_table g t) -> (in_table f t' <-> in_table g t').
Proof.
  intros Hwf Hin Hturn (Hf & Hg & Hsf & Hsg & Hof & Hog) Hiff.
  assert (Ha : in_table a t) by (exists k; exact Hin).
  destruct (turn_after_in_table a it t t' it' k Hwf Hin Hturn)
    as [Hsame | [([Hnone | Hshort] & Hone) | (r & Hr & Htwo)]].
  - rewrite !Hsame. exact Hiff.
  - rewrite !Hone.
    assert (f <> a) by (intros ->; congruence).
    assert (g <> a) by (intros ->; congruence). tauto.
  - rewrite !Hone.
    assert (f <> a) by (intros ->; congruence).
    assert (g <> a) by (intros ->; congruence). tauto.
  - rewrite !Htwo.
    destruct (Nat.eq_dec a f) as [-> | Haf].
    + assert (r = g) by congruence. subst r. tauto.
    + destruct (Nat.eq_dec a g) as [-> | Hag].
      * assert (r = f) by congruence. subst r. tauto.
      * assert (f <> r) by (intros ->; apply Hag, Hof; assumption).
        assert (g <> r) by (intros ->; apply Haf, Hog; assumption).
        assert (f <> a) by congruence. assert (g <> a) by congruence. tauto.
Qed.

(** ** The iterator stays valid and the loop makes progress *)

Lemma remaining_le_length (it : iterator) (m : FlowEntryMap) :
  (remaining it m <= length m)%nat.
Proof.
  destruct it as [k | ]; simpl; [ | lia ].
  induction m as [ | p m IH]; simpl; [ lia | ].
  destruct (negb (FlowKey_ltb p.1 k)); simpl; lia.
Qed.

Lemma remaining_erase (it : iterator) (k : FlowKey) (m : FlowEntryMap) :
  (remaining it (map_erase k m) <= remaining it m)%nat.
Proof. apply remaining_filter. Qed.

Lemma remaining_erase_entry (it : iterator) (r : addr) (m : FlowEntryMap) :
  (remaining it (map_erase_entry r m) <= remaining it m)%nat.
Proof. apply remaining_filter. Qed.

Lemma turn_after_iterator (a : addr) (t t' : FlowTable) (it' : iterator)
    (k : FlowKey) :
  FlowTable_wf t -> (k, a) ∈ flow_entry_map_ t ->
  turn_after a (map_next k (flow_entry_map_ t)) t t' it' ->
  valid_it it' (flow_entry_map_ t')
  /\ (remaining it' (flow_entry_map_ t') < remaining (Some k) (flow_entry_map_ t))%nat.
Proof.
  intros Hwf Hin Hturn.
  destruct (wf_map_find _ _ _ Hwf Hin) as [Hk _].
  destruct Hwf as [Hnd Hkey].
  unfold turn_after, map_next in Hturn.
  set (m := flow_entry_map_ t) in *.
  pose proof (remaining_next k a m Hin) as Hnext.
  destruct Hturn as [_ [[Hm ->] | [(Hm & _ & ->) | (r & Hr & Hm & ->)]]]; rewrite Hm.
  - split; [ | exact Hnext ].
    destruct (upper_bound k m) as [k1 | ] eqn:Hub; simpl; [ | exact I ].
    apply upper_bound_elem in Hub as [_ Hex]. exact Hex.
  - rewrite Hk. split.
    + destruct (upper_bound k m) as [k1 | ] eqn:Hub; simpl; [ | exact I ].
      apply upper_bound_elem in Hub as [Hlt (a1 & Ha1)].
      exists a1. apply elem_map_erase. split; [ exact Ha1 | ].
      simpl. intros ->. rewrite FlowKey_ltb_irrefl in Hlt. discriminate.
    + pose proof (remaining_erase (upper_bound k m) k m). lia.
  - rewrite Hk.
    destruct (upper_bound k m) as [k1 | ] eqn:Hub; simpl skip_partner.
    2:{ split; [ exact I | simpl in Hnext |- *; lia ]. }
    pose proof Hub as Hub1.
    apply upper_bound_elem in Hub1 as [Hlt1 (a1 & Ha1)].
    rewrite (elem_map_find k1 a1 m Hnd Ha1).
    assert (Hk1k : k1 <> k).
    { intros ->. rewrite FlowKey_ltb_irrefl in Hlt1. discriminate. }
    destruct (Nat.eqb_spec a1 r) as [-> | Hne].
    + unfold map_next.
      pose proof (remaining_next k1 r m Ha1) as Hnext1.
      split.
      * destruct (upper_bound k1 m) as [k2 | ] eqn:Hub2; simpl; [ | exact I ].
        apply upper_bound_elem in Hub2 as [Hlt2 (a2 & Ha2)].
        exists a2. apply elem_map_erase_entry. split.
        -- apply elem_map_erase. split; [ exact Ha2 | ]. simpl. intros ->.
           pose proof (FlowKey_ltb_trans _ _ _ Hlt1 Hlt2) as Hc.
           rewrite FlowKey_ltb_irrefl in Hc. discriminate.
        -- simpl. intros ->.
           pose proof (Hkey k1 r Ha1). pose proof (Hkey k2 r Ha2).
           assert (E : k2 = k1) by congruence. rewrite E in Hlt2.
           rewrite FlowKey_ltb_irrefl in Hlt2. discriminate.
      * pose proof (remaining_erase_entry (upper_bound k1 m) r (map_erase k m)).
        pose proof (remaining_erase (upper_bound k1 m) k m).
        lia.
    + split.
      * exists a1. apply elem_map_erase_entry. split; [ | exact Hne ].
        apply elem_map_erase. split; [ exact Ha1 | exact Hk1k ].
      * pose proof (remaining_erase_entry (Some k1) r (map_erase k m)).
        pose proof (remaining_erase (Some k1) k m).
        lia.
Qed.

(** ** The whole pass *)

(** A property of the table that every turn of the loop preserves holds when
    the loop ends, and the loop does end: with fuel beyond the nodes that
    remain, [Run_loop] yields a state. *)
Lemma Run_loop_invariant (Inv : FlowTable -> Prop) (env : Env) (curr_time : Z) :
  (forall a it t t' it' k,
      FlowTable_wf t -> (k, a) ∈ flow_entry_map_ t ->
      turn_after a it t t' it' -> Inv t -> Inv t') ->
  forall (fuel : nat) (it : iterator) (count : Z) (w : World),
    FlowTable_wf (flow_obj w) ->
    Inv (flow_obj w) ->
    valid_it it (flow_entry_map_ (flow_obj w)) ->
    (remaining it (flow_entry_map_ (flow_obj w)) < fuel)%nat ->
    exists w' it' count',
      Run_loop fuel env curr_time it count w = Some (w', it', count')
      /\ FlowTable_wf (flow_obj w') /\ Inv (flow_obj w').
Proof.
  intros Hstep.
  induction fuel as [ | fuel IH]; intros it count w Hwf Hinv Hvalid Hfuel; [ lia | ].
  destruct it as [k | ]; simpl.
  2:{ exists w, None, count. split; [ reflexivity | split; assumption ]. }
  destruct Hvalid as (a & Hin).
  rewrite (elem_map_find k a _ (proj1 Hwf) Hin).
  pose proof (Run_visit_turn env curr_time k a
                (map_next k (flow_entry_map_ (flow_obj w))) count w Hwf Hin) as Hturn.
  destruct (Run_visit env curr_time a (map_next k (flow_entry_map_ (flow_obj w))) count w)
    as [[[w' it'] count'] brk]. simpl in Hturn.
  assert (Hwf' : FlowTable_wf (flow_obj w')) by (eapply turn_after_wf; eassumption).
  assert (Hinv' : Inv (flow_obj w'))
    by (apply (Hstep a _ (flow_obj w) (flow_obj w') it' k Hwf Hin Hturn Hinv)).
  destruct brk.
  - exists w', it', count'. split; [ reflexivity | split; assumption ].
  - destruct (turn_after_iterator a _ _ it' k Hwf Hin Hturn) as [Hvalid' Hless].
    apply IH; [ exact Hwf' | exact Hinv' | exact Hvalid' | lia ].
Qed.

Lemma Run_finish_flow_obj (it : iterator) (count : Z) (w : World) :
  flow_obj (Run_finish it count w) = flow_obj w.
Proof. reflexivity. Qed.

(** The same for the whole pass: on a well-formed table [Run] yields a state,
    and what every turn preserves holds of it. *)
Lemma Run_invariant (Inv : FlowTable -> Prop) (env : Env) (w : World) :
  (forall a it t t' it' k,
      FlowTable_wf t -> (k, a) ∈ flow_entry_map_ t ->
      turn_after a it t t' it' -> Inv t -> Inv t') ->
  FlowTable_wf (flow_obj w) ->
  Inv (flow_obj w) ->
  exists w', Run env w = Some w' /\ FlowTable_wf (flow_obj w') /\ Inv (flow_obj w').
Proof.
  intros Hstep Hwf Hinv. unfold Run.
  set (w0 := set_collector _ w).
  change (flow_obj w0) with (flow_obj w).
  destruct (Size (flow_obj w) =? 0).
  - exists w0. split; [ reflexivity | split; assumption ].
  - set (m := flow_entry_map_ (flow_obj w)).
    set (it := match upper_bound (flow_iteration_key_ (collector w0)) m with
               | Some _ => upper_bound (flow_iteration_key_ (collector w0)) m
               | None => map_begin m
               end).
    assert (Hvalid : valid_it it m).
    { subst it. destruct (upper_bound (flow_iteration_key_ (collector w0)) m) as [k | ] eqn:Hub.
      - apply upper_bound_elem in Hub as [_ Hex]. exact Hex.
      - unfold map_begin. destruct m as [ | [k a] m']; simpl; [ exact I | ].
        exists a. apply list_elem_of_here. }
    destruct (Run_loop_invariant Inv env (UTCTimestampUsec env) Hstep
                (S (length m)) it 0 w0)
      as (w' & it' & count' & Hloop & Hwf' & Hinv').
    + exact Hwf.
    + exact Hinv.
    + exact Hvalid.
    + pose proof (remaining_le_length it m). change (flow_obj w0) with (flow_obj w).
      fold m. lia.
    + rewrite Hloop. exists (Run_finish it' count' w').
      split; [ reflexivity | split; assumption ].
Qed.

(** Every aging pass over a well-formed table runs to its end. *)
Lemma Run_total (env : Env) (w : World) :
  FlowTable_wf (flow_obj w) ->
  exists w', Run env w = Some w' /\ FlowTable_wf (flow_obj w').
Proof.
  intros Hwf.
  destruct (Run_invariant (fun _ => True) env w) as (w' & Hrun & Hwf' & _);
    [ auto | exact Hwf | exact I | ].
  exists w'. split; assumption.
Qed.

(** A pass leaves the flow map sorted. *)
Lemma Run_sorted (env : Env) (w : World) :
  FlowTable_wf (flow_obj w) ->
  map_sorted (flow_entry_map_ (flow_obj w)) ->
  exists w', Run env w = Some w' /\ map_sorted (flow_entry_map_ (flow_obj w')).
Proof.
  intros Hwf Hs.
  destruct (Run_invariant (fun t => map_sorted (flow_entry_map_ t)) env w)
    as (w' & Hrun & _ & Hs'); [ | exact Hwf | exact Hs | exists w'; split; assumption ].
  intros a it t t' it' k _ _ [_ [[Hm _] | [(Hm & _) | (r & _ & Hm & _)]]] Hst;
    rewrite Hm; [ exact Hst | | ]; unfold map_erase, map_erase_entry;
    repeat apply map_sorted_filter; exact Hst.
Qed.

(** A pass keeps a flow and its reverse flow together. *)
Lemma Run_pair (env : Env) (w : World) (f g : addr) :
  pair_inv f g (flow_obj w) ->
  exists w', Run env w = Some w' /\ pair_inv f g (flow_obj w').
Proof.
  intros (Hwf & Hpair & Hiff).
  destruct (Run_invariant
              (fun t => paired f g t /\ (in_table f t <-> in_table g t)) env w)
    as (w' & Hrun & Hwf' & Hpair' & Hiff').
  - intros a it t t' it' k Hwft Hin Hturn [Hp Hi]. split.
    + eapply turn_after_paired; eassumption.
    + eapply turn_after_together; eassumption.
  - exact Hwf.
  - split; assumption.
  - exists w'. split; [ exact Hrun | ]. split; [ exact Hwf' | split; assumption ].
Qed.

(** The aging decision for a flow whose reverse flow is [g]. *)
Lemma Run_aged_pair (env : Env) (curr_time : Z) (w : World) (entry : FlowEntry)
    (g : addr) :
  reverse_flow (data entry) = Some g ->
  (Run_aged env curr_time w entry (GetKernelFlowEntry env (flow_handle entry))).1
  = ShouldBeAged (collector w) entry (GetKernelFlowEntry env (flow_handle entry)) curr_time
    && ShouldBeAged (collector w) (heap (flow_obj w) g)
         (GetKernelFlowEntry env (flow_handle (heap (flow_obj w) g))) curr_time.
Proof.
  intros Hrev. unfold Run_aged. rewrite Hrev.
  destruct (ShouldBeAged (collector w) entry _ curr_time); reflexivity.
Qed.

(** One turn at a flow [f] that is not a short flow and whose reverse flow is
    [g]: both leave the map if both pass the should-age test, and nothing
    leaves it otherwise. *)
Lemma Run_visit_paired (env : Env) (curr_time : Z) (kf : FlowKey) (f g : addr)
    (it : iterator) (count : Z) (w : World) :
  FlowTable_wf (flow_obj w) ->
  (kf, f) ∈ flow_entry_map_ (flow_obj w) ->
  reverse_flow (data (heap (flow_obj w) f)) = Some g ->
  short_flow (heap (flow_obj w) f) = false ->
  let F := heap (flow_obj w) f in
  let G := heap (flow_obj w) g in
  let both :=
    ShouldBeAged (collector w) F (GetKernelFlowEntry env (flow_handle F)) curr_time
    && ShouldBeAged (collector w) G (GetKernelFlowEntry env (flow_handle G)) curr_time in
  let m := flow_entry_map_ (flow_obj w) in
  flow_entry_map_ (flow_obj (Run_visit env curr_time f it count w).1.1.1)
    = (if both then map_erase_entry g (map_erase kf m) else m)
  /\ (Run_visit env curr_time f it count w).1.1.2
    = (if both then skip_partner m g it else it).
Proof.
  intros Hwf Hin Hrev Hshort F G both m.
  destruct (wf_map_find _ _ _ Hwf Hin) as [Hk Hfind].
  destruct (Run_visit_cases env curr_time f it count w) as (Hcase & _ & _).
  destruct Hcase as [ r entry H1 H2 H3 | entry H1 H2 | w1 entry w0 H1 Hw1 ].
  - subst entry. assert (r = g) by congruence. subst r.
    assert (Hboth : both = true).
    { subst both F G. rewrite H1, H3. reflexivity. }
    rewrite Hboth. split; [ | reflexivity ].
    rewrite (DeleteRevFlow_map _ _ _ f Hfind), H2, <- Hk. reflexivity.
  - subst entry. congruence.
  - assert (Hboth : both = false).
    { rewrite (Run_aged_pair env curr_time w0 entry g Hrev) in H1. exact H1. }
    rewrite Hboth.
    assert (Hlinks : same_links (heap (flow_obj w)) (heap (flow_obj w1))).
    { rewrite Hw1. destruct (GetKernelFlowEntry env (flow_handle entry));
        [ apply (Run_reconcile_same_links env curr_time f v w0) | apply same_links_refl ]. }
    assert (Hmap : flow_entry_map_ (flow_obj w1) = flow_entry_map_ (flow_obj w)).
    { rewrite Hw1. destruct (GetKernelFlowEntry env (flow_handle entry));
        [ apply (Run_reconcile_map env curr_time f v w0) | reflexivity ]. }
    destruct (Hlinks f) as (_ & _ & Hs).
    unfold ShortFlow. rewrite Hs, Hshort. split; [ exact Hmap | reflexivity ].
Qed.

(** ** Paired aging (C5) *)

(** C5 (amended).  Take a flow table with one node per key, each node stored
    under the key of its flow, and in it two flows F and G that are both in
    the flow map, are each other's reverse flow, are neither marked
    short_flow, and are neither named as reverse flow by a third flow of the
    table.  A turn of the aging loop that visits F in this state removes F and
    G from the flow map together, by the one call [DeleteRevFlow(F.key, true)],
    exactly when F and G both pass the should-age test, and the iterator then
    steps over G if G is the entry it stands at; otherwise the turn removes
    neither and leaves the iterator.  And an aging pass started in this state
    runs to its end and leaves deleted(F) if and only if deleted(G). *)
Theorem C5_paired_aging (env : Env) (w : World) (kf kg : FlowKey) (f g : addr) :
  FlowTable_wf (flow_obj w) ->
  paired f g (flow_obj w) ->
  (kf, f) ∈ flow_entry_map_ (flow_obj w) ->
  (kg, g) ∈ flow_entry_map_ (flow_obj w) ->
  let now := UTCTimestampUsec env in
  let F := heap (flow_obj w) f in
  let G := heap (flow_obj w) g in
  let both :=
    ShouldBeAged (collector w) F (GetKernelFlowEntry env (flow_handle F)) now
    && ShouldBeAged (collector w) G (GetKernelFlowEntry env (flow_handle G)) now in
  let m := flow_entry_map_ (flow_obj w) in
  (forall it count,
     let turn := Run_visit env now f it count w in
     flow_entry_map_ (flow_obj turn.1.1.1)
       = (if both then map_erase_entry g (map_erase kf m) else m)
     /\ turn.1.1.2 = (if both then skip_partner m g it else it)
     /\ (deleted f turn.1.1.1 <-> both = true)
     /\ (deleted g turn.1.1.1 <-> both = true))
  /\ exists w', Run env w = Some w' /\ (deleted f w' <-> deleted g w').
Proof.
  intros Hwf Hpair Hf Hg now F G both m.
  split.
  - intros it count turn.
    destruct Hpair as (Hrf & _ & Hsf & _).
    destruct (Run_visit_paired env now kf f g it count w Hwf Hf Hrf Hsf) as [Hmap Hit].
    fold F G both m turn in Hmap, Hit.
    split; [ exact Hmap | ]. split; [ exact Hit | ].
    unfold deleted, in_table. rewrite Hmap.
    destruct both.
    + split; (split; [ reflexivity | intros _ (k' & Hin) ]);
        apply elem_map_erase_entry in Hin as [Hin Hne]; simpl in Hne.
      * assert (Hx : exists k0, (k0, f) ∈ map_erase kf (flow_entry_map_ (flow_obj w)))
          by (exists k'; exact Hin).
        apply (in_table_erase _ kf f f Hwf Hf) in Hx as [_ Hx]. apply Hx. reflexivity.
      * apply Hne. reflexivity.
    + split; (split; [ intros Hn; exfalso; apply Hn | discriminate ]).
      * exists kf. exact Hf.
      * exists kg. exact Hg.
  - destruct (Run_pair env w f g) as (w' & Hrun & _ & _ & Hiff).
    + split; [ exact Hwf | ]. split; [ exact Hpair | ].
      split; intros _; [ exists kg; exact Hg | exists kf; exact Hf ].
    + exists w'. split; [ exact Hrun | ]. unfold deleted. tauto.
Qed.

Lemma c5_world_wf (short : bool) (lmt : Z) : FlowTable_wf (flow_obj (c5_world short lmt)).
Proof.
  split.
  - simpl. apply NoDup_cons. split.
    + intros Hin. apply list_elem_of_singleton in Hin. discriminate.
    + apply NoDup_singleton.
  - intros k a Hin. simpl in Hin.
    apply elem_of_cons in Hin as [[= -> ->] | Hin]; [ reflexivity | ].
    apply list_elem_of_singleton in Hin as [= -> ->]. reflexivity.
Qed.

Lemma c5_world_paired (lmt : Z) : paired 0%nat 1%nat (flow_obj (c5_world false lmt)).
Proof.
  repeat (split; [ reflexivity | ]).
  split; intros c (k & Hin) Hrev; simpl in Hin;
    apply elem_of_cons in Hin as [[= -> ->] | Hin];
    try (apply list_elem_of_singleton in Hin as [= -> ->]);
    try reflexivity; simpl in Hrev; discriminate.
Qed.

Lemma C5_paired_aging_witness :
  FlowTable_wf (flow_obj (c5_world false 0))
  /\ paired 0%nat 1%nat (flow_obj (c5_world false 0))
  /\ exists w', Run c5_env (c5_world false 0) = Some w'
                /\ (deleted 0%nat w' <-> deleted 1%nat w').
Proof.
  split; [ apply c5_world_wf | ].
  split; [ apply c5_world_paired | ].
  apply (C5_paired_aging c5_env (c5_world false 0) keyA keyB 0%nat 1%nat).
  - apply c5_world_wf.
  - apply c5_world_paired.
  - simpl. apply list_elem_of_here.
  - simpl. apply list_elem_of_further, list_elem_of_here.
Defined.

(** Both flows idle for longer than [age_time]: one pass removes the pair, and
    the first turn already steps over the partner. *)
Example Run_ages_pair :
  (fun w' => flow_entry_map_ (flow_obj w')) <$> Run c5_env (c5_world false 0) = Some []
  /\ (Run_visit c5_env 1000 0%nat (Some keyB) 0 (c5_world false 0)).1.1.2 = None.
Proof. split; vm_compute; reflexivity. Qed.

(** Why the pair must not be named by a third flow: the turn of H removes H
    and G together, and F, not yet eligible, stays behind. *)
Example Run_third_flow :
  (fun w' => flow_entry_map_ (flow_obj w')) <$> Run c5_env c5_world3
    = Some [(keyA, 0%nat)].
Proof. vm_compute. reflexivity. Qed.

(** C5, as stated, fails for a short flow.  F (address 0, marked short_flow)
    and G (address 1) are each other's reverse flow and were both modified at
    the time of the pass, so neither is aging-eligible.  The pass visits both
    (two turns, iterator at the end): F is deleted alone by the short-flow
    shortcut, [DeleteRevFlow(F.key, false)], and G stays. *)
Lemma C5_counterexample :
  reverse_flow (data (heap (flow_obj (c5_world true 1000)) 0%nat)) = Some 1%nat
  /\ in_table 0%nat (flow_obj (c5_world true 1000))
  /\ in_table 1%nat (flow_obj (c5_world true 1000))
  /\ (fun r => (flow_entry_map_ (flow_obj r.1.1), r.1.2, r.2))
       <$> Run_loop 3 c5_env 1000 (Some keyA) 0 (c5_world true 1000)
     = Some ([(keyB, 1%nat)], None, 2)
  /\ exists w', Run c5_env (c5_world true 1000) = Some w'
                /\ deleted 0%nat w' /\ ~ deleted 1%nat w'.
Proof.
  split; [ reflexivity | ].
  split; [ exists keyA; apply list_elem_of_here | ].
  split; [ exists keyB; apply list_elem_of_further, list_elem_of_here | ].
  split; [ vm_compute; reflexivity | ].
  destruct (Run c5_env (c5_world true 1000)) as [w' | ] eqn:Hrun.
  2:{ vm_compute in Hrun. discriminate. }
  exists w'. split; [ reflexivity | ].
  assert (Hmap : flow_entry_map_ (flow_obj w') = [(keyB, 1%nat)]).
  { assert (H : (fun w0 => flow_entry_map_ (flow_obj w0)) <$> Run c5_env (c5_world true 1000)
                = Some [(keyB, 1%nat)]) by (vm_compute; reflexivity).
    rewrite Hrun in H. injection H as H. exact H. }
  unfold deleted, in_table. rewrite Hmap. split.
  - intros (k & Hin). apply list_elem_of_singleton in Hin. discriminate.
  - intros Hn. apply Hn. exists keyB. apply list_elem_of_here.
Qed.

(** ** Export records (C6) *)

Lemma SourceIpOverride_ingress (h : Heap) (flow : FlowEntry) (s : FlowDataIpv4.t) :
  FlowDataIpv4.direction_ing s = Some 1 ->
  FlowDataIpv4.sourceip s = Some (src (key flow)) ->
  let s' := SourceIpOverride h flow s in
  FlowDataIpv4.sourceip s' = Some (exported_sourceip h flow)
  /\ FlowDataIpv4.direction_ing s' = Some 1
  /\ FlowDataIpv4.flowuuid s' = FlowDataIpv4.flowuuid s.
Proof.
  intros Hdir Hsrc. unfold SourceIpOverride, exported_sourceip, FlowDataIpv4.get_direction_ing.
  rewrite Hdir. simpl.
  destruct (nat_ flow); simpl;
    destruct (reverse_flow (data flow)) as [r | ]; simpl; auto.
  destruct (src (key flow) =? dst (key (h r))); simpl; auto.
Qed.

(** C6.  [FlowExport] on a flow with [local_flow] set sends exactly two
    records: the first with [direction_ing = 1], the flow's primary UUID, and
    the source address replaced by the reverse flow's key destination address
    when the flow is NAT-ed and that address differs from the flow's own
    source; the second with [direction_ing = 0] and the flow's [egress_uuid].
    A flow that is not local yields exactly one record: [direction_ing = 1]
    with the same source-address override when the flow is ingress,
    [direction_ing = 0] otherwise. *)
Theorem C6_FlowExport_records (env : Env) (h : Heap) (flow : FlowEntry)
    (diff_bytes diff_pkts : Z) :
  if local_flow flow then
    exists r1 r2,
      FlowExport env h flow diff_bytes diff_pkts = [r1; r2]
      /\ FlowDataIpv4.direction_ing r1 = Some 1
      /\ FlowDataIpv4.flowuuid r1 = Some (to_string env (flow_uuid flow))
      /\ FlowDataIpv4.sourceip r1 = Some (exported_sourceip h flow)
      /\ FlowDataIpv4.direction_ing r2 = Some 0
      /\ FlowDataIpv4.flowuuid r2 = Some (to_string env (egress_uuid flow))
  else
    exists r,
      FlowExport env h flow diff_bytes diff_pkts = [r]
      /\ FlowDataIpv4.flowuuid r = Some (to_string env (flow_uuid flow))
      /\ if ingress (data flow)
         then FlowDataIpv4.direction_ing r = Some 1
              /\ FlowDataIpv4.sourceip r = Some (exported_sourceip h flow)
         else FlowDataIpv4.direction_ing r = Some 0
              /\ FlowDataIpv4.sourceip r = Some (src (key flow)).
Proof.
  unfold FlowExport.
  match goal with
  | |- context [FlowDataIpv4.set_direction_ing 1 ?s] => set (s0 := s)
  end.
  assert (Hsrc : FlowDataIpv4.sourceip s0 = Some (src (key flow))).
  { subst s0.
    destruct (negb (teardown_time flow =? 0)); simpl;
      destruct (reverse_flow (data flow)); simpl;
      destruct (negb (intf_in flow =? kInvalidIndex env)); simpl; try reflexivity;
      destruct (FindInterface env (intf_in flow)) as [intf | ]; simpl; try reflexivity;
      destruct (GetType intf); simpl; try reflexivity;
      destruct (GetVmEntry intf); reflexivity. }
  assert (Huuid : FlowDataIpv4.flowuuid s0 = Some (to_string env (flow_uuid flow))).
  { subst s0.
    destruct (negb (teardown_time flow =? 0)); simpl;
      destruct (reverse_flow (data flow)); simpl;
      destruct (negb (intf_in flow =? kInvalidIndex env)); simpl; try reflexivity;
      destruct (FindInterface env (intf_in flow)) as [intf | ]; simpl; try reflexivity;
      destruct (GetType intf); simpl; try reflexivity;
      destruct (GetVmEntry intf); reflexivity. }
  clearbody s0.
  pose proof (SourceIpOverride_ingress h flow (FlowDataIpv4.set_direction_ing 1 s0)
                eq_refl Hsrc) as (Ho1 & Ho2 & Ho3).
  destruct (local_flow flow).
  - eexists _, _. split; [ reflexivity | ].
    repeat split; try assumption; try reflexivity.
    rewrite Ho3. exact Huuid.
  - eexists. split; [ reflexivity | ].
    destruct (ingress (data flow)).
    + repeat split; try assumption. rewrite Ho3. exact Huuid.
    + repeat split; assumption.
Qed.

(** The NAT scenario of the spec: an ingress flow from 10.0.0.1 whose reverse
    flow is keyed to destination 192.168.1.1 is exported with that address. *)
Example FlowExport_nat_source_override :
  let rev := mkFlowEntry (mkFlowKey 0 3232235777 6 80 1000)
               (mkFlowData 0 0 (Some 0%nat) false "vn2" "vn1") 0 0 0 0
               false false false 2 3 0 in
  let flow := mkFlowEntry (mkFlowKey 167772161 0 6 1000 80)
                (mkFlowData 0 0 (Some 1%nat) true "vn1" "vn2") 0 0 0 0
                true false false 4 5 0 in
  FlowDataIpv4.sourceip <$> FlowExport (env_of 0 (fun _ => None)) (fun _ => rev) flow 0 0
    = [Some 3232235777].
Proof. reflexivity. Qed.

(** ** The exclusion table (C7) *)

Section TaskPolicyFacts.
Import TaskPolicy.
Local Open Scope nat_scope.

Lemma extends_refl s : extends s s.
Proof. intros n i H. exact H. Qed.

Lemma extends_trans s1 s2 s3 : extends s1 s2 -> extends s2 s3 -> extends s1 s3.
Proof. intros H12 H23 n i H. apply H23, H12, H. Qed.

Lemma scheduler_init_wf : TaskScheduler_wf scheduler_init.
Proof.
  split.
  - intros name id H. simpl in H. rewrite lookup_empty in H. discriminate.
  - intros n1 n2 id H. simpl in H. rewrite lookup_empty in H. discriminate.
Qed.

Lemma GetTaskId_spec (name : string) (s : TaskScheduler) :
  TaskScheduler_wf s ->
  TaskScheduler_wf (GetTaskId name s).2
  /\ extends s (GetTaskId name s).2
  /\ id_map_ (GetTaskId name s).2 !! name = Some (GetTaskId name s).1
  /\ policy_ (GetTaskId name s).2 = policy_ s.
Proof.
  intros [Hlt Hinj]. unfold GetTaskId.
  destruct (id_map_ s !! name) as [id | ] eqn:Hl; simpl.
  - split; [ split; assumption | ].
    split; [ apply extends_refl | ].
    split; [ exact Hl | reflexivity ].
  - split; [ split | split; [ | split ] ].
    + intros n i H. simpl in *.
      destruct (decide (name = n)) as [-> | Hne].
      * rewrite lookup_insert_eq in H. injection H as <-. lia.
      * rewrite lookup_insert_ne in H by exact Hne. apply Hlt in H. lia.
    + intros n1 n2 i H1 H2. simpl in H1, H2.
      destruct (decide (name = n1)) as [-> | Hne1];
        destruct (decide (n1 = n2)) as [-> | Hne2]; try reflexivity.
      * rewrite lookup_insert_eq in H1. injection H1 as <-.
        rewrite lookup_insert_ne in H2 by exact Hne2. apply Hlt in H2. lia.
      * destruct (decide (name = n2)) as [-> | Hne3].
        -- rewrite lookup_insert_eq in H2. injection H2 as <-.
           rewrite lookup_insert_ne in H1 by exact Hne1. apply Hlt in H1. lia.
        -- rewrite lookup_insert_ne in H1, H2 by assumption.
           exfalso. apply Hne2. eapply Hinj; eassumption.
    + intros n i H. simpl.
      destruct (decide (name = n)) as [-> | Hne]; [ congruence | ].
      rewrite lookup_insert_ne by exact Hne. exact H.
    + apply lookup_insert_eq.
    + reflexivity.
Qed.

Lemma build_policy_spec (excl : list string) :
  forall (policy : TaskPolicy) (s : TaskScheduler),
    TaskScheduler_wf s ->
    TaskScheduler_wf (build_policy excl policy s).2
    /\ extends s (build_policy excl policy s).2
    /\ policy_ (build_policy excl policy s).2 = policy_ s
    /\ exists ids,
         (build_policy excl policy s).1 = policy ++ (mkTaskExclusion <$> ids)
         /\ Forall2 (fun name i => id_map_ (build_policy excl policy s).2 !! name = Some i)
              excl ids.
Proof.
  induction excl as [ | name rest IH]; intros policy s Hwf; simpl.
  - split; [ exact Hwf | ].
    split; [ apply extends_refl | ].
    split; [ reflexivity | ].
    exists []. split; [ symmetry; apply app_nil_r | constructor ].
  - destruct (GetTaskId_spec name s Hwf) as (Hwf1 & Hext1 & Hid1 & Hpol1).
    destruct (GetTaskId name s) as [task_id s1] eqn:Hg. simpl in *.
    destruct (IH (policy ++ [mkTaskExclusion task_id]) s1 Hwf1)
      as (Hwf2 & Hext2 & Hpol2 & ids & Hids & Hall).
    split; [ exact Hwf2 | ].
    split; [ eapply extends_trans; eassumption | ].
    split; [ congruence | ].
    exists (task_id :: ids). split.
    + rewrite Hids, <- app_assoc. reflexivity.
    + constructor; [ apply Hext2, Hid1 | exact Hall ].
Qed.

Lemma installed_extends (s s' : TaskScheduler) (task : string) (excl : list string) :
  extends s s' ->
  (forall id, id_map_ s !! task = Some id -> policy_ s' !! id = policy_ s !! id) ->
  installed s task excl -> installed s' task excl.
Proof.
  intros Hext Hpol (id & ids & Hid & Hall & Hp).
  exists id, ids. split; [ apply Hext, Hid | ]. split.
  - eapply Forall2_impl; [ exact Hall | ]. intros n i H. apply Hext, H.
  - rewrite (Hpol id Hid). exact Hp.
Qed.

Lemma SetTaskPolicyOne_spec (task : string) (excl : list string) (s : TaskScheduler) :
  TaskScheduler_wf s ->
  TaskScheduler_wf (SetTaskPolicyOne task excl s)
  /\ extends s (SetTaskPolicyOne task excl s)
  /\ installed (SetTaskPolicyOne task excl s) task excl
  /\ (forall i, id_map_ (SetTaskPolicyOne task excl s) !! task <> Some i ->
                policy_ (SetTaskPolicyOne task excl s) !! i = policy_ s !! i).
Proof.
  intros Hwf. unfold SetTaskPolicyOne.
  destruct (build_policy_spec excl [] s Hwf) as (Hwf1 & Hext1 & Hpol1 & ids & Hids & Hall).
  destruct (build_policy excl [] s) as [policy s1]. simpl in *.
  destruct (GetTaskId_spec task s1 Hwf1) as (Hwf2 & Hext2 & Hid2 & Hpol2).
  destruct (GetTaskId task s1) as [task_id s2]. simpl in *.
  split; [ exact Hwf2 | ].
  split; [ eapply extends_trans; eassumption | ].
  split.
  - exists task_id, ids. simpl. split; [ exact Hid2 | ]. split.
    + eapply Forall2_impl; [ exact Hall | ]. intros n i H. apply Hext2, H.
    + rewrite lookup_insert_eq, Hids. reflexivity.
  - simpl. intros i Hne.
    rewrite lookup_insert_ne by congruence. congruence.
Qed.

Lemma SetTaskPolicyOne_keeps (task : string) (excl : list string) (s : TaskScheduler)
    (task0 : string) (excl0 : list string) :
  TaskScheduler_wf s -> task0 <> task ->
  installed s task0 excl0 -> installed (SetTaskPolicyOne task excl s) task0 excl0.
Proof.
  intros Hwf Hne Hinst.
  destruct (SetTaskPolicyOne_spec task excl s Hwf) as (Hwf' & Hext & _ & Hother).
  apply (installed_extends s); [ exact Hext | | exact Hinst ].
  intros id Hid. apply Hother. intros Hid'.
  apply Hne. destruct Hwf' as [_ Hinj].
  eapply Hinj; [ apply Hext, Hid | exact Hid' ].
Qed.

(** C7.  [Agent::SetAgentTaskPolicy] installs exactly the exclusion table of
    the spec and nothing else: each of the six classes [db::DBTable],
    [Agent::FlowHandler], [sandesh::RecvQueue], [bgp::Config],
    [xmpp::StateMachine] and [Agent::KSync] ends up with the policy listing
    the ids of exactly the classes the table gives for it, the policy of every
    other class id is left as it was, and distinct class names keep distinct
    ids. *)
Theorem C7_SetAgentTaskPolicy_table (s : TaskScheduler) :
  TaskScheduler_wf s ->
  let s' := SetAgentTaskPolicy s in
  Forall (fun row => installed s' row.1 row.2) spec_policy_table
  /\ (forall i,
        (forall row, row ∈ spec_policy_table -> id_map_ s' !! row.1 <> Some i) ->
        policy_ s' !! i = policy_ s !! i)
  /\ TaskScheduler_wf s'
  /\ extends s s'.
Proof.
  intros Hwf0 s'. subst s'. unfold SetAgentTaskPolicy.
  set (s1 := SetTaskPolicyOne "db::DBTable" db_exclude_list s).
  set (s2 := SetTaskPolicyOne "Agent::FlowHandler" flow_exclude_list s1).
  set (s3 := SetTaskPolicyOne "sandesh::RecvQueue" sandesh_exclude_list s2).
  set (s4 := SetTaskPolicyOne "bgp::Config" xmpp_config_exclude_list s3).
  set (s5 := SetTaskPolicyOne "xmpp::StateMachine" xmpp_state_machine_exclude_list s4).
  set (s6 := SetTaskPolicyOne "Agent::KSync" ksync_exclude_list s5).
  destruct (SetTaskPolicyOne_spec "db::DBTable" db_exclude_list s Hwf0)
    as (Hwf1 & He1 & Hi1 & Ho1). fold s1 in Hwf1, He1, Hi1, Ho1.
  destruct (SetTaskPolicyOne_spec "Agent::FlowHandler" flow_exclude_list s1 Hwf1)
    as (Hwf2 & He2 & Hi2 & Ho2). fold s2 in Hwf2, He2, Hi2, Ho2.
  destruct (SetTaskPolicyOne_spec "sandesh::RecvQueue" sandesh_exclude_list s2 Hwf2)
    as (Hwf3 & He3 & Hi3 & Ho3). fold s3 in Hwf3, He3, Hi3, Ho3.
  destruct (SetTaskPolicyOne_spec "bgp::Config" xmpp_config_exclude_list s3 Hwf3)
    as (Hwf4 & He4 & Hi4 & Ho4). fold s4 in Hwf4, He4, Hi4, Ho4.
  destruct (SetTaskPolicyOne_spec "xmpp::StateMachine" xmpp_state_machine_exclude_list
              s4 Hwf4) as (Hwf5 & He5 & Hi5 & Ho5). fold s5 in Hwf5, He5, Hi5, Ho5.
  destruct (SetTaskPolicyOne_spec "Agent::KSync" ksync_exclude_list s5 Hwf5)
    as (Hwf6 & He6 & Hi6 & Ho6). fold s6 in Hwf6, He6, Hi6, Ho6.
  assert (He46 : extends s4 s6) by (eapply extends_trans; eassumption).
  assert (He36 : extends s3 s6) by (eapply extends_trans; eassumption).
  assert (He26 : extends s2 s6) by (eapply extends_trans; eassumption).
  assert (He16 : extends s1 s6) by (eapply extends_trans; eassumption).
  split; [ | split; [ | split; [ exact Hwf6 | eapply extends_trans; eassumption ] ] ].
  - unfold spec_policy_table.
    repeat apply Forall_cons_2; try apply Forall_nil_2; simpl.
    + apply SetTaskPolicyOne_keeps; [ assumption | discriminate | ].
      apply SetTaskPolicyOne_keeps; [ assumption | discriminate | ].
      apply SetTaskPolicyOne_keeps; [ assumption | discriminate | ].
      apply SetTaskPolicyOne_keeps; [ assumption | discriminate | ].
      apply SetTaskPolicyOne_keeps; [ assumption | discriminate | ].
      exact Hi1.
    + apply SetTaskPolicyOne_keeps; [ assumption | discriminate | ].
      apply SetTaskPolicyOne_keeps; [ assumption | discriminate | ].
      apply SetTaskPolicyOne_keeps; [ assumption | discriminate | ].
      apply SetTaskPolicyOne_keeps; [ assumption | discriminate | ].
      exact Hi2.
    + apply SetTaskPolicyOne_keeps; [ assumption | discriminate | ].
      apply SetTaskPolicyOne_keeps; [ assumption | discriminate | ].
      apply SetTaskPolicyOne_keeps; [ assumption | discriminate | ].
      exact Hi3.
    + apply SetTaskPolicyOne_keeps; [ assumption | discriminate | ].
      apply SetTaskPolicyOne_keeps; [ assumption | discriminate | ].
      exact Hi4.
    + apply SetTaskPolicyOne_keeps; [ assumption | discriminate | ].
      exact Hi5.
    + exact Hi6.
  - intros i Hi.
    assert (H6 : id_map_ s6 !! "Agent::KSync" <> Some i)
      by (apply (Hi ("Agent::KSync"%string, ksync_exclude_list)); unfold spec_policy_table; repeat constructor).
    assert (H5 : id_map_ s6 !! "xmpp::StateMachine" <> Some i)
      by (apply (Hi ("xmpp::StateMachine"%string, xmpp_state_machine_exclude_list)); unfold spec_policy_table; repeat constructor).
    assert (H4 : id_map_ s6 !! "bgp::Config" <> Some i)
      by (apply (Hi ("bgp::Config"%string, xmpp_config_exclude_list)); unfold spec_policy_table; repeat constructor).
    assert (H3 : id_map_ s6 !! "sandesh::RecvQueue" <> Some i)
      by (apply (Hi ("sandesh::RecvQueue"%string, sandesh_exclude_list)); unfold spec_policy_table; repeat constructor).
    assert (H2 : id_map_ s6 !! "Agent::FlowHandler" <> Some i)
      by (apply (Hi ("Agent::FlowHandler"%string, flow_exclude_list)); unfold spec_policy_table; repeat constructor).
    assert (H1 : id_map_ s6 !! "db::DBTable" <> Some i)
      by (apply (Hi ("db::DBTable"%string, db_exclude_list)); unfold spec_policy_table; repeat constructor).
    rewrite Ho6 by exact H6.
    rewrite Ho5 by (intros H; apply H5, He6, H).
    rewrite Ho4 by (intros H; apply H4, He46, H).
    rewrite Ho3 by (intros H; apply H3, He36, H).
    rewrite Ho2 by (intros H; apply H2, He26, H).
    rewrite Ho1 by (intros H; apply H1, He16, H).
    reflexivity.
Qed.

Lemma C7_SetAgentTaskPolicy_table_witness :
  TaskScheduler_wf scheduler_init /\
  Forall (fun row => installed (SetAgentTaskPolicy scheduler_init) row.1 row.2)
    spec_policy_table.
Proof.
  split; [ exact scheduler_init_wf | ].
  apply (C7_SetAgentTaskPolicy_table scheduler_init scheduler_init_wf).
Defined.

End TaskPolicyFacts.

(** Starting from an empty scheduler the ids are allotted in order of first
    mention, and the six policies come out as follows. *)
Example SetAgentTaskPolicy_from_init :
  let s := TaskPolicy.SetAgentTaskPolicy TaskPolicy.scheduler_init in
  (fun name => TaskPolicy.id_map_ s !! name) <$>
    ["db::DBTable"; "Agent::FlowHandler"; "sandesh::RecvQueue"; "bgp::Config";
     "xmpp::StateMachine"; "Agent::KSync"]%string
    = Some <$> [7; 0; 3; 9; 8; 6]%nat
  /\ (fun i => TaskPolicy.policy_ s !! i) <$> [7; 0; 3; 9; 8; 6; 1; 2; 4; 5]%nat
    = [Some (TaskPolicy.mkTaskExclusion <$> [0; 1; 2; 3; 4; 5; 6]%nat);
       Some (TaskPolicy.mkTaskExclusion <$> [2; 4]%nat);
       Some (TaskPolicy.mkTaskExclusion <$> [7; 0; 1; 2; 4]%nat);
       Some (TaskPolicy.mkTaskExclusion <$> [0; 1; 2; 3; 4; 8; 7]%nat);
       Some (TaskPolicy.mkTaskExclusion <$> [4; 7]%nat);
       Some (TaskPolicy.mkTaskExclusion <$> [0; 2; 7]%nat);
       None; None; None; None].
Proof. split; vm_compute; reflexivity. Qed.

(** ** The VRF delete timer (C8) *)

Section VrfFacts.
Import Vrf.

(** Once the delete timer is stopped and the process runs, no later event
    ends the process. *)
Lemma handle_all_stopped (evs : list event) :
  forall (vrf : VrfEntry) (t : VrfTable) (p : Process) (tm : Timer),
    delete_timeout_timer_ vrf = Some tm -> timer_running tm = None ->
    aborted p = false ->
    aborted (handle_all evs (vrf, t, p)).2 = false.
Proof.
  induction evs as [ | ev evs IH]; intros vrf t p tm Htm Hrun Hp; simpl.
  - exact Hp.
  - unfold handle_all in IH |- *. simpl. rewrite Hp.
    destruct ev.
    + rewrite Htm, Hrun. eapply IH; eassumption.
    + unfold OnZeroRefcount, CancelDeleteTimer. rewrite Htm.
      destruct (IsDeleted vrf).
      * eapply IH; [ reflexivity | reflexivity | exact Hp ].
      * eapply IH; eassumption.
Qed.

(** C8.  [VrfTable::Delete] marks the entry's lifetime actor pending and starts
    the delete timer with the bound [kDeleteTimeout].  If the timer comes due
    before the entry retires, [VrfEntry::DeleteTimeout] traces the unicast,
    multicast and layer-2 route counts and the reference count and the process
    aborts.  If the entry retires first ([OnZeroRefcount] on the deleted
    entry), the timer is cancelled, and no later event aborts the process. *)
Theorem C8_delete_timer (kDeleteTimeout : Z) (vrf : VrfEntry) (t : VrfTable)
    (p : Process) :
  aborted p = false ->
  let vrf1 := (VrfTable_Delete kDeleteTimeout vrf p).1 in
  let p1 := (VrfTable_Delete kDeleteTimeout vrf p).2 in
  let fired := handle TimerDue (vrf1, t, p1) in
  let retired := handle ZeroRefcount (set_IsDeleted true vrf1, t, p1) in
  delete_pending (deleter_ vrf1) = true
  /\ delete_timeout_timer_ vrf1 = Some (mkTimer "VrfDeleteTimer" (Some kDeleteTimeout))
  /\ aborted p1 = false
  /\ aborted fired.2 = true
  /\ oper_trace fired.2
     = oper_trace p ++
       [(("VRF delete failed, "
          +:+ "Unicast routes: " +:+ pretty (rt_Size (rt_table_db_ vrf INET4_UNICAST))
          +:+ " Mutlicast routes: " +:+ pretty (rt_Size (rt_table_db_ vrf INET4_MULTICAST))
          +:+ " Layer2 routes: " +:+ pretty (rt_Size (rt_table_db_ vrf LAYER2))
          +:+ " Reference: " +:+ pretty (GetRefCount vrf))%string,
         name_ vrf)]
  /\ delete_timeout_timer_ retired.1.1 = Some (mkTimer "VrfDeleteTimer" None)
  /\ aborted retired.2 = false
  /\ forall evs, aborted (handle_all evs retired).2 = false.
Proof.
  intros Hp vrf1 p1 fired retired.
  subst vrf1 p1 fired retired. unfold VrfTable_Delete. simpl. rewrite Hp. simpl.
  repeat (split; [ reflexivity | ]).
  split; [ exact Hp | ].
  intros evs.
  eapply handle_all_stopped; [ reflexivity | reflexivity | exact Hp ].
Qed.

Lemma C8_delete_timer_witness :
  aborted c8_proc = false /\
  aborted (handle TimerDue ((VrfTable_Delete 30000 c8_vrf c8_proc).1, c8_table,
                            (VrfTable_Delete 30000 c8_vrf c8_proc).2)).2 = true /\
  aborted (handle_all [TimerDue; ZeroRefcount; TimerDue]
             (handle ZeroRefcount
                (set_IsDeleted true (VrfTable_Delete 30000 c8_vrf c8_proc).1, c8_table,
                 (VrfTable_Delete 30000 c8_vrf c8_proc).2))).2 = false.
Proof.
  pose proof (C8_delete_timer 30000 c8_vrf c8_table c8_proc eq_refl)
    as (_ & _ & _ & Hfired & _ & _ & _ & Hlater).
  split; [ reflexivity | ].
  split; [ exact Hfired | apply Hlater ].
Defined.

(** The trace line for an entry with 3 unicast routes, 1 multicast route, no
    layer-2 route and 2 references. *)
Example DeleteTimeout_trace :
  oper_trace (DeleteTimeout c8_vrf c8_proc)
    = [("VRF delete failed, Unicast routes: 3 Mutlicast routes: 1 Layer2 routes: 0 Reference: 2",
        "vrf-a")]%string
  /\ aborted (DeleteTimeout c8_vrf c8_proc) = true.
Proof. split; vm_compute; reflexivity. Qed.

(** ** The pending-delete gate (C9) *)

(** C9.  A request (ADD_OR_UPDATE or DELETE) whose key resolves to an entry
    that is deleted but not yet retired makes [VrfTable::Input] return without
    calling the base-class input: whatever the base class would do, the table
    is left as it was and only a trace line is written; [VrfTable::CanNotify]
    answers [false] for such an entry and leaves the table alone. *)
Theorem C9_pending_delete_gate (AgentDBTable_Input : DBRequest -> State -> State)
    (req : DBRequest) (s : State) (e : VrfEntry) :
  entries (table s) !! key req = Some e ->
  IsDeleted e = true ->
  Input AgentDBTable_Input req s
    = mkState (table s)
        (OPER_TRACE "VRF pending delete, Ignoring DB operation for " (GetName e) (proc s))
  /\ table (Input AgentDBTable_Input req s) = table s
  /\ (CanNotify (key req) s).1 = false
  /\ table (CanNotify (key req) s).2 = table s.
Proof.
  intros Hfind Hdel. unfold Input, CanNotify. rewrite Hfind, Hdel. simpl.
  repeat split; reflexivity.
Qed.

Lemma C9_pending_delete_gate_witness :
  entries (table c9_state) !! "vrf-a"%string = Some (set_IsDeleted true c8_vrf) /\
  table (Input c9_base (mkDBRequest DB_ENTRY_ADD_CHANGE "vrf-a") c9_state) = table c9_state /\
  table (Input c9_base (mkDBRequest DB_ENTRY_DELETE "vrf-a") c9_state) = table c9_state /\
  (CanNotify "vrf-a" c9_state).1 = false.
Proof.
  assert (Hfind : entries (table c9_state) !! "vrf-a"%string = Some (set_IsDeleted true c8_vrf))
    by (simpl; apply lookup_singleton_eq).
  split; [ exact Hfind | ].
  split; [ | split ].
  - apply (C9_pending_delete_gate c9_base (mkDBRequest DB_ENTRY_ADD_CHANGE "vrf-a")
             c9_state _ Hfind eq_refl).
  - apply (C9_pending_delete_gate c9_base (mkDBRequest DB_ENTRY_DELETE "vrf-a")
             c9_state _ Hfind eq_refl).
  - apply (C9_pending_delete_gate c9_base (mkDBRequest DB_ENTRY_DELETE "vrf-a")
             c9_state _ Hfind eq_refl).
Defined.

(** For an entry that is not pending delete the request does reach the base
    class. *)
Lemma Input_live_entry (AgentDBTable_Input : DBRequest -> State -> State)
    (req : DBRequest) (s : State) :
  (forall e, entries (table s) !! key req = Some e -> IsDeleted e = false) ->
  Input AgentDBTable_Input req s = AgentDBTable_Input req s.
Proof.
  intros Hlive. unfold Input.
  destruct (entries (table s) !! key req) as [e | ] eqn:Hfind; [ | reflexivity ].
  rewrite (Hlive e eq_refl). reflexivity.
Qed.

(** ** The lifetime actor (C10) *)


(** An entry with three unicast routes, marked pending: no retirement while
    two references are out, retirement once none is. *)
Example LifetimeManager_retire_refcount :
  let pending refs :=
    mkVrfEntry "vrf-a" 1 (mkDeleteActor true) (rt_table_db_ c8_vrf) None true refs in
  rt_Size (rt_table_db_ (pending 0) INET4_UNICAST) = 3
  /\ LifetimeManager_retire (pending 2) c8_proc = None
  /\ object_log <$> LifetimeManager_retire (pending 0) c8_proc
     = Some [mkVrfObjectLogInfo "Deletion " "vrf-a" 1].
Proof. repeat split; reflexivity. Qed.

Example MayDelete_with_routes :
  rt_Size (rt_table_db_ c8_vrf INET4_UNICAST) = 3 /\ MayDelete c8_vrf = true.
Proof. split; reflexivity. Qed.

End VrfFacts.

(** ** What a pass does beyond aging *)

Lemma sublist_List_filter (f : FlowKey * addr -> bool) (m : FlowEntryMap) :
  sublist (List.filter f m) m.
Proof.
  induction m as [ | p m IH]; simpl; [ constructor | ].
  destruct (f p); [ apply sublist_skip | apply sublist_cons ]; exact IH.
Qed.

Lemma turn_after_sublist (a : addr) (it : iterator) (t t' : FlowTable)
    (it' : iterator) :
  turn_after a it t t' it' -> sublist (flow_entry_map_ t') (flow_entry_map_ t).
Proof.
  intros [_ [[Hm _] | [(Hm & _) | (r & _ & Hm & _)]]]; rewrite Hm.
  - reflexivity.
  - apply sublist_List_filter.
  - etrans; apply sublist_List_filter.
Qed.



(** The collector after a turn: only the iteration key has moved. *)
Lemma Run_visit_collector (env : Env) (curr_time : Z) (a : addr) (it : iterator)
    (count : Z) (w : World) :
  collector (Run_visit env curr_time a it count w).1.1.1
    = set_flow_iteration_key_ (key (heap (flow_obj w) a)) (collector w).
Proof.
  unfold Run_visit.
  set (entry := heap (flow_obj w) a).
  set (w0 := set_collector (set_flow_iteration_key_ (key entry) (collector w)) w).
  destruct (Run_aged env curr_time w0 entry (GetKernelFlowEntry env (flow_handle entry)))
    as [deleted reverse_flow].
  destruct deleted.
  - destruct reverse_flow; simpl;
      repeat match goal with |- context [if ?b then _ else _] => destruct b end;
      reflexivity.
  - set (w1 := match GetKernelFlowEntry env (flow_handle entry) with
               | Some k => Run_reconcile env curr_time a k w0
               | None => w0
               end).
    assert (Hc1 : collector w1 = collector w0).
    { subst w1. destruct (GetKernelFlowEntry env (flow_handle entry));
        [ apply Run_reconcile_collector | reflexivity ]. }
    destruct (ShortFlow (heap (flow_obj w1) a)); simpl; rewrite Hc1; reflexivity.
Qed.

(** A property of the world that every turn of the loop preserves holds when
    the loop ends. *)
Lemma Run_loop_world_invariant (Inv : World -> Prop) (env : Env) (curr_time : Z) :
  (forall a it count w k,
      FlowTable_wf (flow_obj w) -> (k, a) ∈ flow_entry_map_ (flow_obj w) ->
      Inv w -> Inv (Run_visit env curr_time a it count w).1.1.1) ->
  forall (fuel : nat) (it : iterator) (count : Z) (w : World),
    FlowTable_wf (flow_obj w) ->
    Inv w ->
    valid_it it (flow_entry_map_ (flow_obj w)) ->
    (remaining it (flow_entry_map_ (flow_obj w)) < fuel)%nat ->
    exists w' it' count',
      Run_loop fuel env curr_time it count w = Some (w', it', count')
      /\ FlowTable_wf (flow_obj w') /\ Inv w'.
Proof.
  intros Hstep.
  induction fuel as [ | fuel IH]; intros it count w Hwf Hinv Hvalid Hfuel; [ lia | ].
  destruct it as [k | ]; simpl.
  2:{ exists w, None, count. split; [ reflexivity | split; assumption ]. }
  destruct Hvalid as (a & Hin).
  rewrite (elem_map_find k a _ (proj1 Hwf) Hin).
  pose proof (Run_visit_turn env curr_time k a
                (map_next k (flow_entry_map_ (flow_obj w))) count w Hwf Hin) as Hturn.
  pose proof (Hstep a (map_next k (flow_entry_map_ (flow_obj w))) count w k Hwf Hin Hinv)
    as Hinv'.
  destruct (Run_visit env curr_time a (map_next k (flow_entry_map_ (flow_obj w))) count w)
    as [[[w' it'] count'] brk]. simpl in Hturn, Hinv'.
  assert (Hwf' : FlowTable_wf (flow_obj w')) by (eapply turn_after_wf; eassumption).
  destruct brk.
  - exists w', it', count'. split; [ reflexivity | split; assumption ].
  - destruct (turn_after_iterator a _ _ it' k Hwf Hin Hturn) as [Hvalid' Hless].
    apply IH; [ exact Hwf' | exact Hinv' | exact Hvalid' | lia ].
Qed.

(** [Run] on a table that is not empty: the loop, then [Run_finish]. *)
Lemma Run_world_invariant (Inv : World -> Prop) (env : Env) (w : World) :
  (forall a it count w k,
      FlowTable_wf (flow_obj w) -> (k, a) ∈ flow_entry_map_ (flow_obj w) ->
      Inv w -> Inv (Run_visit env (UTCTimestampUsec env) a it count w).1.1.1) ->
  FlowTable_wf (flow_obj w) ->
  Size (flow_obj w) <> 0 ->
  Inv (set_collector (set_run_counter_ (run_counter_ (collector w) + 1) (collector w)) w) ->
  exists w1 it' count',
    Run env w = Some (Run_finish it' count' w1)
    /\ FlowTable_wf (flow_obj w1) /\ Inv w1.
Proof.
  intros Hstep Hwf Hsize Hinv. unfold Run.
  set (w0 := set_collector _ w) in *.
  change (flow_obj w0) with (flow_obj w).
  destruct (Z.eqb_spec (Size (flow_obj w)) 0) as [E | _]; [ contradiction | ].
  set (m := flow_entry_map_ (flow_obj w)).
  set (it := match upper_bound (flow_iteration_key_ (collector w0)) m with
             | Some _ => upper_bound (flow_iteration_key_ (collector w0)) m
             | None => map_begin m
             end).
  assert (Hvalid : valid_it it m).
  { subst it. destruct (upper_bound (flow_iteration_key_ (collector w0)) m) as [k | ] eqn:Hub.
    - apply upper_bound_elem in Hub as [_ Hex]. exact Hex.
    - unfold map_begin. destruct m as [ | [k a] m']; simpl; [ exact I | ].
      exists a. apply list_elem_of_here. }
  destruct (Run_loop_world_invariant Inv env (UTCTimestampUsec env) Hstep
              (S (length m)) it 0 w0)
    as (w' & it' & count' & Hloop & Hwf' & Hinv').
  - exact Hwf.
  - exact Hinv.
  - exact Hvalid.
  - pose proof (remaining_le_length it m). change (flow_obj w0) with (flow_obj w).
    fold m. lia.
  - rewrite Hloop. exists w', it', count'. split; [ reflexivity | split; assumption ].
Qed.

(** X2.  Adaptive pacing after a pass over a well-formed, non-empty table: the
    per-pass quota is never below 100; the timer interval is at most 1000 ms
    while flows remain and falls back to the configured default interval when
    the pass has emptied the table; the configured age time, multiplier and
    default interval are left alone. *)
Theorem Run_pacing_bounds (env : Env) (w : World) :
  FlowTable_wf (flow_obj w) ->
  0 < Size (flow_obj w) < 2 ^ 32 ->
  exists w',
    Run env w = Some w'
    /\ 100 <= flow_count_per_pass_ (collector w')
    /\ (if Size (flow_obj w') =? 0
        then expiry_time_ (collector w') = flow_default_interval_ (collector w)
        else expiry_time_ (collector w') <= 1000)
    /\ flow_age_time_intvl_ (collector w') = flow_age_time_intvl_ (collector w)
    /\ flow_multiplier_ (collector w') = flow_multiplier_ (collector w)
    /\ flow_default_interval_ (collector w') = flow_default_interval_ (collector w).
Proof.
  intros Hwf Hsize.
  destruct (Run_world_invariant
              (fun w1 =>
                 sublist (flow_entry_map_ (flow_obj w1)) (flow_entry_map_ (flow_obj w))
                 /\ flow_age_time_intvl_ (collector w1) = flow_age_time_intvl_ (collector w)
                 /\ flow_multiplier_ (collector w1) = flow_multiplier_ (collector w)
                 /\ flow_default_interval_ (collector w1)
                    = flow_default_interval_ (collector w))
              env w)
    as (w1 & it' & count' & Hrun & Hwf1 & Hsub & Hage & Hmul & Hdef).
  - intros a it count w1 k Hwf1 Hin (Hs & Ha & Hm & Hd).
    rewrite Run_visit_collector. simpl.
    split; [ | auto ].
    etrans; [ | exact Hs ].
    eapply turn_after_sublist. eapply Run_visit_turn; eassumption.
  - exact Hwf.
  - lia.
  - simpl. split; [ reflexivity | auto ].
  - exists (Run_finish it' count' w1). split; [ exact Hrun | ].
    assert (Hsz : 0 <= Size (flow_obj w1) < 2 ^ 32).
    { unfold Size in *. apply sublist_length in Hsub. lia. }
    unfold Run_finish. set (c := collector w1) in *.
    set (c1 := if (if count' =? flow_count_per_pass_ c
                   then if it' is Some _ then false else true else true)
               then set_flow_iteration_key_ FlowKey_Reset c else c).
    assert (Hc1 : GetFlowAgeTime c1 = GetFlowAgeTime c
                  /\ flow_multiplier_ c1 = flow_multiplier_ c
                  /\ flow_default_interval_ c1 = flow_default_interval_ c).
    { subst c1. destruct (if count' =? flow_count_per_pass_ c
                          then if it' is Some _ then false else true else true);
        repeat split. }
    destruct Hc1 as (Hc1a & Hc1m & Hc1d).
    assert (Hw : wrap32 (Size (flow_obj w1)) = Size (flow_obj w1))
      by (apply Z.mod_small; lia).
    rewrite !Hw.
    change (flow_obj (set_collector _ w1)) with (flow_obj w1).
    assert (Ha : flow_age_time_intvl_ c1 = flow_age_time_intvl_ (collector w))
      by (unfold GetFlowAgeTime in Hc1a; congruence).
    assert (Hm : flow_multiplier_ c1 = flow_multiplier_ (collector w)) by congruence.
    assert (Hd : flow_default_interval_ c1 = flow_default_interval_ (collector w))
      by congruence.
    destruct (Z.eqb_spec (Size (flow_obj w1)) 0) as [E0 | Hn0].
    + rewrite E0. simpl (0 >? 0).
      destruct (wrap32 (GetFlowAgeTime c1 / 1000) >? 0); simpl;
        (split; [ first [ apply Z.le_max_r | lia ] | ]);
        (split; [ exact Hd | ]); (split; [ exact Ha | ]); split; assumption.
    + destruct (Z.gtb_spec (Size (flow_obj w1)) 0) as [Hpos | Hneg]; [ | lia ].
      destruct (wrap32 (GetFlowAgeTime c1 / 1000) >? 0); simpl;
        (split; [ first [ apply Z.le_max_r | lia ] | ]);
        (split; [ apply Z.le_min_r | ]); (split; [ exact Ha | ]); split; assumption.
Qed.

Lemma Run_pacing_bounds_witness :
  FlowTable_wf (flow_obj (c5_world true 1000))
  /\ exists w', Run c5_env (c5_world true 1000) = Some w'
                /\ 100 <= flow_count_per_pass_ (collector w').
Proof.
  split; [ apply c5_world_wf | ].
  destruct (Run_pacing_bounds c5_env (c5_world true 1000) (c5_world_wf true 1000))
    as (w' & Hrun & Hquota & _).
  - vm_compute. split; reflexivity.
  - exists w'. split; assumption.
Defined.

(** X3.  A turn of the loop removes nothing but the flow it visits and, possibly,
    that flow's reverse flow; and it removes nothing at all when the visited
    flow neither passes the should-age test nor is a short flow. *)
Theorem Run_visit_removes_only (env : Env) (curr_time : Z) (k : FlowKey) (a : addr)
    (it : iterator) (count : Z) (w : World) :
  FlowTable_wf (flow_obj w) ->
  (k, a) ∈ flow_entry_map_ (flow_obj w) ->
  let entry := heap (flow_obj w) a in
  let t' := flow_obj (Run_visit env curr_time a it count w).1.1.1 in
  (forall x, in_table x (flow_obj w) -> x <> a ->
             reverse_flow (data entry) <> Some x -> in_table x t')
  /\ (ShouldBeAged (collector w) entry (GetKernelFlowEntry env (flow_handle entry))
        curr_time = false ->
      ShortFlow entry = false ->
      flow_entry_map_ t' = flow_entry_map_ (flow_obj w)).
Proof.
  intros Hwf Hin entry t'. split.
  - intros x Hx Hxa Hrev.
    pose proof (Run_visit_turn env curr_time k a it count w Hwf Hin) as Hturn.
    destruct (turn_after_in_table a it _ _ _ k Hwf Hin Hturn)
      as [Hsame | [(_ & Hone) | (r & Hr & Htwo)]].
    + apply Hsame, Hx.
    + apply Hone. split; assumption.
    + apply Htwo. repeat split; try assumption.
      intros ->. apply Hrev. exact Hr.
  - intros Hage Hshort. subst t'.
    destruct (Run_visit_cases env curr_time a it count w) as (Hcase & _ & _).
    destruct Hcase as [ r e H1 H2 H3 | e H1 H2 | w1 e w0 H1 Hw1 ].
    + subst e entry. congruence.
    + subst e entry. congruence.
    + assert (Hlinks : same_links (heap (flow_obj w)) (heap (flow_obj w1))).
      { rewrite Hw1. destruct (GetKernelFlowEntry env (flow_handle e));
          [ apply (Run_reconcile_same_links env curr_time a v w0) | apply same_links_refl ]. }
      assert (Hmap : flow_entry_map_ (flow_obj w1) = flow_entry_map_ (flow_obj w)).
      { rewrite Hw1. destruct (GetKernelFlowEntry env (flow_handle e));
          [ apply (Run_reconcile_map env curr_time a v w0) | reflexivity ]. }
      destruct (Hlinks a) as (_ & _ & Hs).
      unfold ShortFlow in *. rewrite Hs. fold entry. rewrite Hshort. exact Hmap.
Qed.

Lemma Run_visit_removes_only_witness :
  FlowTable_wf (flow_obj (c5_world false 1000))
  /\ flow_entry_map_ (flow_obj (Run_visit c5_env 1000 0%nat (Some keyB) 0
                                  (c5_world false 1000)).1.1.1)
     = flow_entry_map_ (flow_obj (c5_world false 1000)).
Proof.
  split; [ apply c5_world_wf | ].
  apply (Run_visit_removes_only c5_env 1000 keyA 0%nat (Some keyB) 0 (c5_world false 1000)).
  - apply c5_world_wf.
  - simpl. apply list_elem_of_here.
  - reflexivity.
  - reflexivity.
Defined.

(** ** Reconciliation and export *)

(** The counters every record of one export carries. *)
Lemma FlowExport_counters (env : Env) (h : Heap) (flow : FlowEntry)
    (diff_bytes diff_pkts : Z) :
  Forall (fun r =>
            FlowDataIpv4.bytes r = Some (bytes (data flow))
            /\ FlowDataIpv4.packets r = Some (packets (data flow))
            /\ FlowDataIpv4.diff_bytes r = Some diff_bytes
            /\ FlowDataIpv4.diff_packets r = Some diff_pkts)
    (FlowExport env h flow diff_bytes diff_pkts)
  /\ (1 <= length (FlowExport env h flow diff_bytes diff_pkts) <= 2)%nat.
Proof.
  unfold FlowExport.
  match goal with
  | |- context [FlowDataIpv4.set_direction_ing 1 ?s] => set (s0 := s)
  end.
  assert (H0 : FlowDataIpv4.bytes s0 = Some (bytes (data flow))
               /\ FlowDataIpv4.packets s0 = Some (packets (data flow))
               /\ FlowDataIpv4.diff_bytes s0 = Some diff_bytes
               /\ FlowDataIpv4.diff_packets s0 = Some diff_pkts).
  { subst s0.
    destruct (negb (teardown_time flow =? 0)); simpl;
      destruct (reverse_flow (data flow)); simpl;
      destruct (negb (intf_in flow =? kInvalidIndex env)); simpl; auto;
      destruct (FindInterface env (intf_in flow)) as [intf | ]; simpl; auto;
      destruct (GetType intf); simpl; auto;
      destruct (GetVmEntry intf); auto. }
  clearbody s0.
  assert (Hov : forall s,
             FlowDataIpv4.bytes (SourceIpOverride h flow s) = FlowDataIpv4.bytes s
             /\ FlowDataIpv4.packets (SourceIpOverride h flow s) = FlowDataIpv4.packets s
             /\ FlowDataIpv4.diff_bytes (SourceIpOverride h flow s) = FlowDataIpv4.diff_bytes s
             /\ FlowDataIpv4.diff_packets (SourceIpOverride h flow s)
                = FlowDataIpv4.diff_packets s).
  { intros s. unfold SourceIpOverride.
    destruct (nat_ flow && negb (FlowDataIpv4.get_direction_ing s =? 0)); auto.
    destruct (reverse_flow (data flow)); auto.
    destruct (negb (src (key flow) =? dst (key (h a)))); auto. }
  destruct H0 as (Hb & Hp & Hdb & Hdp).
  destruct (local_flow flow).
  - split; [ | simpl; lia ].
    destruct (Hov (FlowDataIpv4.set_direction_ing 1 s0)) as (E1 & E2 & E3 & E4).
    repeat constructor; simpl; rewrite ?E1, ?E2, ?E3, ?E4; assumption.
  - split; [ | simpl; lia ].
    destruct (ingress (data flow)).
    + destruct (Hov (FlowDataIpv4.set_direction_ing 1 s0)) as (E1 & E2 & E3 & E4).
      repeat constructor; simpl; rewrite ?E1, ?E2, ?E3, ?E4; assumption.
    + repeat constructor; simpl; assumption.
Qed.

(** What one reconciliation writes. *)
Lemma Run_reconcile_effects (env : Env) (curr_time : Z) (a : addr)
    (k : vr_flow_entry) (w : World) :
  let entry := heap (flow_obj w) a in
  let w' := Run_reconcile env curr_time a k w in
  let entry' := heap (flow_obj w') a in
  if bytes (data entry) =? flow_bytes (fe_stats k) then w' = w
  else
    bytes (data entry') = GetUpdatedFlowBytes entry (kernel_bytes k)
    /\ packets (data entry') = GetUpdatedFlowPackets entry (kernel_pkts k)
    /\ last_modified_time entry' = curr_time
    /\ sent w' = sent w ++ FlowExport env (heap (flow_obj w')) entry'
                             (wrap64 (bytes (data entry') - bytes (data entry)))
                             (wrap64 (packets (data entry') - packets (data entry)))
    /\ vn_stats w'
       = vn_stats w ++ [mkVnStatsUpdate (source_vn (data entry)) (dest_vn (data entry))
                          (wrap64 (bytes (data entry') - bytes (data entry)))
                          (wrap64 (packets (data entry') - packets (data entry)))].
Proof.
  intros entry w' entry'. subst w' entry'. unfold Run_reconcile. fold entry.
  destruct (bytes (data entry) =? flow_bytes (fe_stats k)); simpl; [ reflexivity | ].
  rewrite heap_update_eq. simpl. repeat split; reflexivity.
Qed.

Lemma Run_reconcile_unchanged (env : Env) (curr_time : Z) (a : addr)
    (k : vr_flow_entry) (w : World) :
  bytes (data (heap (flow_obj w) a)) = flow_bytes (fe_stats k) ->
  Run_reconcile env curr_time a k w = w.
Proof.
  intros E. pose proof (Run_reconcile_effects env curr_time a k w) as Heff.
  cbv zeta in Heff. rewrite E, Z.eqb_refl in Heff. exact Heff.
Qed.

Lemma Run_reconcile_changed (env : Env) (curr_time : Z) (a : addr)
    (k : vr_flow_entry) (w w' : World) (entry entry' : FlowEntry) :
  entry = heap (flow_obj w) a ->
  w' = Run_reconcile env curr_time a k w ->
  entry' = heap (flow_obj w') a ->
  bytes (data entry) <> flow_bytes (fe_stats k) ->
  bytes (data entry') = GetUpdatedFlowBytes entry (kernel_bytes k)
  /\ packets (data entry') = GetUpdatedFlowPackets entry (kernel_pkts k)
  /\ last_modified_time entry' = curr_time
  /\ sent w' = sent w ++ FlowExport env (heap (flow_obj w')) entry'
                           (wrap64 (bytes (data entry') - bytes (data entry)))
                           (wrap64 (packets (data entry') - packets (data entry)))
  /\ vn_stats w'
     = vn_stats w ++ [mkVnStatsUpdate (source_vn (data entry)) (dest_vn (data entry))
                        (wrap64 (bytes (data entry') - bytes (data entry)))
                        (wrap64 (packets (data entry') - packets (data entry)))].
Proof.
  intros -> -> -> Hne.
  pose proof (Run_reconcile_effects env curr_time a k w) as Heff.
  cbv zeta in Heff. apply Z.eqb_neq in Hne. rewrite Hne in Heff. exact Heff.
Qed.

(** X4.  When a reconciliation finds the stored byte counter different from the
    kernel's, it exports one or two records and one inter-VN update; below the
    wrap-around bound the exported deltas are non-negative, each record's
    cumulative counters are the previous ones plus the deltas, and these are
    the counters the entry now stores. *)
Theorem Run_reconcile_exports_delta (env : Env) (curr_time : Z) (a : addr)
    (k : vr_flow_entry) (w : World) :
  vr_flow_entry_wf k ->
  let entry := heap (flow_obj w) a in
  let w' := Run_reconcile env curr_time a k w in
  let entry' := heap (flow_obj w') a in
  0 <= bytes (data entry) < 2 ^ 64 - 2 ^ 48 ->
  0 <= packets (data entry) < 2 ^ 64 - 2 ^ 40 ->
  bytes (data entry) <> flow_bytes (fe_stats k) ->
  exists recs db dp,
    sent w' = sent w ++ recs
    /\ (1 <= length recs <= 2)%nat
    /\ 0 <= db /\ 0 <= dp
    /\ bytes (data entry') = bytes (data entry) + db
    /\ packets (data entry') = packets (data entry) + dp
    /\ Forall (fun r =>
                 FlowDataIpv4.bytes r = Some (bytes (data entry) + db)
                 /\ FlowDataIpv4.packets r = Some (packets (data entry) + dp)
                 /\ FlowDataIpv4.diff_bytes r = Some db
                 /\ FlowDataIpv4.diff_packets r = Some dp) recs
    /\ vn_stats w'
       = vn_stats w ++ [mkVnStatsUpdate (source_vn (data entry)) (dest_vn (data entry))
                          db dp].
Proof.
  intros Hk entry w' entry' Hb Hp Hne.
  destruct (Run_reconcile_changed env curr_time a k w w' entry entry'
              eq_refl eq_refl eq_refl Hne) as (Eb & Ep & _ & Esent & Evn).
  destruct (kernel_counters_range k Hk) as [Hkb Hkp].
  pose proof (GetUpdatedFlowBytes_mono entry (kernel_bytes k) Hb Hkb) as Mb.
  pose proof (GetUpdatedFlowPackets_mono entry (kernel_pkts k) Hp Hkp) as Mp.
  rewrite <- Eb in Mb. rewrite <- Ep in Mp.
  assert (Wb : wrap64 (bytes (data entry') - bytes (data entry))
               = bytes (data entry') - bytes (data entry))
    by (apply Z.mod_small; lia).
  assert (Wp : wrap64 (packets (data entry') - packets (data entry))
               = packets (data entry') - packets (data entry))
    by (apply Z.mod_small; lia).
  rewrite Wb, Wp in Esent, Evn.
  exists (FlowExport env (heap (flow_obj w')) entry'
            (bytes (data entry') - bytes (data entry))
            (packets (data entry') - packets (data entry))),
    (bytes (data entry') - bytes (data entry)),
    (packets (data entry') - packets (data entry)).
  destruct (FlowExport_counters env (heap (flow_obj w')) entry'
              (bytes (data entry') - bytes (data entry))
              (packets (data entry') - packets (data entry))) as [Hall Hlen].
  split; [ exact Esent | ]. split; [ exact Hlen | ].
  split; [ lia | ]. split; [ lia | ]. split; [ lia | ]. split; [ lia | ].
  split; [ | exact Evn ].
  eapply Forall_impl; [ exact Hall | ].
  intros r (R1 & R2 & R3 & R4). rewrite R1, R2.
  repeat split; try assumption; f_equal; lia.
Qed.

Lemma Run_reconcile_exports_delta_witness :
  vr_flow_entry_wf c4_kflow
  /\ exists recs db dp,
       sent (Run_reconcile c4_env 7 0%nat c4_kflow (c4_world 3))
         = sent (c4_world 3) ++ recs
       /\ (1 <= length recs <= 2)%nat /\ 0 <= db /\ 0 <= dp.
Proof.
  assert (Hwf : vr_flow_entry_wf c4_kflow).
  { unfold vr_flow_entry_wf, is_u8, is_u16, is_u32; simpl; lia. }
  split; [ exact Hwf | ].
  destruct (Run_reconcile_exports_delta c4_env 7 0%nat c4_kflow (c4_world 3) Hwf)
    as (recs & db & dp & Hs & Hl & Hdb & Hdp & _).
  - simpl. lia.
  - simpl. lia.
  - simpl. lia.
  - exists recs, db, dp. repeat split; try assumption; apply Hl.
Defined.

Lemma recombine_same (h k n m : Z) :
  0 < n -> 0 < m -> 0 <= k < n -> 0 <= h < m ->
  ((h * n + k) / n + (if (h * n + k) mod n >? k then 1 else 0)) mod m * n + k
  = h * n + k.
Proof.
  intros Hn Hm Hk Hh.
  rewrite (Z.add_comm (h * n) k), Z.mod_add, Z.div_add by lia.
  rewrite (Z.mod_small k), (Z.div_small k) by lia.
  rewrite Z.gtb_ltb, Z.ltb_irrefl, Z.add_0_r, Z.add_0_l, Z.mod_small by lia.
  lia.
Qed.

(** X5.  Reconciling again against the same kernel record changes no counter: the
    stored bytes and packets stay as the first reconciliation left them, and
    whatever the second one exports carries zero deltas. *)
Theorem Run_reconcile_idempotent (env : Env) (t1 t2 : Z) (a : addr)
    (k : vr_flow_entry) (w : World) :
  vr_flow_entry_wf k ->
  is_u64 (bytes (data (heap (flow_obj w) a))) ->
  is_u64 (packets (data (heap (flow_obj w) a))) ->
  let w1 := Run_reconcile env t1 a k w in
  let w2 := Run_reconcile env t2 a k w1 in
  bytes (data (heap (flow_obj w2) a)) = bytes (data (heap (flow_obj w1) a))
  /\ packets (data (heap (flow_obj w2) a)) = packets (data (heap (flow_obj w1) a))
  /\ exists recs,
       sent w2 = sent w1 ++ recs
       /\ Forall (fun r => FlowDataIpv4.diff_bytes r = Some 0
                           /\ FlowDataIpv4.diff_packets r = Some 0) recs.
Proof.
  intros Hk Hb Hp w1 w2.
  destruct (kernel_counters_range k Hk) as [Hkb Hkp].
  set (e1 := heap (flow_obj w1) a).
  assert (H1 : exists hb hp,
             0 <= hb < 2 ^ 16 /\ 0 <= hp < 2 ^ 24
             /\ (bytes (data e1) = hb * 2 ^ 48 + kernel_bytes k
                 /\ packets (data e1) = hp * 2 ^ 40 + kernel_pkts k
                 \/ w1 = w /\ bytes (data e1) = flow_bytes (fe_stats k))).
  { destruct (Z.eq_dec (bytes (data (heap (flow_obj w) a))) (flow_bytes (fe_stats k)))
      as [E | Hne].
    - pose proof (Run_reconcile_unchanged env t1 a k w E) as Heff. fold w1 in Heff.
      exists 0, 0. split; [ lia | ]. split; [ lia | ]. right.
      split; [ exact Heff | ]. subst e1. rewrite Heff. exact E.
    - destruct (Run_reconcile_changed env t1 a k w w1 _ e1
                  eq_refl eq_refl eq_refl Hne) as (Eb & Ep & _).
      rewrite (GetUpdatedFlowBytes_value _ _ Hb Hkb) in Eb.
      rewrite (GetUpdatedFlowPackets_value _ _ Hp Hkp) in Ep.
      eexists _, _. split; [ | split; [ | left; split; [ exact Eb | exact Ep ] ] ];
        apply Z.mod_pos_bound; lia. }
  destruct H1 as (hb & hp & Hhb & Hhp & [[Eb1 Ep1] | [Ew E1]]).
  - assert (Ub : GetUpdatedFlowBytes e1 (kernel_bytes k) = bytes (data e1)).
    { rewrite GetUpdatedFlowBytes_value by (unfold is_u64; rewrite ?Eb1; lia).
      rewrite Eb1. apply recombine_same; lia. }
    assert (Up : GetUpdatedFlowPackets e1 (kernel_pkts k) = packets (data e1)).
    { rewrite GetUpdatedFlowPackets_value by (unfold is_u64; rewrite ?Ep1; lia).
      rewrite Ep1. apply recombine_same; lia. }
    destruct (Z.eq_dec (bytes (data e1)) (flow_bytes (fe_stats k))) as [E | Hne].
    + pose proof (Run_reconcile_unchanged env t2 a k w1 E) as Heff. fold w2 in Heff.
      rewrite Heff. split; [ reflexivity | ]. split; [ reflexivity | ].
      exists []. split; [ symmetry; apply app_nil_r | constructor ].
    + destruct (Run_reconcile_changed env t2 a k w1 w2 e1 _
                  eq_refl eq_refl eq_refl Hne) as (Eb2 & Ep2 & _ & Esent & _).
      rewrite Ub in Eb2. rewrite Up in Ep2.
      split; [ exact Eb2 | ]. split; [ exact Ep2 | ].
      eexists. split; [ exact Esent | ].
      rewrite Eb2, Ep2, !Z.sub_diag.
      eapply Forall_impl; [ apply FlowExport_counters | ].
      intros r (_ & _ & R3 & R4). split; assumption.
  - pose proof (Run_reconcile_unchanged env t2 a k w1 E1) as Heff. fold w2 in Heff.
    rewrite Heff. split; [ reflexivity | ]. split; [ reflexivity | ].
    exists []. split; [ symmetry; apply app_nil_r | constructor ].
Qed.

Lemma Run_reconcile_idempotent_witness :
  vr_flow_entry_wf c4_kflow
  /\ bytes (data (heap (flow_obj (Run_reconcile c4_env 9 0%nat c4_kflow
                                    (Run_reconcile c4_env 7 0%nat c4_kflow
                                       (c4_world 0x0000ffffffffff00)))) 0%nat))
     = bytes (data (heap (flow_obj (Run_reconcile c4_env 7 0%nat c4_kflow
                                      (c4_world 0x0000ffffffffff00))) 0%nat)).
Proof.
  assert (Hwf : vr_flow_entry_wf c4_kflow).
  { unfold vr_flow_entry_wf, is_u8, is_u16, is_u32; simpl; lia. }
  split; [ exact Hwf | ].
  apply (Run_reconcile_idempotent c4_env 7 9 0%nat c4_kflow
           (c4_world 0x0000ffffffffff00) Hwf);
    unfold is_u64; simpl; lia.
Defined.

(** X6.  A flow whose stats were just reconciled is not aging-eligible at that
    time: with a positive age time, the should-age test on the reconciled
    entry fails whatever the kernel record. *)
Theorem Run_reconcile_resets_idle (env : Env) (curr_time : Z) (a : addr)
    (k : vr_flow_entry) (k_flow : option vr_flow_entry) (w : World) :
  0 < GetFlowAgeTime (collector w) ->
  bytes (data (heap (flow_obj w) a)) <> flow_bytes (fe_stats k) ->
  let w' := Run_reconcile env curr_time a k w in
  ShouldBeAged (collector w') (heap (flow_obj w') a) k_flow curr_time = false.
Proof.
  intros Hage Hne w'.
  destruct (Run_reconcile_changed env curr_time a k w w' _ _
              eq_refl eq_refl eq_refl Hne) as (_ & _ & Elmt & _).
  unfold ShouldBeAged. rewrite Elmt, Z.sub_diag.
  subst w'. rewrite Run_reconcile_collector.
  change (wrap64 0) with 0.
  destruct (Z.ltb_spec 0 (GetFlowAgeTime (collector w))) as [_ | Hc]; [ | lia ].
  destruct (match k_flow with Some _ => _ | None => false end); reflexivity.
Qed.

Lemma Run_reconcile_resets_idle_witness :
  0 < GetFlowAgeTime (collector (c4_world 3))
  /\ ShouldBeAged (collector (Run_reconcile c4_env 7 0%nat c4_kflow (c4_world 3)))
       (heap (flow_obj (Run_reconcile c4_env 7 0%nat c4_kflow (c4_world 3))) 0%nat)
       (Some c4_kflow) 7 = false.
Proof.
  split; [ simpl; lia | ].
  apply (Run_reconcile_resets_idle c4_env 7 0%nat c4_kflow (Some c4_kflow) (c4_world 3)).
  - simpl. lia.
  - simpl. lia.
Defined.

(** ** What an export names *)

(** X8.  Every record of an export names the flow: destination, protocol, ports,
    networks and setup time are the flow's; the teardown time is present
    exactly when the flow has one; the source address is the flow's own or
    the NAT override; and both records of a local flow carry the same source
    address. *)
Theorem FlowExport_names_flow (env : Env) (h : Heap) (flow : FlowEntry)
    (diff_bytes diff_pkts : Z) :
  Forall (fun r =>
            FlowDataIpv4.destip r = Some (dst (key flow))
            /\ FlowDataIpv4.protocol r = Some (protocol (key flow))
            /\ FlowDataIpv4.sport r = Some (src_port (key flow))
            /\ FlowDataIpv4.dport r = Some (dst_port (key flow))
            /\ FlowDataIpv4.sourcevn r = Some (source_vn (data flow))
            /\ FlowDataIpv4.destvn r = Some (dest_vn (data flow))
            /\ FlowDataIpv4.setup_time r = Some (setup_time flow)
            /\ FlowDataIpv4.teardown_time r
               = (if teardown_time flow =? 0 then None else Some (teardown_time flow))
            /\ FlowDataIpv4.reverse_uuid r
               = ((fun a => to_string env (flow_uuid (h a))) <$> reverse_flow (data flow))
            /\ (FlowDataIpv4.sourceip r = Some (src (key flow))
                \/ FlowDataIpv4.sourceip r = Some (exported_sourceip h flow)))
    (FlowExport env h flow diff_bytes diff_pkts)
  /\ (if local_flow flow
      then exists r1 r2,
             FlowExport env h flow diff_bytes diff_pkts = [r1; r2]
             /\ FlowDataIpv4.sourceip r2 = FlowDataIpv4.sourceip r1
             /\ FlowDataIpv4.vm r2 = FlowDataIpv4.vm r1
      else length (FlowExport env h flow diff_bytes diff_pkts) = 1%nat).
Proof.
  unfold FlowExport.
  match goal with
  | |- context [FlowDataIpv4.set_direction_ing 1 ?s] => set (s0 := s)
  end.
  set (P := fun r : FlowDataIpv4.t =>
            FlowDataIpv4.destip r = Some (dst (key flow))
            /\ FlowDataIpv4.protocol r = Some (protocol (key flow))
            /\ FlowDataIpv4.sport r = Some (src_port (key flow))
            /\ FlowDataIpv4.dport r = Some (dst_port (key flow))
            /\ FlowDataIpv4.sourcevn r = Some (source_vn (data flow))
            /\ FlowDataIpv4.destvn r = Some (dest_vn (data flow))
            /\ FlowDataIpv4.setup_time r = Some (setup_time flow)
            /\ FlowDataIpv4.teardown_time r
               = (if teardown_time flow =? 0 then None else Some (teardown_time flow))
            /\ FlowDataIpv4.reverse_uuid r
               = ((fun a => to_string env (flow_uuid (h a))) <$> reverse_flow (data flow))).
  assert (H0 : P s0 /\ FlowDataIpv4.sourceip s0 = Some (src (key flow))).
  { subst s0 P.
    destruct (teardown_time flow =? 0); simpl;
      destruct (reverse_flow (data flow)); simpl;
      destruct (negb (intf_in flow =? kInvalidIndex env)); simpl; auto 12;
      destruct (FindInterface env (intf_in flow)) as [intf | ]; simpl; auto 12;
      destruct (GetType intf); simpl; auto 12;
      destruct (GetVmEntry intf); auto 12. }
  clearbody s0. destruct H0 as [HP Hsrc].
  assert (Hov : P (SourceIpOverride h flow (FlowDataIpv4.set_direction_ing 1 s0))).
  { unfold SourceIpOverride.
    destruct (nat_ flow && _); [ | exact HP ].
    destruct (reverse_flow (data flow)) eqn:Hr; [ | exact HP ].
    destruct (negb _); exact HP. }
  pose proof (SourceIpOverride_ingress h flow (FlowDataIpv4.set_direction_ing 1 s0)
                eq_refl Hsrc) as (Ho1 & _ & _).
  unfold P in HP, Hov.
  destruct (local_flow flow).
  - split.
    + constructor; [ | constructor; [ | constructor ] ].
      * split_and!; try apply Hov. right. exact Ho1.
      * simpl. split_and!; try apply Hov. right. exact Ho1.
    + eexists _, _. split; [ reflexivity | split; reflexivity ].
  - split; [ | reflexivity ].
    destruct (ingress (data flow)).
    + constructor; [ | constructor ]. split_and!; try apply Hov. right. exact Ho1.
    + constructor; [ | constructor ]. simpl. split_and!; try apply HP. left. exact Hsrc.
Qed.

(** ** The next-hop map of a VRF *)

Section NHMapFacts.
Import NHMap.

Variable ComponentNHData : Type.
Variable nh_eqb : ComponentNHData -> ComponentNHData -> bool.

Lemma map_index_fst {V : Type} (d : V) (k : Z) (m : gmap Z V) :
  (map_index d k m).1 = default d (m !! k).
Proof. unfold map_index. destruct (m !! k); reflexivity. Qed.

Lemma map_index_snd {V : Type} (d : V) (k k' : Z) (m : gmap Z V) :
  default d ((map_index d k m).2 !! k') = default d (m !! k').
Proof.
  unfold map_index. destruct (m !! k) eqn:E; simpl; [ reflexivity | ].
  destruct (decide (k = k')) as [<- | Hne].
  - rewrite lookup_insert_eq, E. reflexivity.
  - rewrite lookup_insert_ne by exact Hne. reflexivity.
Qed.

Lemma map_index_at {V : Type} (d : V) (k : Z) (m : gmap Z V) :
  (map_index d k m).2 !! k = Some (default d (m !! k)).
Proof.
  unfold map_index. destruct (m !! k) eqn:E; simpl.
  - exact E.
  - apply lookup_insert_eq.
Qed.

Lemma map_index_known {V : Type} (d : V) (k : Z) (m : gmap Z V) (v : V) :
  m !! k = Some v -> map_index d k m = (v, m).
Proof. intros E. unfold map_index. rewrite E. reflexivity. Qed.

Lemma GetNHList_fst (ip : Z) (s : VrfNHMap ComponentNHData) :
  (GetNHList ip s).1 = default [] (nh_map_ s !! ip).
Proof.
  unfold GetNHList. rewrite (surjective_pairing (map_index [] ip (nh_map_ s))).
  apply map_index_fst.
Qed.

Lemma FindNH_fst (ip : Z) (nh : ComponentNHData) (s : VrfNHMap ComponentNHData) :
  (FindNH nh_eqb ip nh s).1 = find_nh nh_eqb nh (default [] (nh_map_ s !! ip)).
Proof.
  unfold NHMap.FindNH. rewrite (surjective_pairing (map_index [] ip (nh_map_ s))).
  simpl. rewrite map_index_fst. reflexivity.
Qed.

Lemma GetLabel_fst (a : Z) (s : VrfNHMap ComponentNHData) :
  (GetLabel a s).1 = default 0 (label_map_ s !! a).
Proof.
  unfold GetLabel. rewrite (surjective_pairing (map_index 0 a (label_map_ s))).
  apply map_index_fst.
Qed.

Lemma AddNH_nh_map (ip ip' : Z) (nh : ComponentNHData) (s : VrfNHMap ComponentNHData) :
  default [] (nh_map_ (AddNH nh_eqb ip nh s) !! ip')
  = if decide (ip' = ip)
    then default [] (nh_map_ s !! ip)
         ++ (if find_nh nh_eqb nh (default [] (nh_map_ s !! ip)) then [] else [nh])
    else default [] (nh_map_ s !! ip').
Proof.
  unfold NHMap.AddNH.
  pose proof (map_index_fst (V := list ComponentNHData) [] ip (nh_map_ s)) as H1.
  pose proof (map_index_snd (V := list ComponentNHData) [] ip ip' (nh_map_ s)) as H2.
  pose proof (map_index_at (V := list ComponentNHData) [] ip (nh_map_ s)) as H3.
  destruct (map_index [] ip (nh_map_ s)) as [l m]. simpl in H1, H2, H3. subst l.
  destruct (find_nh nh_eqb nh (default [] (nh_map_ s !! ip))); simpl.
  - destruct (decide (ip' = ip)) as [-> | Hne].
    + rewrite H3, app_nil_r. reflexivity.
    + exact H2.
  - rewrite (map_index_known [] ip m _ H3). simpl.
    destruct (decide (ip' = ip)) as [-> | Hne].
    + rewrite lookup_insert_eq. reflexivity.
    + rewrite lookup_insert_ne by congruence. exact H2.
Qed.

Lemma DeleteNH_nh_map (ip ip' : Z) (nh : ComponentNHData)
    (s : VrfNHMap ComponentNHData) :
  default [] (nh_map_ (DeleteNH nh_eqb ip nh s) !! ip')
  = if decide (ip' = ip)
    then erase_nh nh_eqb nh (default [] (nh_map_ s !! ip))
    else default [] (nh_map_ s !! ip').
Proof.
  unfold NHMap.DeleteNH.
  pose proof (map_index_fst (V := list ComponentNHData) [] ip (nh_map_ s)) as H1.
  pose proof (map_index_snd (V := list ComponentNHData) [] ip ip' (nh_map_ s)) as H2.
  destruct (map_index [] ip (nh_map_ s)) as [l m]. simpl in H1, H2. subst l. simpl.
  destruct (decide (ip' = ip)) as [-> | Hne].
  - rewrite lookup_insert_eq. reflexivity.
  - rewrite lookup_insert_ne by congruence. exact H2.
Qed.

Lemma find_nh_app (nh : ComponentNHData) (l1 l2 : list ComponentNHData) :
  find_nh nh_eqb nh (l1 ++ l2) = find_nh nh_eqb nh l1 || find_nh nh_eqb nh l2.
Proof.
  induction l1 as [ | x l1 IH]; simpl; [ reflexivity | ].
  destruct (nh_eqb x nh); [ reflexivity | exact IH ].
Qed.

Lemma erase_nh_sublist (nh : ComponentNHData) (l : list ComponentNHData) :
  sublist (erase_nh nh_eqb nh l) l.
Proof.
  induction l as [ | x l IH]; simpl; [ constructor | ].
  destruct (nh_eqb x nh); [ apply sublist_cons, reflexivity | apply sublist_skip, IH ].
Qed.

Lemma erase_nh_length (nh : ComponentNHData) (l : list ComponentNHData) :
  length l = (length (erase_nh nh_eqb nh l) + (if find_nh nh_eqb nh l then 1 else 0))%nat.
Proof.
  induction l as [ | x l IH]; simpl; [ reflexivity | ].
  destruct (nh_eqb x nh); simpl; lia.
Qed.

Lemma erase_nh_keeps (nh x : ComponentNHData) (l : list ComponentNHData) :
  nh_eqb x nh = false -> x ∈ l -> x ∈ erase_nh nh_eqb nh l.
Proof.
  intros Hx. induction l as [ | y l IH]; simpl; intros Hin; [ exact Hin | ].
  apply elem_of_cons in Hin as [-> | Hin].
  - rewrite Hx. apply list_elem_of_here.
  - destruct (nh_eqb y nh); [ exact Hin | apply list_elem_of_further, IH, Hin ].
Qed.

(** X10.  [AddNH] enters a next hop at most once: afterwards [FindNH] finds it;
    the list of the address grew by the new element exactly when none
    compared equal before, and is otherwise unchanged, the element stored
    before staying as it is; a second [AddNH] changes nothing. *)
Theorem AddNH_adds_once (ip : Z) (nh : ComponentNHData)
    (s : VrfNHMap ComponentNHData) :
  (forall x, nh_eqb x x = true) ->
  (FindNH nh_eqb ip nh (AddNH nh_eqb ip nh s)).1 = true
  /\ (GetNHList ip (AddNH nh_eqb ip nh s)).1
     = (GetNHList ip s).1 ++ (if (FindNH nh_eqb ip nh s).1 then [] else [nh])
  /\ AddNH nh_eqb ip nh (AddNH nh_eqb ip nh s) = AddNH nh_eqb ip nh s.
Proof.
  intros Hrefl.
  assert (Hfind : find_nh nh_eqb nh (default [] (nh_map_ (AddNH nh_eqb ip nh s) !! ip)) = true).
  { rewrite AddNH_nh_map. destruct (decide (ip = ip)) as [_ | ]; [ | contradiction ].
    rewrite find_nh_app.
    destruct (find_nh nh_eqb nh (default [] (nh_map_ s !! ip))); simpl; [ reflexivity | ].
    rewrite Hrefl. reflexivity. }
  split; [ rewrite FindNH_fst; exact Hfind | ].
  split.
  - rewrite !GetNHList_fst, FindNH_fst, AddNH_nh_map.
    destruct (decide (ip = ip)) as [_ | ]; [ reflexivity | contradiction ].
  - set (s' := AddNH nh_eqb ip nh s) in *.
    assert (Hin : exists l, nh_map_ s' !! ip = Some l).
    { destruct (nh_map_ s' !! ip) as [l | ] eqn:E; [ exists l; reflexivity | ].
      simpl in Hfind. discriminate. }
    destruct Hin as [l Hl]. rewrite Hl in Hfind. simpl in Hfind.
    unfold NHMap.AddNH at 1. rewrite (map_index_known [] ip _ l Hl), Hfind.
    destruct s'; reflexivity.
Qed.

(** X11.  [DeleteNH] undoes [AddNH]: deleting a next hop that was added when none
    compared equal gives back the list of the address as it was. *)
Theorem DeleteNH_AddNH (ip : Z) (nh : ComponentNHData)
    (s : VrfNHMap ComponentNHData) :
  (forall x, nh_eqb x x = true) ->
  (FindNH nh_eqb ip nh s).1 = false ->
  (GetNHList ip (DeleteNH nh_eqb ip nh (AddNH nh_eqb ip nh s))).1 = (GetNHList ip s).1
  /\ (FindNH nh_eqb ip nh (DeleteNH nh_eqb ip nh (AddNH nh_eqb ip nh s))).1 = false.
Proof.
  intros Hrefl Hfind. rewrite FindNH_fst in Hfind.
  assert (E : default [] (nh_map_ (DeleteNH nh_eqb ip nh (AddNH nh_eqb ip nh s)) !! ip)
              = default [] (nh_map_ s !! ip)).
  { rewrite DeleteNH_nh_map, AddNH_nh_map.
    destruct (decide (ip = ip)) as [_ | ]; [ | contradiction ].
    rewrite Hfind.
    induction (default [] (nh_map_ s !! ip)) as [ | x l IH]; simpl in *.
    - rewrite Hrefl. reflexivity.
    - destruct (nh_eqb x nh); [ discriminate | ]. rewrite (IH Hfind). reflexivity. }
  rewrite !GetNHList_fst, FindNH_fst, E. split; [ reflexivity | exact Hfind ].
Qed.

Lemma GetNHCount_fst (ip : Z) (s : VrfNHMap ComponentNHData) :
  (GetNHCount ip s).1 = wrap32 (Z.of_nat (length (default [] (nh_map_ s !! ip)))).
Proof.
  unfold GetNHCount. rewrite (surjective_pairing (map_index [] ip (nh_map_ s))).
  simpl. rewrite map_index_fst. reflexivity.
Qed.

(** Two maps answer alike when they hold the same lists and labels, an
    address that is not entered counting as the empty list and the label 0. *)
Lemma same_answers_of (s s' : VrfNHMap ComponentNHData) :
  (forall i, default [] (nh_map_ s' !! i) = default [] (nh_map_ s !! i)) ->
  (forall i, default 0 (label_map_ s' !! i) = default 0 (label_map_ s !! i)) ->
  same_answers nh_eqb s s'.
Proof.
  intros Hl Hla i n.
  rewrite !GetNHList_fst, !FindNH_fst, !GetNHCount_fst, !GetLabel_fst, Hl, Hla.
  repeat split; reflexivity.
Qed.

Lemma same_answers_lists (s s' : VrfNHMap ComponentNHData) (n0 : ComponentNHData) :
  same_answers nh_eqb s s' ->
  (forall i, default [] (nh_map_ s' !! i) = default [] (nh_map_ s !! i))
  /\ (forall i, default 0 (label_map_ s' !! i) = default 0 (label_map_ s !! i)).
Proof.
  intros H. split; intros i; destruct (H i n0) as (H1 & _ & _ & H4).
  - rewrite !GetNHList_fst in H1. exact H1.
  - rewrite !GetLabel_fst in H4. exact H4.
Qed.

Lemma AddNH_label_map (ip : Z) (nh : ComponentNHData) (s : VrfNHMap ComponentNHData) :
  label_map_ (AddNH nh_eqb ip nh s) = label_map_ s.
Proof.
  unfold AddNH. destruct (map_index [] ip (nh_map_ s)) as [l m].
  destruct (find_nh nh_eqb nh l); [ reflexivity | ].
  destruct (map_index [] ip m). reflexivity.
Qed.

Lemma DeleteNH_label_map (ip : Z) (nh : ComponentNHData) (s : VrfNHMap ComponentNHData) :
  label_map_ (DeleteNH nh_eqb ip nh s) = label_map_ s.
Proof. unfold DeleteNH. destruct (map_index [] ip (nh_map_ s)). reflexivity. Qed.

Lemma query_nh_same (ip : Z) (s : VrfNHMap ComponentNHData) :
  same_answers nh_eqb s
    (mkVrfNHMap (map_index [] ip (nh_map_ s)).2 (label_map_ s)).
Proof.
  apply same_answers_of; intros i; simpl; [ apply map_index_snd | reflexivity ].
Qed.

(** The element [DeleteNH] erases: the first of the list that compares
    equal. *)
Lemma erase_nh_first (nh : ComponentNHData) (l : list ComponentNHData) :
  if find_nh nh_eqb nh l
  then exists l1 x l2,
         l = l1 ++ x :: l2
         /\ Forall (fun y => nh_eqb y nh = false) l1
         /\ nh_eqb x nh = true
         /\ erase_nh nh_eqb nh l = l1 ++ l2
  else erase_nh nh_eqb nh l = l.
Proof.
  induction l as [ | y l IH]; simpl; [ reflexivity | ].
  destruct (nh_eqb y nh) eqn:Hy.
  - exists [], y, l. repeat split; [ constructor | exact Hy ].
  - destruct (find_nh nh_eqb nh l).
    + destruct IH as (l1 & x & l2 & -> & Hl1 & Hx & He).
      exists (y :: l1), x, l2. rewrite He.
      split; [ reflexivity | ]. split; [ constructor; assumption | ].
      split; [ exact Hx | reflexivity ].
    + rewrite IH. reflexivity.
Qed.

(** X12.  [DeleteNH] takes out one element at most, the first that compares
    equal: when [FindNH] finds the next hop, the list of the address is split
    at its first element that compares equal, no element before it comparing
    equal, and what is left is the part before followed by the part after;
    when [FindNH] does not find it, the list is left as it is.  So what is
    left is the old list in its order, shorter by one exactly when [FindNH]
    found the next hop, and every element that does not compare equal is
    still there. *)
Theorem DeleteNH_removes_first (ip : Z) (nh : ComponentNHData)
    (s : VrfNHMap ComponentNHData) :
  let l := (GetNHList ip s).1 in
  let l' := (GetNHList ip (DeleteNH nh_eqb ip nh s)).1 in
  (if (FindNH nh_eqb ip nh s).1
   then exists l1 x l2,
          l = l1 ++ x :: l2
          /\ Forall (fun y => nh_eqb y nh = false) l1
          /\ nh_eqb x nh = true
          /\ l' = l1 ++ l2
   else l' = l)
  /\ sublist l' l
  /\ length l = (length l' + (if (FindNH nh_eqb ip nh s).1 then 1 else 0))%nat
  /\ Forall (fun x => nh_eqb x nh = false -> x ∈ l') l.
Proof.
  intros l l'. subst l l'.
  rewrite !GetNHList_fst, FindNH_fst, DeleteNH_nh_map.
  destruct (decide (ip = ip)) as [_ | ]; [ | contradiction ].
  split; [ apply erase_nh_first | ].
  split; [ apply erase_nh_sublist | ].
  split; [ apply erase_nh_length | ].
  apply Forall_forall. intros x Hin Hx. apply erase_nh_keeps; assumption.
Qed.

(** X13.  The lists of other addresses and all labels are out of the reach of
    [AddNH] and [DeleteNH]; and the entries that [FindNH], [GetNHCount],
    [GetNHList] and [GetLabel] create in passing, at whatever address,
    change no later answer: after any of them every query answers as before,
    at every address, the queried one included, and two maps that answer
    alike still answer alike after the same [AddNH], [DeleteNH] or
    [UpdateLabel]. *)
Theorem NHMap_frame (ip ip' a : Z) (nh : ComponentNHData)
    (s : VrfNHMap ComponentNHData) :
  ip' <> ip ->
  (GetNHList ip' (AddNH nh_eqb ip nh s)).1 = (GetNHList ip' s).1
  /\ (GetNHList ip' (DeleteNH nh_eqb ip nh s)).1 = (GetNHList ip' s).1
  /\ (GetLabel a (AddNH nh_eqb ip nh s)).1 = (GetLabel a s).1
  /\ (GetLabel a (DeleteNH nh_eqb ip nh s)).1 = (GetLabel a s).1
  /\ (forall j n, same_answers nh_eqb s (FindNH nh_eqb j n s).2)
  /\ (forall j, same_answers nh_eqb s (GetNHCount j s).2)
  /\ (forall j, same_answers nh_eqb s (GetNHList j s).2)
  /\ (forall j, same_answers nh_eqb s (GetLabel j s).2)
  /\ (forall s' j n label,
        same_answers nh_eqb s s' ->
        same_answers nh_eqb (AddNH nh_eqb j n s) (AddNH nh_eqb j n s')
        /\ same_answers nh_eqb (DeleteNH nh_eqb j n s) (DeleteNH nh_eqb j n s')
        /\ same_answers nh_eqb (UpdateLabel j label s) (UpdateLabel j label s')).
Proof.
  intros Hne.
  rewrite !GetNHList_fst, !GetLabel_fst, AddNH_nh_map, DeleteNH_nh_map,
    AddNH_label_map, DeleteNH_label_map.
  destruct (decide (ip' = ip)) as [ | _]; [ contradiction | ].
  split; [ reflexivity | ]. split; [ reflexivity | ].
  split; [ reflexivity | ]. split; [ reflexivity | ].
  split.
  { intros j n. unfold FindNH.
    pose proof (query_nh_same j s) as H.
    destruct (map_index [] j (nh_map_ s)). exact H. }
  split.
  { intros j. unfold GetNHCount.
    pose proof (query_nh_same j s) as H.
    destruct (map_index [] j (nh_map_ s)). exact H. }
  split.
  { intros j. unfold GetNHList.
    pose proof (query_nh_same j s) as H.
    destruct (map_index [] j (nh_map_ s)). exact H. }
  split.
  { intros j. unfold GetLabel.
    pose proof (map_index_snd 0 j) as H.
    destruct (map_index 0 j (label_map_ s)) as [x m] eqn:E.
    apply same_answers_of; intros i; simpl; [ reflexivity | ].
    specialize (H i (label_map_ s)). rewrite E in H. exact H. }
  intros s' j n label Hsame.
  destruct (same_answers_lists s s' n Hsame) as [Hl Hla].
  split; [ | split ]; apply same_answers_of; intros i.
  - rewrite !AddNH_nh_map, Hl. destruct (decide (i = j)); rewrite ?Hl; reflexivity.
  - rewrite !AddNH_label_map. apply Hla.
  - rewrite !DeleteNH_nh_map, Hl. destruct (decide (i = j)); rewrite ?Hl; reflexivity.
  - rewrite !DeleteNH_label_map. apply Hla.
  - simpl. apply Hl.
  - simpl. destruct (decide (j = i)) as [-> | Hji].
    + rewrite !lookup_insert_eq. reflexivity.
    + rewrite !lookup_insert_ne by exact Hji. apply Hla.
Qed.

(** X14.  Labels: [GetLabel] returns what [UpdateLabel] stored last for the
    address, other addresses keep their label, and the next-hop lists are
    not touched. *)
Theorem UpdateLabel_GetLabel (addr addr' label ip : Z)
    (s : VrfNHMap ComponentNHData) :
  (GetLabel addr' (UpdateLabel addr label s)).1
  = (if decide (addr' = addr) then label else (GetLabel addr' s).1)
  /\ (GetNHList ip (UpdateLabel addr label s)).1 = (GetNHList ip s).1
  /\ (GetLabel addr' (GetLabel addr' (UpdateLabel addr label s)).2).1
     = (GetLabel addr' (UpdateLabel addr label s)).1.
Proof.
  rewrite !GetLabel_fst, !GetNHList_fst. simpl.
  split; [ | split; [ reflexivity | ] ].
  - destruct (decide (addr' = addr)) as [-> | Hne].
    + rewrite lookup_insert_eq. reflexivity.
    + rewrite lookup_insert_ne by congruence. reflexivity.
  - unfold GetLabel at 1. simpl.
    pose proof (map_index_snd 0 addr' addr' (<[addr := label]> (label_map_ s))) as H.
    destruct (map_index 0 addr' (<[addr := label]> (label_map_ s))). exact H.
Qed.

End NHMapFacts.

Lemma AddNH_adds_once_witness :
  let eqb := fun x y : Z * Z => x.1 =? y.1 in
  (forall x, eqb x x = true)
  /\ (NHMap.GetNHList 1 (NHMap.AddNH eqb 1 (5, 9)
                           (NHMap.AddNH eqb 1 (5, 7) (NHMap.mkVrfNHMap ∅ ∅)))).1
     = (NHMap.GetNHList 1 (NHMap.AddNH eqb 1 (5, 7) (NHMap.mkVrfNHMap ∅ ∅))).1
       ++ (if (NHMap.FindNH eqb 1 (5, 9)
                 (NHMap.AddNH eqb 1 (5, 7) (NHMap.mkVrfNHMap ∅ ∅))).1
           then [] else [(5, 9)]).
Proof.
  intros eqb.
  assert (Hrefl : forall x, eqb x x = true) by (intros x; apply Z.eqb_refl).
  split; [ exact Hrefl | ].
  apply (AddNH_adds_once (Z * Z) eqb 1 (5, 9)
           (NHMap.AddNH eqb 1 (5, 7) (NHMap.mkVrfNHMap ∅ ∅)) Hrefl).
Defined.

Lemma DeleteNH_AddNH_witness :
  let eqb := fun x y : Z * Z => x.1 =? y.1 in
  let s := NHMap.AddNH eqb 1 (5, 7) (NHMap.mkVrfNHMap ∅ ∅) in
  (forall x, eqb x x = true)
  /\ (NHMap.FindNH eqb 1 (6, 0) s).1 = false
  /\ (NHMap.GetNHList 1 (NHMap.DeleteNH eqb 1 (6, 0)
                           (NHMap.AddNH eqb 1 (6, 0) s))).1
     = (NHMap.GetNHList 1 s).1.
Proof.
  intros eqb s.
  assert (Hrefl : forall x, eqb x x = true) by (intros x; apply Z.eqb_refl).
  split; [ exact Hrefl | ]. split; [ reflexivity | ].
  apply (DeleteNH_AddNH (Z * Z) eqb 1 (6, 0) s Hrefl). reflexivity.
Defined.

Lemma NHMap_frame_witness :
  let eqb := fun x y : Z * Z => x.1 =? y.1 in
  2 <> 1
  /\ (NHMap.GetNHList 2 (NHMap.AddNH eqb 1 (5, 7) (NHMap.mkVrfNHMap ∅ ∅))).1
     = (NHMap.GetNHList 2 (NHMap.mkVrfNHMap (ComponentNHData := Z * Z) ∅ ∅)).1
  /\ (NHMap.GetNHList 1 (NHMap.FindNH eqb 1 (5, 7) (NHMap.mkVrfNHMap ∅ ∅)).2).1
     = (NHMap.GetNHList 1 (NHMap.mkVrfNHMap (ComponentNHData := Z * Z) ∅ ∅)).1.
Proof.
  intros eqb.
  assert (Hne : 2 <> 1) by lia.
  split; [ exact Hne | ].
  destruct (NHMap_frame (Z * Z) eqb 1 2 0 (5, 7) (NHMap.mkVrfNHMap ∅ ∅) Hne)
    as (H1 & _ & _ & _ & H5 & _).
  split; [ exact H1 | ].
  exact (proj1 (H5 1 (5, 7) 1 (5, 7))).
Defined.

(** ** Retiring a VRF *)

Section VrfRetire.
Import Vrf VrfLookup.

Lemma erase_at_elem (tt tt' : RouteTableType) (name n : string)
    (f : RouteTableType -> gset string) :
  n ∈ erase_at tt name f tt' <-> n ∈ f tt' /\ (tt = tt' -> n <> name).
Proof.
  unfold erase_at.
  destruct tt, tt'; rewrite ?elem_of_difference, ?elem_of_singleton;
    intuition congruence.
Qed.

Lemma OnZeroRefcount_trees (vrf : VrfEntry) (t : VrfTable) (p : Process) :
  IsDeleted vrf = true ->
  let t' := (OnZeroRefcount vrf t p).1.2 in
  (forall n, n ∈ name_tree_ t' <-> n ∈ name_tree_ t /\ n <> GetName vrf)
  /\ (forall tt n, n ∈ dbtree_ t' tt <-> n ∈ dbtree_ t tt /\ n <> GetName vrf)
  /\ entries t' = entries t.
Proof.
  intros Hdel t'. subst t'. unfold OnZeroRefcount. rewrite Hdel.
  destruct (CancelDeleteTimer vrf p) as [vrf' p'].
  cbn [fst snd name_tree_ dbtree_ entries].
  split; [ | split; [ | reflexivity ] ].
  - intros n. rewrite elem_of_difference, elem_of_singleton. reflexivity.
  - intros tt n. rewrite !erase_at_elem.
    destruct tt; intuition congruence.
Qed.

(** X15.  When the last reference to a deleted VRF goes away, [OnZeroRefcount] takes
    its name out of the name tree and out of the tree of every route-table
    type, so that neither [FindVrfFromName] nor [GetRouteTable] finds it any
    more; every other name is found as before, and the entries of the table
    are not touched. *)
Theorem OnZeroRefcount_unregisters (vrf : VrfEntry) (t : VrfTable) (p : Process) :
  IsDeleted vrf = true ->
  let t' := (OnZeroRefcount vrf t p).1.2 in
  FindVrfFromName (GetName vrf) t' = false
  /\ (forall tt, GetRouteTable (GetName vrf) tt t' = false)
  /\ (forall n, n <> GetName vrf ->
                FindVrfFromName n t' = FindVrfFromName n t
                /\ forall tt, GetRouteTable n tt t' = GetRouteTable n tt t)
  /\ entries t' = entries t.
Proof.
  intros Hdel t'.
  destruct (OnZeroRefcount_trees vrf t p Hdel) as (Hname & Hdb & Hent).
  fold t' in Hname, Hdb, Hent.
  unfold FindVrfFromName, GetRouteTable.
  split; [ apply bool_decide_eq_false; rewrite Hname; tauto | ].
  split; [ intros tt; apply bool_decide_eq_false; rewrite Hdb; tauto | ].
  split; [ | exact Hent ].
  intros n Hne. split.
  - apply bool_decide_ext. rewrite Hname. tauto.
  - intros tt. apply bool_decide_ext. rewrite Hdb. tauto.
Qed.

Lemma OnZeroRefcount_unregisters_witness :
  IsDeleted (set_IsDeleted true c8_vrf) = true
  /\ FindVrfFromName "vrf-a"
       (OnZeroRefcount (set_IsDeleted true c8_vrf) c8_table c8_proc).1.2 = false.
Proof.
  split; [ reflexivity | ].
  apply (OnZeroRefcount_unregisters (set_IsDeleted true c8_vrf) c8_table c8_proc eq_refl).
Defined.

(** X16.  The pending-delete gate lets everything else through: when [CanNotify]
    accepts a name it leaves no trace, and [Input] hands every request for
    that name to the base class; when it refuses, [Input] keeps the table for
    every request of that name. *)
Theorem CanNotify_Input_agree (AgentDBTable_Input : DBRequest -> State -> State)
    (op : DBRequestOper) (name : string) (s : State) :
  if (CanNotify name s).1
  then (CanNotify name s).2 = s
       /\ Input AgentDBTable_Input (mkDBRequest op name) s
          = AgentDBTable_Input (mkDBRequest op name) s
  else table (Input AgentDBTable_Input (mkDBRequest op name) s) = table s
       /\ length (oper_trace (proc (CanNotify name s).2))
          = S (length (oper_trace (proc s))).
Proof.
  unfold CanNotify, Input. simpl.
  destruct (entries (table s) !! name) as [e | ]; simpl.
  - destruct (IsDeleted e); simpl.
    + split; [ reflexivity | ]. rewrite length_app. simpl. lia.
    + split; reflexivity.
  - split; reflexivity.
Qed.

End VrfRetire.

(** ** The global vrouter configuration *)

Section GlobalVrouterFacts.
Import AgentConfig.

Lemma linklocal_loop_cons (e : LinklocalServiceEntryType)
    (rest : list LinklocalServiceEntryType) (ag : Agent) :
  linklocal_loop (e :: rest) ag
  = if is_metadata e
    then match ip_fabric_service_ip e with
         | ip :: _ =>
             linklocal_loop rest
               (SetIpFabricMetadataServerPort (ip_fabric_service_port e)
                  (SetIpFabricMetadataServerAddress ip ag))
         | [] => None
         end
    else linklocal_loop rest
           (SetIpFabricMetadataServerPort (ip_fabric_service_port e) ag).
Proof.
  unfold is_metadata. simpl.
  destruct (String.eqb _ _); [ | reflexivity ].
  destruct (ip_fabric_service_ip e); reflexivity.
Qed.

Lemma metadata_addresses_cons (e : LinklocalServiceEntryType)
    (rest : list LinklocalServiceEntryType) :
  metadata_addresses (e :: rest)
  = match (if is_metadata e then head (ip_fabric_service_ip e) else None) with
    | Some a => a :: metadata_addresses rest
    | None => metadata_addresses rest
    end.
Proof. reflexivity. Qed.

Lemma linklocal_loop_spec (l : list LinklocalServiceEntryType) :
  forall ag : Agent,
    metadata_addressed l ->
    exists ag',
      linklocal_loop l ag = Some ag'
      /\ ipfabric_metadata_server_port ag'
         = default (ipfabric_metadata_server_port ag) (ip_fabric_service_port <$> last l)
      /\ ipfabric_metadata_server_address ag'
         = default (ipfabric_metadata_server_address ag) (last (metadata_addresses l))
      /\ vxlan_network_identifier_mode_ ag' = vxlan_network_identifier_mode_ ag
      /\ vn_table_updates ag' = vn_table_updates ag
      /\ interface_table_updates ag' = interface_table_updates ag.
Proof.
  induction l as [ | e rest IH]; intros ag Hok.
  - exists ag. repeat split; reflexivity.
  - apply Forall_cons in Hok as [He Hrest].
    rewrite linklocal_loop_cons, metadata_addresses_cons, last_cons.
    destruct (is_metadata e) eqn:Hm.
    + destruct (ip_fabric_service_ip e) as [ | ip ips] eqn:Hip;
        [ exfalso; apply (He eq_refl); reflexivity | ].
      destruct (IH (SetIpFabricMetadataServerPort (ip_fabric_service_port e)
                      (SetIpFabricMetadataServerAddress ip ag)) Hrest)
        as (ag' & Hrun & Hport & Haddr & Hmode & Hvn & Hif).
      exists ag'. split; [ exact Hrun | ].
      rewrite Hport, Haddr, Hmode, Hvn, Hif. cbn [head]. rewrite last_cons.
      clear. destruct (last rest), (last (metadata_addresses rest));
        repeat split; reflexivity.
    + destruct (IH (SetIpFabricMetadataServerPort (ip_fabric_service_port e) ag) Hrest)
        as (ag' & Hrun & Hport & Haddr & Hmode & Hvn & Hif).
      exists ag'. split; [ exact Hrun | ].
      rewrite Hport, Haddr, Hmode, Hvn, Hif.
      clear. destruct (last rest); repeat split; reflexivity.
Qed.

Lemma linklocal_loop_addressed (l : list LinklocalServiceEntryType) :
  forall ag ag' : Agent, linklocal_loop l ag = Some ag' -> metadata_addressed l.
Proof.
  induction l as [ | e rest IH]; intros ag ag' Hrun; [ constructor | ].
  rewrite linklocal_loop_cons in Hrun.
  destruct (is_metadata e) eqn:Hm.
  - destruct (ip_fabric_service_ip e) as [ | ip ips] eqn:Hip; [ discriminate | ].
    constructor; [ intros _; rewrite Hip; discriminate | eapply IH; exact Hrun ].
  - constructor; [ intros H; rewrite Hm in H; discriminate | eapply IH; exact Hrun ].
Qed.

Variable TunnelTypeState : Type.
Variable EncapPrioritySync : list string -> TunnelTypeState -> TunnelTypeState.

(** X17.  For a node that is not deleted and whose metadata entries all have an
    address, [GlobalVrouterConfig] takes the metadata port from the last
    link-local service of the list, whatever its name, and the metadata
    address from the last entry named metadata; with no service in the list
    the port stays, with no metadata entry the address stays. *)
Theorem GlobalVrouterConfig_metadata (node : IFMapNode) (ag : Agent)
    (tun : TunnelTypeState) :
  IsDeleted node = false ->
  metadata_addressed (linklocal_services (GetObject node)) ->
  exists ag',
    GlobalVrouterConfig EncapPrioritySync node (ag, tun)
      = Some (ag', EncapPrioritySync (encapsulation_priorities (GetObject node)) tun)
    /\ ipfabric_metadata_server_port ag'
       = default (ipfabric_metadata_server_port ag)
           (ip_fabric_service_port <$> last (linklocal_services (GetObject node)))
    /\ ipfabric_metadata_server_address ag'
       = default (ipfabric_metadata_server_address ag)
           (last (metadata_addresses (linklocal_services (GetObject node)))).
Proof.
  intros Hdel Hok. unfold AgentConfig.GlobalVrouterConfig. rewrite Hdel. simpl.
  match goal with
  | |- context [linklocal_loop _ ?a] =>
      destruct (linklocal_loop_spec (linklocal_services (GetObject node)) a Hok)
        as (ag' & Hrun & Hport & Haddr & _)
  end.
  exists ag'. rewrite Hrun. split; [ reflexivity | ].
  rewrite Hport, Haddr.
  destruct (negb _); split; reflexivity.
Qed.

(** X18.  [GlobalVrouterConfig] tells the VN and interface tables of a VXLAN
    identifier mode exactly when it changes: an application that succeeds
    adds one update to each table when the node is not deleted and the
    configured mode differs from the agent's, and none otherwise, and a node
    that is not deleted leaves the agent in the configured mode.  So once a
    configuration has been applied, applying the same node again leaves the
    agent as it is, without a further update of either table. *)
Theorem GlobalVrouterConfig_settles (node : IFMapNode) (st st1 : Agent * TunnelTypeState) :
  GlobalVrouterConfig EncapPrioritySync node st = Some st1 ->
  let cfg_mode :=
    if String.eqb (vxlan_network_identifier_mode (GetObject node)) "configured"
    then CONFIGURED else AUTOMATIC in
  let told :=
    if IsDeleted node then 0%nat
    else if VxLanNetworkIdentifierMode_eqb cfg_mode (vxlan_network_identifier_mode_ st.1)
         then 0%nat else 1%nat in
  vn_table_updates st1.1 = (vn_table_updates st.1 + told)%nat
  /\ interface_table_updates st1.1 = (interface_table_updates st.1 + told)%nat
  /\ vxlan_network_identifier_mode_ st1.1
     = (if IsDeleted node then vxlan_network_identifier_mode_ st.1 else cfg_mode)
  /\ exists tun', GlobalVrouterConfig EncapPrioritySync node st1 = Some (st1.1, tun').
Proof.
  destruct st as [ag tun], st1 as [ag1 tun1].
  unfold AgentConfig.GlobalVrouterConfig.
  destruct (IsDeleted node); simpl.
  { intros [= <- <-]. rewrite !Nat.add_0_r.
    repeat split; try reflexivity. exists tun. reflexivity. }
  set (mode := if String.eqb _ _ then CONFIGURED else AUTOMATIC).
  set (ag0 := if negb (VxLanNetworkIdentifierMode_eqb mode _) then _ else ag).
  assert (Hm0 : vxlan_network_identifier_mode_ ag0 = mode
                /\ vn_table_updates ag0
                   = (vn_table_updates ag
                      + if VxLanNetworkIdentifierMode_eqb mode
                             (vxlan_network_identifier_mode_ ag)
                        then 0 else 1)%nat
                /\ interface_table_updates ag0
                   = (interface_table_updates ag
                      + if VxLanNetworkIdentifierMode_eqb mode
                             (vxlan_network_identifier_mode_ ag)
                        then 0 else 1)%nat).
  { subst ag0. clearbody mode. destruct ag as [m a p v i]. simpl.
    destruct mode, m; simpl; repeat split; lia. }
  clearbody ag0 mode. destruct Hm0 as (Hm0 & Hv0 & Hi0).
  destruct (linklocal_loop (linklocal_services (GetObject node)) ag0) as [ag' | ] eqn:Hrun;
    [ | discriminate ].
  intros [= -> <-].
  pose proof (linklocal_loop_addressed _ _ _ Hrun) as Hok.
  destruct (linklocal_loop_spec _ ag0 Hok) as (x & Hx & Hport & Haddr & Hmode & Hvn & Hif).
  rewrite Hrun in Hx. injection Hx as <-.
  split; [ rewrite Hvn; exact Hv0 | ].
  split; [ rewrite Hif; exact Hi0 | ].
  split; [ rewrite Hmode; exact Hm0 | ].
  assert (Hsame : VxLanNetworkIdentifierMode_eqb mode (vxlan_network_identifier_mode_ ag1)
                  = true).
  { rewrite Hmode, Hm0. destruct mode; reflexivity. }
  rewrite Hsame. simpl.
  destruct (linklocal_loop_spec _ ag1 Hok) as (ag2 & Hrun2 & Hport2 & Haddr2 & Hmode2 & Hvn2 & Hif2).
  rewrite Hrun2. eexists. f_equal. f_equal.
  destruct ag1 as [m1 a1 p1 v1 i1], ag2 as [m2 a2 p2 v2 i2]. simpl in *.
  subst m2 v2 i2. f_equal.
  - rewrite Haddr2.
    destruct (last (metadata_addresses (linklocal_services (GetObject node))));
      simpl in *; congruence.
  - rewrite Hport2.
    destruct (last (linklocal_services (GetObject node))); simpl in *; congruence.
Qed.

End GlobalVrouterFacts.

Lemma sample_services_addressed : metadata_addressed sample_services.
Proof.
  repeat constructor; simpl; intros H; discriminate.
Qed.

Lemma GlobalVrouterConfig_metadata_witness :
  AgentConfig.IsDeleted sample_node = false
  /\ metadata_addressed (AgentConfig.linklocal_services (AgentConfig.GetObject sample_node))
  /\ exists ag',
       AgentConfig.GlobalVrouterConfig (fun (_ : list string) (u : unit) => u) sample_node (sample_agent, tt)
         = Some (ag', tt)
       /\ AgentConfig.ipfabric_metadata_server_port ag' = 123
       /\ AgentConfig.ipfabric_metadata_server_address ag' = "10.1.1.1"%string.
Proof.
  split; [ reflexivity | ]. split; [ exact sample_services_addressed | ].
  destruct (GlobalVrouterConfig_metadata unit (fun _ u => u) sample_node sample_agent tt
              eq_refl sample_services_addressed) as (ag' & Hrun & Hport & Haddr).
  exists ag'. split; [ exact Hrun | ]. split; [ exact Hport | exact Haddr ].
Defined.

Lemma GlobalVrouterConfig_settles_witness :
  exists st1,
    AgentConfig.GlobalVrouterConfig (fun (_ : list string) (u : unit) => u) sample_node (sample_agent, tt)
      = Some st1
    /\ AgentConfig.vn_table_updates st1.1 = 1%nat
    /\ AgentConfig.interface_table_updates st1.1 = 1%nat
    /\ exists tun',
         AgentConfig.GlobalVrouterConfig (fun (_ : list string) (u : unit) => u) sample_node st1
           = Some (st1.1, tun').
Proof.
  eexists. split; [ reflexivity | ].
  destruct (GlobalVrouterConfig_settles unit (fun _ u => u) sample_node (sample_agent, tt)
              _ eq_refl) as (Hvn & Hif & _ & Hagain).
  split; [ exact Hvn | ]. split; [ exact Hif | exact Hagain ].
Defined.
